(** * decimation: infix expressions over a pluggable decimal backend

    A shallow embedding of [core.js] (tokenizer, precedence-climbing parser,
    AST cache, value preprocessor, interpreter) together with the properties
    stated about it.

    Conventions.
    - JavaScript exceptions are values of [Error]; a computation that may
      throw has type [result A].
    - The decimal backend ([DecimalConstructor] / [DecimalInstance] of
      [types.d.ts]) is an interface, rendered as a type class.
    - Template strings are [string]s of 8-bit characters: every character the
      tokenizer accepts is ASCII, and any other character takes the final
      [else] branch of the tokenizer. *)

From Stdlib Require Import ZArith QArith Qround Qabs Lia Bool Ascii String.
From stdpp Require Import base option list strings gmap.

Open Scope string_scope.
Open Scope list_scope.
Open Scope nat_scope.

(** ** Operators, tokens, AST nodes ([types.d.ts]) *)

Inductive Operator : Type :=
| OpLt | OpLe | OpEq | OpGt | OpGe | OpNe
| OpAdd | OpSub | OpMul | OpDiv | OpPow.

Inductive Token : Type :=
| VALUE (value : nat)
| NUMBER (value : string)
| OPERATOR (value : Operator)
| FUNCTION (value : string)
| LPAREN
| RPAREN
| COMMA
| EOF.

(** The [type] field of a token, as it appears in error messages. *)
Inductive TokenType : Type :=
| TyVALUE | TyNUMBER | TyOPERATOR | TyFUNCTION
| TyLPAREN | TyRPAREN | TyCOMMA | TyEOF.

Definition token_type (t : Token) : TokenType :=
  match t with
  | VALUE _ => TyVALUE
  | NUMBER _ => TyNUMBER
  | OPERATOR _ => TyOPERATOR
  | FUNCTION _ => TyFUNCTION
  | LPAREN => TyLPAREN
  | RPAREN => TyRPAREN
  | COMMA => TyCOMMA
  | EOF => TyEOF
  end.

#[warnings="-register-all"]
Inductive ASTNode : Type :=
| value (index : nat)
| number (value : string)
| unary (op : Operator) (operand : ASTNode)
| binary (op : Operator) (left right : ASTNode)
| function (name : string) (args : list ASTNode).

(** ** Errors

    One constructor per [throw] site of [core.js], carrying what the message
    interpolates.  [JSTypeError] stands for the [TypeError] the JavaScript
    engine itself raises (reading a property of [undefined], calling a
    property that is not a function); [BackendError] is an exception raised
    inside the decimal backend; [OutOfFuel] belongs to the embedding only. *)

Inductive Error : Type :=
| UnexpectedCharacter (char : ascii)
| ExpectedLParenAfterFunction (funcName : string)
| ExpectedCommaOrRParen
| UnknownFunction (funcName : string)
| ClampRequires3Arguments
| RequiresOneArgument (funcName : string)
| ExpectedClosingParen
| UnexpectedToken (ty : TokenType)
| ComparisonInMath (op : Operator)
| ComparisonNotTopLevel (op : Operator)
| ChainedComparison
| UnexpectedTokensAfterExpression
| IsRequiresComparison
| UnaryOperandNotDecimal
| BinaryOperandsNotDecimal
| SumRequiresArray
| UnknownNodeType
| JSTypeError (what : string)
| BackendError (what : string)
| OutOfFuel.

Inductive result (A : Type) : Type :=
| OK (a : A)
| Throw (e : Error).
Arguments OK {A} a.
Arguments Throw {A} e.

#[global] Instance result_ret : MRet result := fun _ a => OK a.
#[global] Instance result_bind : MBind result := fun _ _ f m =>
  match m with
  | OK a => f a
  | Throw e => Throw e
  end.
#[global] Instance result_fmap : FMap result := fun _ _ f m =>
  match m with
  | OK a => OK (f a)
  | Throw e => Throw e
  end.

(** ** Operator tables *)

Definition PRECEDENCE (op : Operator) : nat :=
  match op with
  | OpLt | OpLe | OpEq | OpGt | OpGe | OpNe => 1
  | OpAdd | OpSub => 2
  | OpMul | OpDiv => 3
  | OpPow => 4
  end.

Definition RIGHT_ASSOC (op : Operator) : bool :=
  match op with
  | OpPow => true
  | _ => false
  end.

Definition COMPARISON_OPS (op : Operator) : bool :=
  match op with
  | OpLt | OpLe | OpEq | OpGt | OpGe | OpNe => true
  | _ => false
  end.

(** ** Tokenizer *)

Definition isWhitespace (char : ascii) : bool :=
  (char =? " ")%char || (char =? "009")%char || (char =? "010")%char.

Definition isDigit (char : ascii) : bool :=
  ("0" <=? char)%char && (char <=? "9")%char.

Definition isLower (char : ascii) : bool :=
  ("a" <=? char)%char && (char <=? "z")%char.

(** [str[j + 1]] seen from position [j]: the head of what follows, if any. *)
Definition peek (rest : string) : option ascii :=
  match rest with
  | String c _ => Some c
  | EmptyString => None
  end.

Definition nextIs (c : ascii) (rest : string) : bool :=
  match peek rest with
  | Some d => (d =? c)%char
  | None => false
  end.

Definition push (t : Token) (r : result (list Token)) : result (list Token) :=
  cons t <$> r.

(** The inner [for (j ...)] loop over one literal fragment.  The argument is
    the part of [str] from index [j] on; the result lists the tokens pushed
    from there to the end of the fragment. *)
Fixpoint lexFragment (str : string) : result (list Token) :=
  match str with
  | EmptyString => OK []
  | String char rest =>
    if isWhitespace char then lexFragment rest
    else if (char =? "(")%char then push LPAREN (lexFragment rest)
    else if (char =? ")")%char then push RPAREN (lexFragment rest)
    else if (char =? ",")%char then push COMMA (lexFragment rest)
    else if (char =? "*")%char && nextIs "*" rest then
      match rest with
      | String _ rest' => push (OPERATOR OpPow) (lexFragment rest')
      | EmptyString => OK []
      end
    else if (char =? "=")%char && nextIs "=" rest then
      match rest with
      | String _ rest' => push (OPERATOR OpEq) (lexFragment rest')
      | EmptyString => OK []
      end
    else if (char =? "!")%char && nextIs "=" rest then
      match rest with
      | String _ rest' => push (OPERATOR OpNe) (lexFragment rest')
      | EmptyString => OK []
      end
    else if (char =? "<")%char && nextIs "=" rest then
      match rest with
      | String _ rest' => push (OPERATOR OpLe) (lexFragment rest')
      | EmptyString => OK []
      end
    else if (char =? ">")%char && nextIs "=" rest then
      match rest with
      | String _ rest' => push (OPERATOR OpGe) (lexFragment rest')
      | EmptyString => OK []
      end
    else if (char =? "<")%char then push (OPERATOR OpLt) (lexFragment rest)
    else if (char =? ">")%char then push (OPERATOR OpGt) (lexFragment rest)
    else if (char =? "+")%char then push (OPERATOR OpAdd) (lexFragment rest)
    else if (char =? "-")%char then push (OPERATOR OpSub) (lexFragment rest)
    else if (char =? "*")%char then push (OPERATOR OpMul) (lexFragment rest)
    else if (char =? "/")%char then push (OPERATOR OpDiv) (lexFragment rest)
    else if isDigit char then
      (fix scan (num : string) (r : string) {struct r} : result (list Token) :=
         match r with
         | String d r' =>
           if isDigit d || (d =? ".")%char
           then scan (num +:+ String d "") r'
           else push (NUMBER num) (lexFragment r)
         | EmptyString => OK [NUMBER num]
         end) (String char "") rest
    else if isLower char then
      (fix scan (name : string) (r : string) {struct r} : result (list Token) :=
         match r with
         | String d r' =>
           if isLower d
           then scan (name +:+ String d "") r'
           else push (FUNCTION name) (lexFragment r)
         | EmptyString => OK [FUNCTION name]
         end) (String char "") rest
    else Throw (UnexpectedCharacter char)
  end.

(** The outer [for (i ...)] loop: fragment [i], then a [VALUE i] token unless
    the fragment is the last one ([i < template.length - 1], written
    [i + 1 < length] to stay within the natural numbers). *)
Fixpoint tokenizeLoop (i len : nat) (fragments : list string)
  : result (list Token) :=
  match fragments with
  | [] => OK [EOF]
  | str :: more =>
    toks ← lexFragment str;
    later ← tokenizeLoop (S i) len more;
    OK (toks ++ (if (i + 1 <? len)%nat then [VALUE i] else []) ++ later)
  end.

Definition tokenize (template : list string) : result (list Token) :=
  tokenizeLoop 0 (length template) template.

(** ** Parser ([class ASTParser])

    The parser object is a record threaded through the methods; a method
    returns its value together with the updated object, or throws.  Recursion
    and the two [while] loops are bounded by a fuel argument; [parseFuel]
    below is the amount the entry points supply. *)

Inductive Mode : Type := MathMode | IsMode.

#[global] Instance Mode_eq_dec : EqDecision Mode.
Proof. solve_decision. Defined.

Record ASTParser : Type := mkParser {
  tokens : list Token;
  pos : nat;
  mode : Mode;
  hasTopLevelComparison : bool
}.

Definition newASTParser (toks : list Token) (m : Mode) : ASTParser :=
  {| tokens := toks; pos := 0; mode := m; hasTopLevelComparison := false |}.

(** [this.tokens[this.pos]]; [None] is JavaScript's [undefined]. *)
Definition current (p : ASTParser) : option Token := tokens p !! pos p.

Definition advance (p : ASTParser) : ASTParser :=
  {| tokens := tokens p; pos := S (pos p); mode := mode p;
     hasTopLevelComparison := hasTopLevelComparison p |}.

Definition setHasTopLevelComparison (p : ASTParser) : ASTParser :=
  {| tokens := tokens p; pos := pos p; mode := mode p;
     hasTopLevelComparison := true |}.

(** Reading [.type] of [undefined]. *)
Definition undefinedToken {A} : result A :=
  Throw (JSTypeError "Cannot read properties of undefined (reading 'type')").

Definition validFunctions : list string :=
  ["abs"; "ceil"; "floor"; "round"; "clamp"; "sum"].

Definition includes (l : list string) (s : string) : bool :=
  existsb (String.eqb s) l.

(** The checks of [parsePrimary] that follow the argument loop. *)
Definition validateCall (funcName : string) (args : list ASTNode)
  : result ASTNode :=
  if negb (includes validFunctions funcName) then
    Throw (UnknownFunction funcName)
  else if (funcName =? "clamp")%string && negb (length args =? 3)%nat then
    Throw ClampRequires3Arguments
  else if negb (funcName =? "clamp")%string && negb (length args =? 1)%nat then
    Throw (RequiresOneArgument funcName)
  else OK (function funcName args).

(** The comparison checks of [parseExpression], performed on an operator
    that passed the precedence test. *)
Definition checkComparison (op : Operator) (isTopLevel : bool) (p : ASTParser)
  : result ASTParser :=
  if COMPARISON_OPS op then
    match mode p with
    | MathMode => Throw (ComparisonInMath op)
    | IsMode =>
      if negb isTopLevel then Throw (ComparisonNotTopLevel op)
      else if hasTopLevelComparison p then Throw ChainedComparison
      else OK (setHasTopLevelComparison p)
    end
  else OK p.

Definition nextMinPrec (op : Operator) : nat :=
  if RIGHT_ASSOC op then PRECEDENCE op else PRECEDENCE op + 1.

Fixpoint parsePrimary (fuel : nat) (p : ASTParser) {struct fuel}
  : result (ASTNode * ASTParser) :=
  match fuel with
  | 0 => Throw OutOfFuel
  | S fuel =>
    match current p with
    | None => undefinedToken
    | Some (VALUE index) => OK (value index, advance p)
    | Some (NUMBER v) => OK (number v, advance p)
    | Some (FUNCTION funcName) =>
      let p := advance p in
      match current p with
      | None => undefinedToken
      | Some LPAREN =>
        '(args, p) ← parseArguments fuel [] (advance p);
        node ← validateCall funcName args;
        OK (node, advance p)
      | Some _ => Throw (ExpectedLParenAfterFunction funcName)
      end
    | Some (OPERATOR op) =>
      match op with
      | OpAdd | OpSub =>
        '(operand, p) ← parsePrimary fuel (advance p);
        OK (unary op operand, p)
      | _ => Throw (UnexpectedToken TyOPERATOR)
      end
    | Some LPAREN =>
      '(expr, p) ← parseExpression fuel 0 false (advance p);
      match current p with
      | None => undefinedToken
      | Some RPAREN => OK (expr, advance p)
      | Some _ => Throw ExpectedClosingParen
      end
    | Some token => Throw (UnexpectedToken (token_type token))
    end
  end

(** [while (this.current().type !== 'RPAREN') { ... }] of [parsePrimary];
    returns the collected arguments with the parser standing on the [')']. *)
with parseArguments (fuel : nat) (args : list ASTNode) (p : ASTParser)
  {struct fuel} : result (list ASTNode * ASTParser) :=
  match fuel with
  | 0 => Throw OutOfFuel
  | S fuel =>
    match current p with
    | None => undefinedToken
    | Some RPAREN => OK (args, p)
    | Some _ =>
      '(arg, p) ← parseExpression fuel 0 false p;
      let args := args ++ [arg] in
      match current p with
      | None => undefinedToken
      | Some COMMA => parseArguments fuel args (advance p)
      | Some RPAREN => parseArguments fuel args p
      | Some _ => Throw ExpectedCommaOrRParen
      end
    end
  end

with parseExpression (fuel : nat) (minPrec : nat) (isTopLevel : bool)
  (p : ASTParser) {struct fuel} : result (ASTNode * ASTParser) :=
  match fuel with
  | 0 => Throw OutOfFuel
  | S fuel =>
    '(left_, p) ← parsePrimary fuel p;
    parseExpressionLoop fuel minPrec isTopLevel left_ p
  end

(** [while (true) { ... }] of [parseExpression], entered with [left]
    (spelled [left_] here, [left] being a constructor of the prelude). *)
with parseExpressionLoop (fuel : nat) (minPrec : nat) (isTopLevel : bool)
  (left_ : ASTNode) (p : ASTParser) {struct fuel}
  : result (ASTNode * ASTParser) :=
  match fuel with
  | 0 => Throw OutOfFuel
  | S fuel =>
    match current p with
    | None => undefinedToken
    | Some (OPERATOR op) =>
      let prec := PRECEDENCE op in
      if (prec <? minPrec)%nat then OK (left_, p)
      else
        p ← checkComparison op isTopLevel p;
        let p := advance p in
        '(right_, p) ← parseExpression fuel (nextMinPrec op) isTopLevel p;
        parseExpressionLoop fuel minPrec isTopLevel (binary op left_ right_) p
    | Some _ => OK (left_, p)
    end
  end.

(** Fuel for a token stream: three units per token and three to spare
    (see [parseExpression_total]). *)
Definition parseFuel (toks : list Token) : nat := 3 * length toks + 3.

(** What [math] and [is] do with the token stream: parse, require [EOF],
    and for [is] require that a top-level comparison was seen. *)
Definition parseTokens (m : Mode) (toks : list Token) : result ASTNode :=
  let parser := newASTParser toks m in
  '(ast, parser) ← parseExpression (parseFuel toks) 0 true parser;
  match current parser with
  | None => undefinedToken
  | Some EOF =>
    match m with
    | MathMode => OK ast
    | IsMode =>
      if negb (hasTopLevelComparison parser) then Throw IsRequiresComparison
      else OK ast
    end
  | Some _ => Throw UnexpectedTokensAfterExpression
  end.

(** The body of [if (!ast) { ... }] in [math] and [is], up to the
    [cache.set]. *)
Definition parseTemplate (m : Mode) (template : list string)
  : result ASTNode :=
  toks ← tokenize template;
  parseTokens m toks.

(** ** Runtime values and the decimal backend

    [Number] is the host's number type and [D] the backend's instance type;
    both are left abstract.  A [JSValue] is anything the interpreter can hold:
    a raw interpolated scalar, a backend instance, an array, the boolean a
    comparison returns, or [undefined]. *)

#[warnings="-register-all"]
Inductive JSValue (Number D : Type) : Type :=
| JNumber (n : Number)
| JString (s : string)
| JBigInt (z : Z)
| JDecimal (d : D)
| JArray (elements : list (JSValue Number D))
| JBoolean (b : bool)
| JUndefined.
Arguments JNumber {Number D} n.
Arguments JString {Number D} s.
Arguments JBigInt {Number D} z.
Arguments JDecimal {Number D} d.
Arguments JArray {Number D} elements.
Arguments JBoolean {Number D} b.
Arguments JUndefined {Number D}.

(** [DecimalConstructor] and [DecimalInstance] of [types.d.ts].  The
    constructor, [clamp] and [sum] receive values the core does not inspect
    and may throw; the other methods are called on checked instances only. *)
Class DecimalConstructor (Number D : Type) : Type := {
  zeroNumber : Number;
  newDecimal : JSValue Number D → result D;
  add : D → D → D;
  sub : D → D → D;
  mul : D → D → D;
  div : D → D → D;
  pow : D → D → D;
  lt : D → D → bool;
  lte : D → D → bool;
  eq : D → D → bool;
  gt : D → D → bool;
  gte : D → D → bool;
  abs : D → D;
  neg : D → D;
  ceil : D → D;
  floor : D → D;
  round : D → D;
  clamp : D → JSValue Number D → JSValue Number D → result D;
  sum : list (JSValue Number D) → result D
}.

Section Core.
Context {Number D : Type} `{Decimal : DecimalConstructor Number D}.

Abbreviation Value := (JSValue Number D).

(** [val instanceof DecimalConstructor ? val
     : Array.isArray(val) ? val : new DecimalConstructor(val)] *)
Definition preprocessValue (val : Value) : result Value :=
  match val with
  | JDecimal _ => OK val
  | JArray _ => OK val
  | _ => JDecimal <$> newDecimal val
  end.

Definition preprocessValues (values : list Value) : result (list Value) :=
  mapM preprocessValue values.

(** [receiver.method(...)] where only backend instances have the method:
    on [undefined] the property read throws, on any other value the property
    is [undefined] and the call throws. *)
Definition callMethod (method : string) (receiver : Value)
  (body : D → result Value) : result Value :=
  match receiver with
  | JDecimal d => body d
  | JUndefined =>
    Throw (JSTypeError ("Cannot read properties of undefined (reading '"
                          +:+ method +:+ "')"))
  | _ => Throw (JSTypeError ("args[0]." +:+ method +:+ " is not a function"))
  end.

(** [args[i]] *)
Definition arg (i : nat) (args : list Value) : Value := nth i args JUndefined.

Definition interpretCall (name : string) (args : list Value) : result Value :=
  if (name =? "abs")%string then
    callMethod "abs" (arg 0 args) (λ d, OK (JDecimal (abs d)))
  else if (name =? "ceil")%string then
    callMethod "ceil" (arg 0 args) (λ d, OK (JDecimal (ceil d)))
  else if (name =? "floor")%string then
    callMethod "floor" (arg 0 args) (λ d, OK (JDecimal (floor d)))
  else if (name =? "round")%string then
    callMethod "round" (arg 0 args) (λ d, OK (JDecimal (round d)))
  else if (name =? "clamp")%string then
    callMethod "clamp" (arg 0 args)
      (λ d, JDecimal <$> clamp d (arg 1 args) (arg 2 args))
  else if (name =? "sum")%string then
    match arg 0 args with
    | JArray arr => JDecimal <$> sum (JNumber zeroNumber :: arr)
    | _ => Throw SumRequiresArray
    end
  else Throw (UnknownFunction name).

Definition interpretUnary (op : Operator) (operand : Value) : result Value :=
  match operand with
  | JDecimal d =>
    match op with
    | OpSub => OK (JDecimal (neg d))
    | OpAdd => OK operand
    | _ => Throw UnknownNodeType
    end
  | _ => Throw UnaryOperandNotDecimal
  end.

Definition interpretBinary (op : Operator) (left_ right_ : Value)
  : result Value :=
  match left_, right_ with
  | JDecimal l, JDecimal r =>
    OK match op with
       | OpAdd => JDecimal (add l r)
       | OpSub => JDecimal (sub l r)
       | OpMul => JDecimal (mul l r)
       | OpDiv => JDecimal (div l r)
       | OpPow => JDecimal (pow l r)
       | OpLt => JBoolean (lt l r)
       | OpLe => JBoolean (lte l r)
       | OpEq => JBoolean (eq l r)
       | OpGt => JBoolean (gt l r)
       | OpGe => JBoolean (gte l r)
       | OpNe => JBoolean (negb (eq l r))
       end
  | _, _ => Throw BinaryOperandsNotDecimal
  end.

Fixpoint interpret (node : ASTNode) (values : list Value) : result Value :=
  match node with
  | value index => OK (nth index values JUndefined)
  | number v => JDecimal <$> newDecimal (JString v)
  | unary op operand =>
    operand ← interpret operand values;
    interpretUnary op operand
  | binary op l r =>
    l ← interpret l values;
    r ← interpret r values;
    interpretBinary op l r
  | function name args =>
    args ← (fix map (nodes : list ASTNode) : result (list Value) :=
              match nodes with
              | [] => OK []
              | a :: nodes =>
                v ← interpret a values;
                vs ← map nodes;
                OK (v :: vs)
              end) args;
    interpretCall name args
  end.

(** ** [create]: the two entry points and their caches

    A template object is known by its identity; [fragments] gives the strings
    of each (template objects are frozen, so these never change).  The
    [WeakMap]s are finite maps keyed by identity.  [parseCount] is
    instrumentation: it counts the runs of the tokenizer and parser. *)

Definition TemplateId := positive.

Record Caches : Type := mkCaches {
  mathCache : gmap TemplateId ASTNode;
  isCache : gmap TemplateId ASTNode;
  parseCount : nat
}.

Definition create : Caches :=
  {| mathCache := ∅; isCache := ∅; parseCount := 0 |}.

Definition cacheOf (m : Mode) (c : Caches) : gmap TemplateId ASTNode :=
  match m with
  | MathMode => mathCache c
  | IsMode => isCache c
  end.

Definition countParse (c : Caches) : Caches :=
  {| mathCache := mathCache c; isCache := isCache c;
     parseCount := S (parseCount c) |}.

Definition cacheSet (m : Mode) (template : TemplateId) (ast : ASTNode)
  (c : Caches) : Caches :=
  match m with
  | MathMode =>
    {| mathCache := <[template := ast]> (mathCache c); isCache := isCache c;
       parseCount := parseCount c |}
  | IsMode =>
    {| mathCache := mathCache c; isCache := <[template := ast]> (isCache c);
       parseCount := parseCount c |}
  end.

(** The last two lines of [math] and [is]. *)
Definition evaluate (ast : ASTNode) (values : list Value) : result Value :=
  processedValues ← preprocessValues values;
  interpret ast processedValues.

Section Entry.
Variable fragments : TemplateId → list string.

(** [math] and [is] differ in the cache they use and in the parser mode. *)
Definition entry (m : Mode) (c : Caches) (template : TemplateId)
  (values : list Value) : result Value * Caches :=
  match cacheOf m c !! template with
  | Some ast => (evaluate ast values, c)
  | None =>
    let c := countParse c in
    match parseTemplate m (fragments template) with
    | Throw e => (Throw e, c)
    | OK ast => (evaluate ast values, cacheSet m template ast c)
    end
  end.

Definition math := entry MathMode.
(** [is] (a reserved word here, hence the underscore). *)
Definition is_ := entry IsMode.

(** Evaluation without a cache: tokenize, parse, preprocess, interpret. *)
Definition evaluateFresh (m : Mode) (template : list string)
  (values : list Value) : result Value :=
  ast ← parseTemplate m template;
  evaluate ast values.

End Entry.
End Core.

(** ** A reference backend: exact rational arithmetic

    An instance of the backend interface used to run the core on concrete
    inputs.  Instances are rationals kept in lowest terms, host numbers are
    integers, and a numeric string is a run of digits with at most one
    decimal point.  (Exponents are taken to the integer below them.) *)
Module QBackend.

Definition digitValue (c : ascii) : Z := Z.of_nat (nat_of_ascii c) - 48.

(** Reads [digits] or [digits.digits]; [acc] is the integer read so far and
    [scale] the power of ten to divide by, once the point has been seen. *)
Fixpoint readDigits (s : string) (acc : Z) (scale : option positive)
  : option Q :=
  match s with
  | EmptyString =>
    Some (Qred (acc # match scale with Some k => k | None => 1 end))
  | String c rest =>
    if isDigit c then
      readDigits rest (acc * 10 + digitValue c)
                 (match scale with Some k => Some (k * 10)%positive
                                 | None => None end)
    else if (c =? ".")%char then
      match scale with
      | None => readDigits rest acc (Some 1%positive)
      | Some _ => None
      end
    else None
  end.

Definition parseDecimal (s : string) : option Q :=
  match s with
  | String c _ => if isDigit c then readDigits s 0 None else None
  | EmptyString => None
  end.

Definition construct (v : JSValue Z Q) : result Q :=
  match v with
  | JNumber n => OK (inject_Z n)
  | JBigInt z => OK (inject_Z z)
  | JDecimal d => OK d
  | JString s =>
    match parseDecimal s with
    | Some q => OK q
    | None => Throw (BackendError ("Invalid argument: " +:+ s))
    end
  | _ => Throw (BackendError "Invalid argument")
  end.

Definition qlt (x y : Q) : bool := negb (Qle_bool y x).

Definition clampTo (x : Q) (lo hi : JSValue Z Q) : result Q :=
  lo ← construct lo;
  hi ← construct hi;
  OK (if qlt x lo then lo else if qlt hi x then hi else x).

Definition sumOf (vs : list (JSValue Z Q)) : result Q :=
  match vs with
  | [] => Throw (BackendError "Invalid argument: undefined")
  | seed :: more =>
    seed ← construct seed;
    more ← mapM construct more;
    OK (fold_left (λ x y, Qred (x + y)) more seed)
  end.

#[export] Instance QDecimal : DecimalConstructor Z Q := {|
  zeroNumber := 0%Z;
  newDecimal := construct;
  add x y := Qred (x + y);
  sub x y := Qred (x - y);
  mul x y := Qred (x * y);
  div x y := Qred (x / y);
  pow x y := Qred (x ^ Qfloor y);
  lt x y := qlt x y;
  lte x y := Qle_bool x y;
  eq x y := Qeq_bool x y;
  gt x y := qlt y x;
  gte x y := Qle_bool y x;
  abs x := Qred (Qabs x);
  neg x := Qred (- x);
  ceil x := inject_Z (Qceiling x);
  floor x := inject_Z (Qfloor x);
  round x := inject_Z (Qfloor (x + (1 # 2)));
  clamp := clampTo;
  sum := sumOf
|}.

(** A program with a single template object. *)
Definition only (template : list string) : TemplateId → list string :=
  λ _, template.

(** [math`...`] on a fresh pair of caches. *)
Definition run (template : list string) (values : list (JSValue Z Q))
  : result (JSValue Z Q) :=
  (math (only template) create 1%positive values).1.

Definition runIs (template : list string) (values : list (JSValue Z Q))
  : result (JSValue Z Q) :=
  (is_ (only template) create 1%positive values).1.

Definition int (z : Z) : JSValue Z Q := JNumber z.

End QBackend.

(** ** Auxiliary definitions for the tokenizer properties *)

Definition isNumberChar (char : ascii) : bool :=
  isDigit char || (char =? ".")%char.

(** The [while] loop of the number branch on its own: extends [num] with the
    longest prefix of [r] made of digits and points, and returns it with
    what is left. *)
Fixpoint scanNumber (num r : string) : string * string :=
  match r with
  | String d r' =>
    if isNumberChar d then scanNumber (num +:+ String d "") r' else (num, r)
  | EmptyString => (num, EmptyString)
  end.

Fixpoint allChars (f : ascii → bool) (s : string) : bool :=
  match s with
  | String c s' => f c && allChars f s'
  | EmptyString => true
  end.

(** [rest] does not continue a number. *)
Definition endsNumber (rest : string) : bool :=
  match peek rest with
  | Some c => negb (isNumberChar c)
  | None => true
  end.

(** The [while] loop of the name branch on its own. *)
Fixpoint scanName (name r : string) : string * string :=
  match r with
  | String d r' =>
    if isLower d then scanName (name +:+ String d "") r' else (name, r)
  | EmptyString => (name, EmptyString)
  end.

Definition stringTail (s : string) : string :=
  match s with
  | String _ s' => s'
  | EmptyString => EmptyString
  end.

(** One iteration of the [for (j ...)] loop: the token it pushes, if any, and
    the part of the fragment it leaves. *)
Definition lexOne (char : ascii) (rest : string)
  : result (option Token * string) :=
  if isWhitespace char then OK (None, rest)
  else if (char =? "(")%char then OK (Some LPAREN, rest)
  else if (char =? ")")%char then OK (Some RPAREN, rest)
  else if (char =? ",")%char then OK (Some COMMA, rest)
  else if (char =? "*")%char && nextIs "*" rest then
    OK (Some (OPERATOR OpPow), stringTail rest)
  else if (char =? "=")%char && nextIs "=" rest then
    OK (Some (OPERATOR OpEq), stringTail rest)
  else if (char =? "!")%char && nextIs "=" rest then
    OK (Some (OPERATOR OpNe), stringTail rest)
  else if (char =? "<")%char && nextIs "=" rest then
    OK (Some (OPERATOR OpLe), stringTail rest)
  else if (char =? ">")%char && nextIs "=" rest then
    OK (Some (OPERATOR OpGe), stringTail rest)
  else if (char =? "<")%char then OK (Some (OPERATOR OpLt), rest)
  else if (char =? ">")%char then OK (Some (OPERATOR OpGt), rest)
  else if (char =? "+")%char then OK (Some (OPERATOR OpAdd), rest)
  else if (char =? "-")%char then OK (Some (OPERATOR OpSub), rest)
  else if (char =? "*")%char then OK (Some (OPERATOR OpMul), rest)
  else if (char =? "/")%char then OK (Some (OPERATOR OpDiv), rest)
  else if isDigit char then
    let '(num, r) := scanNumber (String char "") rest in
    OK (Some (NUMBER num), r)
  else if isLower char then
    let '(name, r) := scanName (String char "") rest in
    OK (Some (FUNCTION name), r)
  else Throw (UnexpectedCharacter char).

Definition pushOption (t : option Token) (r : result (list Token))
  : result (list Token) :=
  match t with
  | Some t => push t r
  | None => r
  end.

(** ** Value indices *)

Definition isValueBelow (n : nat) (t : Token) : Prop :=
  match t with
  | VALUE i => i < n
  | _ => True
  end.

(** Every [value] node below [node] has an index smaller than [n]. *)
Fixpoint indicesBelow (n : nat) (node : ASTNode) : Prop :=
  match node with
  | value index => index < n
  | number _ => True
  | unary _ operand => indicesBelow n operand
  | binary _ l r => indicesBelow n l ∧ indicesBelow n r
  | function _ args =>
    (fix all (nodes : list ASTNode) : Prop :=
       match nodes with
       | [] => True
       | a :: nodes => indicesBelow n a ∧ all nodes
       end) args
  end.

(** ** The expression grammar, as the specification words it

    [Expr] is the surface syntax: what is written, parentheses included.
    [tokensOf] spells an expression as tokens, [toAST] is the tree it
    denotes, and [wellFormed] says that the expression needs no further
    parentheses: under an operator, the left operand binds at least as
    tightly as the operator when the operator groups left-to-right and
    strictly tighter when it groups right-to-left, and symmetrically for the
    right operand.  These definitions do not come from the parser; they are
    what the parser is compared with. *)

#[warnings="-register-all"]
Inductive Expr : Type :=
| EValue (index : nat)
| ENumber (text : string)
| ECall (name : string) (args : list Expr)
| EUnary (op : Operator) (operand : Expr)
| EParen (inner : Expr)
| EBinary (op : Operator) (l r : Expr).

Fixpoint tokensOf (e : Expr) : list Token :=
  match e with
  | EValue index => [VALUE index]
  | ENumber text => [NUMBER text]
  | ECall name args =>
    FUNCTION name :: LPAREN ::
      (fix separated (es : list Expr) : list Token :=
         match es with
         | [] => []
         | [a] => tokensOf a
         | a :: es => tokensOf a ++ COMMA :: separated es
         end) args ++ [RPAREN]
  | EUnary op operand => OPERATOR op :: tokensOf operand
  | EParen inner => LPAREN :: tokensOf inner ++ [RPAREN]
  | EBinary op l r => tokensOf l ++ OPERATOR op :: tokensOf r
  end.

Fixpoint toAST (e : Expr) : ASTNode :=
  match e with
  | EValue index => value index
  | ENumber text => number text
  | ECall name args => function name (List.map toAST args)
  | EUnary op operand => unary op (toAST operand)
  | EParen inner => toAST inner
  | EBinary op l r => binary op (toAST l) (toAST r)
  end.

Inductive Associativity : Type := LeftToRight | RightToLeft.

Definition associativity (op : Operator) : Associativity :=
  match op with
  | OpPow => RightToLeft
  | _ => LeftToRight
  end.

(** How tightly an expression binds: the precedence of its operator, and
    above every operator for a primary expression. *)
Definition level (e : Expr) : nat :=
  match e with
  | EBinary op _ _ => PRECEDENCE op
  | _ => 5
  end.

Definition leftOperandLevel (op : Operator) : nat :=
  match associativity op with
  | LeftToRight => PRECEDENCE op
  | RightToLeft => PRECEDENCE op + 1
  end.

Definition rightOperandLevel (op : Operator) : nat :=
  match associativity op with
  | LeftToRight => PRECEDENCE op + 1
  | RightToLeft => PRECEDENCE op
  end.

Definition arity (name : string) : nat :=
  if (name =? "clamp")%string then 3 else 1.

Fixpoint wellFormed (e : Expr) : bool :=
  match e with
  | EValue _ | ENumber _ => true
  | ECall name args =>
    includes validFunctions name && (length args =? arity name) &&
    forallb wellFormed args
  | EUnary op operand =>
    match op with OpAdd | OpSub => true | _ => false end &&
    (level operand =? 5) && wellFormed operand
  | EParen inner => wellFormed inner
  | EBinary op l r =>
    (leftOperandLevel op <=? level l) && (rightOperandLevel op <=? level r) &&
    wellFormed l && wellFormed r
  end.

(** Every binary operation wrapped in parentheses. *)
Fixpoint parenthesize (e : Expr) : Expr :=
  match e with
  | EValue _ | ENumber _ => e
  | ECall name args => ECall name (List.map parenthesize args)
  | EUnary op operand => EUnary op (parenthesize operand)
  | EParen inner => EParen (parenthesize inner)
  | EBinary op l r => EParen (EBinary op (parenthesize l) (parenthesize r))
  end.

(** Comparison operators of an expression: all of them, and those at the
    syntactic top level (inside neither parentheses nor arguments). *)
Definition comparisonsIn (toks : list Token) : list Operator :=
  omap (λ t, match t with
             | OPERATOR op => if COMPARISON_OPS op then Some op else None
             | _ => None
             end) toks.

Fixpoint topLevelComparisons (e : Expr) : list Operator :=
  match e with
  | EBinary op l r =>
    topLevelComparisons l ++
    (if COMPARISON_OPS op then [op] else []) ++ topLevelComparisons r
  | EUnary _ operand => topLevelComparisons operand
  | _ => []
  end.

Fixpoint nestedComparisons (e : Expr) : list Operator :=
  match e with
  | EBinary _ l r => nestedComparisons l ++ nestedComparisons r
  | EUnary _ operand => nestedComparisons operand
  | EParen inner => comparisonsIn (tokensOf inner)
  | ECall _ args => List.concat (List.map (λ a, comparisonsIn (tokensOf a)) args)
  | _ => []
  end.

(** ** The mode rules read off an expression

    [checkOperator] is the decision [parseExpression] takes on an operator,
    as a function of the mode, of whether the operator is at the top level
    and of whether a top-level comparison has been seen; [modeCheck] applies
    it to the operators of an expression in reading order and returns the
    final flag. *)

Definition checkOperator (m : Mode) (top flag : bool) (op : Operator)
  : result bool :=
  if COMPARISON_OPS op then
    match m with
    | MathMode => Throw (ComparisonInMath op)
    | IsMode =>
      if negb top then Throw (ComparisonNotTopLevel op)
      else if flag then Throw ChainedComparison
      else OK true
    end
  else OK flag.

Fixpoint modeCheck (m : Mode) (top flag : bool) (e : Expr) : result bool :=
  match e with
  | EValue _ | ENumber _ => OK flag
  | ECall _ args =>
    (fix each (es : list Expr) (flag : bool) : result bool :=
       match es with
       | [] => OK flag
       | a :: es => flag ← modeCheck m false flag a; each es flag
       end) args flag
  | EUnary _ operand => modeCheck m top flag operand
  | EParen inner => modeCheck m false flag inner
  | EBinary op l r =>
    flag ← modeCheck m top flag l;
    flag ← checkOperator m top flag op;
    modeCheck m top flag r
  end.

(** ** Bookkeeping for the parser proofs *)

(** The tokens not yet consumed. *)
Definition view (p : ASTParser) : list Token := drop (pos p) (tokens p).

(** Tokens left to read. *)
Definition remaining (p : ASTParser) : nat := length (tokens p) - pos p.

(** The parser [k] tokens further, with flag [flag]. *)
Definition moved (p : ASTParser) (k : nat) (flag : bool) : ASTParser :=
  {| tokens := tokens p; pos := k + pos p; mode := mode p;
     hasTopLevelComparison := flag |}.

(** The loop of [parseExpression] at [minPrec] stops in front of [rest]. *)
Definition stops (minPrec : nat) (rest : list Token) : Prop :=
  match rest with
  | OPERATOR op :: _ => PRECEDENCE op < minPrec
  | _ :: _ => True
  | [] => False
  end.

(** What follows [e] is not taken into its right operand. *)
Definition follows (e : Expr) (rest : list Token) : Prop :=
  match e with
  | EBinary op _ _ => stops (rightOperandLevel op) rest
  | _ => True
  end.

(** Number of iterations of the loop of [parseExpression] that build [e]. *)
Fixpoint depth (e : Expr) : nat :=
  match e with
  | EBinary _ l _ => S (depth l)
  | _ => 0
  end.

(** Fuel that suffices to parse [e]. *)
Fixpoint needC (e : Expr) : nat :=
  match e with
  | EValue _ | ENumber _ => 1
  | ECall _ args =>
    2 + (fix total (es : list Expr) : nat :=
           match es with
           | [] => 0
           | a :: es => needC a + 3 + total es
           end) args
  | EUnary _ operand => 1 + needC operand
  | EParen inner => needC inner + 3
  | EBinary _ l r => needC l + needC r + 3
  end.

(** The local functions of [tokensOf], [modeCheck] and [needC] on argument
    lists, by name. *)
Fixpoint separated (es : list Expr) : list Token :=
  match es with
  | [] => []
  | [a] => tokensOf a
  | a :: es => tokensOf a ++ COMMA :: separated es
  end.

Fixpoint modeCheckArgs (m : Mode) (es : list Expr) (flag : bool)
  : result bool :=
  match es with
  | [] => OK flag
  | a :: es => flag ← modeCheck m false flag a; modeCheckArgs m es flag
  end.

Fixpoint needArgs (es : list Expr) : nat :=
  match es with
  | [] => 0
  | a :: es => needC a + 3 + needArgs es
  end.

(** What the three parsing functions owe on the tokens of an expression [e]
    followed by [rest]. *)
Definition primarySpec (e : Expr) : Prop :=
  ∀ fuel p top rest,
    view p = tokensOf e ++ rest →
    needC e ≤ fuel →
    parsePrimary fuel p =
    flag ← modeCheck (mode p) top (hasTopLevelComparison p) e;
    OK (toAST e, moved p (length (tokensOf e)) flag).

Definition loopSpec (e : Expr) : Prop :=
  ∀ fuel p minPrec top rest,
    view p = tokensOf e ++ rest →
    minPrec ≤ level e →
    follows e rest →
    needC e ≤ fuel →
    parseExpression (S fuel) minPrec top p =
    flag ← modeCheck (mode p) top (hasTopLevelComparison p) e;
    parseExpressionLoop (fuel - depth e) minPrec top (toAST e)
      (moved p (length (tokensOf e)) flag).

Definition expressionSpec (e : Expr) : Prop :=
  ∀ fuel p minPrec top rest,
    view p = tokensOf e ++ rest →
    minPrec ≤ level e →
    stops minPrec rest →
    needC e + 2 ≤ fuel →
    parseExpression fuel minPrec top p =
    flag ← modeCheck (mode p) top (hasTopLevelComparison p) e;
    OK (toAST e, moved p (length (tokensOf e)) flag).

(** The error a comparison meets where the mode admits none. *)
Definition rejection (m : Mode) (op : Operator) : Error :=
  match m with
  | MathMode => ComparisonInMath op
  | IsMode => ComparisonNotTopLevel op
  end.

Definition firstRejected (m : Mode) (flag : bool) (ops : list Operator)
  : result bool :=
  match ops with
  | [] => OK flag
  | op :: _ => Throw (rejection m op)
  end.

(** ** The error taxonomy of the specification

    The specification sorts the errors of the core into four kinds; errors
    raised by the JavaScript engine or inside the backend, and the fuel
    error of this embedding, are outside it. *)

Inductive ErrorKind : Type :=
| LexicalError | SyntaxError | ModeError | TypeError | Unclassified.

Definition errorKind (e : Error) : ErrorKind :=
  match e with
  | UnexpectedCharacter _ => LexicalError
  | ExpectedLParenAfterFunction _ | ExpectedCommaOrRParen
  | UnknownFunction _ | ClampRequires3Arguments | RequiresOneArgument _
  | ExpectedClosingParen | UnexpectedToken _
  | UnexpectedTokensAfterExpression => SyntaxError
  | ComparisonInMath _ | ComparisonNotTopLevel _ | ChainedComparison
  | IsRequiresComparison => ModeError
  | UnaryOperandNotDecimal | BinaryOperandsNotDecimal
  | SumRequiresArray => TypeError
  | UnknownNodeType | JSTypeError _ | BackendError _ | OutOfFuel =>
    Unclassified
  end.

(** ** States of the caches

    [reachable fragments c]: [c] is the state of the caches returned by
    [create] after some sequence of calls of [math] and [is]. *)

Section Reachable.
Context {Number D : Type} `{Decimal : DecimalConstructor Number D}.
Variable fragments : TemplateId → list string.

Inductive reachable : Caches → Prop :=
| reachable_create : reachable create
| reachable_entry (m : Mode) (c : Caches) (template : TemplateId)
    (values : list (JSValue Number D)) :
    reachable c → reachable (entry fragments m c template values).2.

(** Every cached AST is the parse of the template it is stored under. *)
Definition cacheConsistent (c : Caches) : Prop :=
  ∀ m template ast,
    cacheOf m c !! template = Some ast →
    parseTemplate m (fragments template) = OK ast.

End Reachable.

(** ** Comparisons in an AST *)

Fixpoint comparisonFree (node : ASTNode) : bool :=
  match node with
  | value _ | number _ => true
  | unary _ operand => comparisonFree operand
  | binary op l r =>
    negb (COMPARISON_OPS op) && comparisonFree l && comparisonFree r
  | function _ args => forallb comparisonFree args
  end.

(** A comparison of two comparison-free operands. *)
Definition isComparison (node : ASTNode) : bool :=
  match node with
  | binary op l r => COMPARISON_OPS op && comparisonFree l && comparisonFree r
  | _ => false
  end.

(** What a successful [parseExpression] has done about comparisons: none
    met, or, in [is] at the top level and from a threshold of at most 1,
    exactly one, which set the flag and is the root of the result. *)
Definition outcome (minPrec : nat) (top : bool) (p p' : ASTParser)
  (a : ASTNode) : Prop :=
  (comparisonFree a = true ∧
   hasTopLevelComparison p' = hasTopLevelComparison p) ∨
  (mode p = IsMode ∧ top = true ∧ minPrec ≤ 1 ∧
   hasTopLevelComparison p = false ∧ hasTopLevelComparison p' = true ∧
   isComparison a = true).

(** The tokens the inner loop of the tokenizer can push: all but [VALUE]
    and [EOF]. *)
Definition lexical (t : Token) : Prop :=
  match t with
  | VALUE _ | EOF => False
  | _ => True
  end.

(** The tokens from [p] up to [p']. *)
Definition consumed (p p' : ASTParser) : list Token :=
  take (pos p' - pos p) (view p).

(** [p'] is further along the tokens of [p], with no comparison operator
    from the one to the other. *)
Definition comparisonFreeStretch (p p' : ASTParser) : Prop :=
  tokens p' = tokens p ∧ mode p' = mode p ∧ pos p ≤ pos p' ∧
  comparisonsIn (consumed p p') = [].

(** ** Sample inputs *)
Module Samples.
Import QBackend.

(** [2+3*4], and the program whose template 1 spells it and whose other
    templates spell it with every operation parenthesized. *)
Definition sumOfProduct : Expr :=
  EBinary OpAdd (ENumber "2") (EBinary OpMul (ENumber "3") (ENumber "4")).

Definition sumOfProductTemplates : TemplateId → list string :=
  λ template, if decide (template = 1%positive)
              then ["2+3*4"] else ["(2+(3*4))"].

(** [${a} < ${b}], [${a} + ${b}], [${a} < ${b} < ${c}] and
    [(${a} < ${b}) == ${c}]. *)
Definition oneComparison : Expr := EBinary OpLt (EValue 0) (EValue 1).
Definition noComparison : Expr := EBinary OpAdd (EValue 0) (EValue 1).
Definition chained : Expr :=
  EBinary OpLt (EBinary OpLt (EValue 0) (EValue 1)) (EValue 2).
Definition nested : Expr :=
  EBinary OpEq (EParen (EBinary OpLt (EValue 0) (EValue 1))) (EValue 2).

(** [abs(${a} >= ${b})] *)
Definition comparisonInArgument : Expr :=
  ECall "abs" [EBinary OpGe (EValue 0) (EValue 1)].

End Samples.

(** ** Further definitions: shapes of tokens, values and trees *)

(** The indices of the [VALUE] tokens of a stream, in order. *)
Definition valueIndices (toks : list Token) : list nat :=
  omap (λ t, match t with VALUE i => Some i | _ => None end) toks.

(** The characters the tokenizer accepts wherever they stand: blanks,
    parentheses, the comma, the one-character operators, digits and
    lower-case letters.  ([=], [!] and [.] are accepted in some places
    only.) *)
Definition isSimpleChar (char : ascii) : bool :=
  isWhitespace char ||
  (char =? "(")%char || (char =? ")")%char || (char =? ",")%char ||
  (char =? "<")%char || (char =? ">")%char ||
  (char =? "+")%char || (char =? "-")%char ||
  (char =? "*")%char || (char =? "/")%char ||
  isDigit char || isLower char.

(** [rest] does not continue a name. *)
Definition endsName (rest : string) : bool :=
  match peek rest with
  | Some c => negb (isLower c)
  | None => true
  end.

(** *** Writing tokens back as text *)

Definition renderOperator (op : Operator) : string :=
  match op with
  | OpLt => "<" | OpLe => "<=" | OpEq => "==" | OpGt => ">" | OpGe => ">="
  | OpNe => "!=" | OpAdd => "+" | OpSub => "-" | OpMul => "*" | OpDiv => "/"
  | OpPow => "**"
  end.

Definition renderToken (t : Token) : string :=
  match t with
  | NUMBER text => text
  | OPERATOR op => renderOperator op
  | FUNCTION name => name
  | LPAREN => "("
  | RPAREN => ")"
  | COMMA => ","
  | VALUE _ | EOF => ""
  end.

(** A token with a spelling: a number that is a digit followed by digits
    and points, a name that is a run of lower-case letters, an operator, a
    parenthesis or a comma. *)
Definition printable (t : Token) : bool :=
  match t with
  | NUMBER (String c run) => isDigit c && allChars isNumberChar run
  | FUNCTION (String c run) => isLower c && allChars isLower run
  | OPERATOR _ | LPAREN | RPAREN | COMMA => true
  | _ => false
  end.

(** The fragments of a template that spells [toks]: each printable token
    followed by a blank, and a new fragment at each [VALUE] token. *)
Fixpoint renderTemplate (toks : list Token) : list string :=
  match toks with
  | [] => [""]
  | VALUE _ :: toks => "" :: renderTemplate toks
  | t :: toks =>
    match renderTemplate toks with
    | fragment :: more => (renderToken t +:+ " " +:+ fragment) :: more
    | [] => []
    end
  end.

(** [toks] with its [VALUE] tokens numbered from [k] on. *)
Fixpoint renumber (k : nat) (toks : list Token) : list Token :=
  match toks with
  | [] => []
  | VALUE _ :: toks => VALUE k :: renumber (S k) toks
  | t :: toks => t :: renumber k toks
  end.

Definition printableOrValue (t : Token) : bool :=
  match t with
  | VALUE _ => true
  | _ => printable t
  end.

(** *** Trees the parser can build *)

(** Unary nodes carry [+] or [-]; function nodes carry one of the six names
    with its number of arguments. *)
Fixpoint validAST (node : ASTNode) : bool :=
  match node with
  | value _ | number _ => true
  | unary op operand =>
    match op with OpAdd | OpSub => true | _ => false end && validAST operand
  | binary _ l r => validAST l && validAST r
  | function name args =>
    includes validFunctions name && (length args =? arity name) &&
    forallb validAST args
  end.

(** *** Errors of an evaluation *)

(** The three assertions of [interpret]. *)
Definition isAssertion (e : Error) : bool :=
  match e with
  | UnaryOperandNotDecimal | BinaryOperandsNotDecimal | SumRequiresArray => true
  | _ => false
  end.

Definition isEngineError (e : Error) : bool :=
  match e with
  | JSTypeError _ => true
  | _ => false
  end.

Definition isBackendError (e : Error) : bool :=
  match e with
  | BackendError _ => true
  | _ => false
  end.

(** A backend whose constructor, [clamp] and [sum] throw errors of their
    own only. *)
Definition throwsOwnErrors {Number D : Type}
  (Decimal : DecimalConstructor Number D) : Prop :=
  (∀ v e, newDecimal v = Throw e → isBackendError e = true) ∧
  (∀ d lo hi e, clamp d lo hi = Throw e → isBackendError e = true) ∧
  (∀ vs e, sum vs = Throw e → isBackendError e = true).

(** A preprocessed value: a backend instance or an array. *)
Definition isProcessed {Number D : Type} (v : JSValue Number D) : bool :=
  match v with
  | JDecimal _ | JArray _ => true
  | _ => false
  end.

(** The last token is [EOF]. *)
Definition endsWithEOF (toks : list Token) : Prop := last toks = Some EOF.

(** *** Parser invariants *)

(** The errors the parsing functions raise on their own account. *)
Definition parseError (e : Error) : Prop :=
  errorKind e = SyntaxError ∨ errorKind e = ModeError ∨ e = OutOfFuel.

(** A parsing step keeps the token list and leaves the position on a
    token, or fails with an error of the parser. *)
Definition inBounds {A} (p : ASTParser) (r : result (A * ASTParser)) : Prop :=
  match r with
  | OK (_, p') => tokens p' = tokens p ∧ pos p' < length (tokens p)
  | Throw e => parseError e
  end.

(** *** Errors of the interpreter *)

(** The engine's error for calling a method that a value does not have. *)
Definition isNotAFunction (e : Error) : bool :=
  match e with
  | JSTypeError message =>
    existsb
      (λ method,
         (message =? "args[0]." +:+ method +:+ " is not a function")%string)
      ["abs"; "ceil"; "floor"; "round"; "clamp"]
  | _ => false
  end.

(** A value that is not [undefined]: what [interpret] returns on a tree
    whose indices are in range. *)
Definition isResult {Number D : Type} (v : JSValue Number D) : bool :=
  match v with
  | JDecimal _ | JArray _ | JBoolean _ => true
  | _ => false
  end.

(** An error of the backend, one of the three assertions, or the engine's
    error for a method call on an array or a boolean. *)
Definition runtimeError (e : Error) : Prop :=
  isBackendError e = true ∨ isAssertion e = true ∨ isNotAFunction e = true.

(** *** From trees back to expressions *)

(** An expression that denotes [node], with every operand of an operator in
    parentheses. *)
Fixpoint exprOf (node : ASTNode) : Expr :=
  match node with
  | value index => EValue index
  | number text => ENumber text
  | unary op operand => EUnary op (EParen (exprOf operand))
  | binary op l r => EBinary op (EParen (exprOf l)) (EParen (exprOf r))
  | function name args => ECall name (List.map exprOf args)
  end.

(** What a mode asks of a tree: no comparison in [math], one comparison, at
    the root, in [is]. *)
Definition modeAdmits (m : Mode) (node : ASTNode) : bool :=
  match m with
  | MathMode => comparisonFree node
  | IsMode => isComparison node
  end.

(** *** The slots a tree reads *)

(** The indices of the value nodes of a tree, from left to right. *)
Fixpoint indicesOf (node : ASTNode) : list nat :=
  match node with
  | value index => [index]
  | number _ => []
  | unary _ operand => indicesOf operand
  | binary _ l r => indicesOf l ++ indicesOf r
  | function _ args =>
    (fix each (nodes : list ASTNode) : list nat :=
       match nodes with
       | [] => []
       | a :: nodes => indicesOf a ++ each nodes
       end) args
  end.

(** The parser went from [p] to [p'] on the same tokens, and the [VALUE]
    tokens it passed carry the indices [indices]. *)
Definition reads (p p' : ASTParser) (indices : list nat) : Prop :=
  tokens p' = tokens p ∧ pos p ≤ pos p' ∧
  valueIndices (consumed p p') = indices.

(** *** Values that are arrays *)

Definition isArray {Number D : Type} (v : JSValue Number D) : bool :=
  match v with
  | JArray _ => true
  | _ => false
  end.

Definition isInstance {Number D : Type} (v : JSValue Number D) : bool :=
  match v with
  | JDecimal _ => true
  | _ => false
  end.

(** The errors left when no array is around. *)
Definition plainError (e : Error) : Prop :=
  isBackendError e = true ∨ e = SumRequiresArray.

(** * Tokenizer *)

Section Tokenizer.

#[local] Arguments String.append !_ _ / : simpl nomatch.

Lemma append_empty_r (s : string) : s +:+ "" = s.
Proof. induction s as [|c s IH]; simpl; [done|by rewrite IH]. Qed.

Lemma append_assoc (s t u : string) : (s +:+ t) +:+ u = s +:+ (t +:+ u).
Proof. induction s as [|c s IH]; simpl; [done|by rewrite IH]. Qed.

Lemma scanNumber_app (run rest acc : string) :
  allChars isNumberChar run = true →
  endsNumber rest = true →
  scanNumber acc (run +:+ rest) = (acc +:+ run, rest).
Proof.
  revert acc. induction run as [|c run IH]; intros acc Hrun Hrest; simpl in *.
  - rewrite append_empty_r.
    destruct rest as [|d rest]; simpl; first done.
    unfold endsNumber in Hrest. simpl in Hrest.
    apply negb_true_iff in Hrest. by rewrite Hrest.
  - apply andb_true_iff in Hrun as [Hc Hrun]. rewrite Hc.
    rewrite IH by done. by rewrite append_assoc.
Qed.

(** A digit takes none of the earlier branches of the tokenizer. *)
Lemma lexFragment_digit (c : ascii) (rest : string) :
  isDigit c = true →
  lexFragment (String c rest) =
  let '(num, r) := scanNumber (String c "") rest in
  push (NUMBER num) (lexFragment r).
Proof.
  intros Hc.
  assert (Hfix : ∀ num r,
    (fix scan (num r : string) {struct r} : result (list Token) :=
       match r with
       | String d r' =>
         if isDigit d || (d =? ".")%char
         then scan (num +:+ String d "") r'
         else push (NUMBER num) (lexFragment r)
       | EmptyString => OK [NUMBER num]
       end) num r =
    let '(num, r) := scanNumber num r in push (NUMBER num) (lexFragment r)).
  { intros num r. revert num. induction r as [|d r IH]; intros num; simpl.
    - done.
    - unfold isNumberChar. destruct (isDigit d || (d =? ".")%char); auto. }
  rewrite <- Hfix.
  destruct c as [[] [] [] [] [] [] [] []]; try discriminate Hc; reflexivity.
Qed.

Lemma lexFragment_step (c : ascii) (rest : string) :
  lexFragment (String c rest) =
  '(t, r) ← lexOne c rest; pushOption t (lexFragment r).
Proof.
  assert (Hnum : ∀ num r,
    (fix scan (num r : string) {struct r} : result (list Token) :=
       match r with
       | String d r' =>
         if isDigit d || (d =? ".")%char
         then scan (num +:+ String d "") r'
         else push (NUMBER num) (lexFragment r)
       | EmptyString => OK [NUMBER num]
       end) num r =
    let '(num, r) := scanNumber num r in push (NUMBER num) (lexFragment r)).
  { intros num r. revert num. induction r as [|d r IH]; intros num.
    - done.
    - cbn [scanNumber]. unfold isNumberChar.
      destruct (isDigit d || (d =? ".")%char); [apply IH|done]. }
  assert (Hname : ∀ name r,
    (fix scan (name r : string) {struct r} : result (list Token) :=
       match r with
       | String d r' =>
         if isLower d
         then scan (name +:+ String d "") r'
         else push (FUNCTION name) (lexFragment r)
       | EmptyString => OK [FUNCTION name]
       end) name r =
    let '(name, r) := scanName name r in push (FUNCTION name) (lexFragment r)).
  { intros name r. revert name. induction r as [|d r IH]; intros name.
    - done.
    - cbn [scanName]. destruct (isLower d); [apply IH|done]. }
  unfold lexOne. cbn [lexFragment]. rewrite Hnum, Hname.
  repeat match goal with
  | |- context [if ?b then _ else _] =>
    destruct b eqn:?;
    [ solve [ done
            | destruct rest as [|d rest];
              [ unfold nextIs in *; cbn [peek] in *;
                rewrite andb_false_r in *; discriminate
              | done ]
            | destruct (scanNumber _ _); done
            | destruct (scanName _ _); done ] | ]
  end.
  done.
Qed.

Lemma scanNumber_length (num r num' r' : string) :
  scanNumber num r = (num', r') → (String.length r' ≤ String.length r)%nat.
Proof.
  revert num. induction r as [|d r IH]; intros num Hs; cbn [scanNumber] in Hs.
  - by inversion Hs.
  - destruct (isNumberChar d).
    + apply IH in Hs. simpl. lia.
    + by inversion Hs.
Qed.

Lemma scanName_length (name r name' r' : string) :
  scanName name r = (name', r') → (String.length r' ≤ String.length r)%nat.
Proof.
  revert name. induction r as [|d r IH]; intros name Hs; cbn [scanName] in Hs.
  - by inversion Hs.
  - destruct (isLower d).
    + apply IH in Hs. simpl. lia.
    + by inversion Hs.
Qed.

Lemma stringTail_length (s : string) :
  (String.length (stringTail s) ≤ String.length s)%nat.
Proof. destruct s; simpl; lia. Qed.

(** An iteration of the tokenizer loop never lengthens what is left, and
    pushes neither a [VALUE] nor an [EOF] token. *)
Lemma lexOne_spec (c : ascii) (rest : string) (t : option Token) (r : string) :
  lexOne c rest = OK (t, r) →
  (String.length r ≤ String.length rest)%nat ∧
  from_option lexical True t.
Proof.
  unfold lexOne. intros Hone.
  repeat match type of Hone with
  | (if ?b then _ else _) = _ => destruct b
  end;
  try discriminate;
  try (inversion Hone; subst; split; [auto using stringTail_length|done]).
  - destruct (scanNumber _ _) as [num r0] eqn:Hs. inversion Hone; subst.
    split; [by eapply scanNumber_length|done].
  - destruct (scanName _ _) as [name r0] eqn:Hs. inversion Hone; subst.
    split; [by eapply scanName_length|done].
Qed.

Lemma lexFragment_lexical (s : string) (toks : list Token) :
  lexFragment s = OK toks → Forall lexical toks.
Proof.
  remember (String.length s) as k eqn:Hk.
  revert s toks Hk. induction k as [k IH] using lt_wf_ind.
  intros [|c rest] toks Hk Hlex.
  - inversion Hlex. constructor.
  - rewrite lexFragment_step in Hlex.
    destruct (lexOne c rest) as [[t r]|e] eqn:Hone; [|discriminate].
    apply lexOne_spec in Hone as [Hlen Ht]. simpl in Hk, Hlex.
    destruct (lexFragment r) as [toks'|e] eqn:Hr.
    + assert (Forall lexical toks') as Hall.
      { eapply (IH (String.length r)); [lia|done|done]. }
      destruct t as [t|]; simpl in Hlex; inversion Hlex; subst; [|done].
      by constructor.
    + destruct t; discriminate.
Qed.

Lemma lexFragment_noValue (n : nat) (s : string) (toks : list Token) :
  lexFragment s = OK toks → Forall (isValueBelow n) toks.
Proof.
  intros Hlex. eapply Forall_impl; [by eapply lexFragment_lexical|].
  by intros [].
Qed.

Lemma tokenizeLoop_values (i len : nat) (fragments : list string)
  (toks : list Token) :
  tokenizeLoop i len fragments = OK toks →
  Forall (isValueBelow (len - 1)) toks.
Proof.
  revert i toks. induction fragments as [|str more IH]; intros i toks Htok.
  - inversion Htok. repeat constructor.
  - cbn [tokenizeLoop] in Htok.
    destruct (lexFragment str) as [ts|e] eqn:Hlex; [|discriminate].
    destruct (tokenizeLoop (S i) len more) as [later|e] eqn:Hlater;
      [|discriminate].
    inversion Htok; subst.
    apply Forall_app. split; [by eapply lexFragment_noValue|].
    apply Forall_app. split; [|by eapply IH].
    destruct (i + 1 <? len)%nat eqn:Hi; [|constructor].
    apply Nat.ltb_lt in Hi. repeat constructor. simpl. lia.
Qed.

Lemma tokenizeLoop_EOF (i len : nat) (fragments : list string)
  (toks : list Token) :
  tokenizeLoop i len fragments = OK toks →
  ∃ body, toks = body ++ [EOF] ∧ Forall (λ t, t ≠ EOF) body.
Proof.
  revert i toks. induction fragments as [|str more IH]; intros i toks Htok.
  - inversion Htok. exists []. by split.
  - cbn [tokenizeLoop] in Htok.
    destruct (lexFragment str) as [ts|e] eqn:Hlex; [|discriminate].
    destruct (tokenizeLoop (S i) len more) as [later|e] eqn:Hlater;
      [|discriminate].
    inversion Htok; subst.
    apply IH in Hlater as (body & -> & Hbody).
    exists (ts ++ (if (i + 1 <? len)%nat then [VALUE i] else []) ++ body).
    split; [by rewrite <- !app_assoc|].
    apply Forall_app. split.
    + eapply Forall_impl; [by eapply lexFragment_lexical|]. by intros [].
    + apply Forall_app. split; [|done].
      destruct (i + 1 <? len)%nat; by repeat constructor.
Qed.

End Tokenizer.

(** * Parser: unfolding equations and inversion of the result monad *)

Lemma bind_OK {A B} (m : result A) (f : A → result B) (b : B) :
  m ≫= f = OK b ↔ ∃ a, m = OK a ∧ f a = OK b.
Proof.
  unfold mbind, result_bind. destruct m as [a|e]; simpl; split.
  - eauto.
  - intros (a' & Ha & Hf). by inversion Ha; subst.
  - done.
  - intros (a' & Ha & Hf). discriminate.
Qed.

Lemma bind_Throw {A B} (m : result A) (f : A → result B) (e : Error) :
  m ≫= f = Throw e ↔ m = Throw e ∨ ∃ a, m = OK a ∧ f a = Throw e.
Proof.
  unfold mbind, result_bind. destruct m as [a|e']; simpl; split.
  - eauto.
  - intros [Hm|(a' & Ha & Hf)]; [discriminate|]. by inversion Ha; subst.
  - intros [= ->]. by left.
  - intros [Hm|(a' & Ha & Hf)]; [by inversion Hm|discriminate].
Qed.

Lemma parsePrimary_0 p : parsePrimary 0 p = Throw OutOfFuel.
Proof. reflexivity. Qed.
Lemma parseArguments_0 args p : parseArguments 0 args p = Throw OutOfFuel.
Proof. reflexivity. Qed.
Lemma parseExpression_0 minPrec top p :
  parseExpression 0 minPrec top p = Throw OutOfFuel.
Proof. reflexivity. Qed.
Lemma parseExpressionLoop_0 minPrec top l p :
  parseExpressionLoop 0 minPrec top l p = Throw OutOfFuel.
Proof. reflexivity. Qed.

Lemma parsePrimary_S (fuel : nat) (p : ASTParser) :
  parsePrimary (S fuel) p =
  match current p with
  | None => undefinedToken
  | Some (VALUE index) => OK (value index, advance p)
  | Some (NUMBER v) => OK (number v, advance p)
  | Some (FUNCTION funcName) =>
    match current (advance p) with
    | None => undefinedToken
    | Some LPAREN =>
      '(args, p) ← parseArguments fuel [] (advance (advance p));
      node ← validateCall funcName args;
      OK (node, advance p)
    | Some _ => Throw (ExpectedLParenAfterFunction funcName)
    end
  | Some (OPERATOR op) =>
    match op with
    | OpAdd | OpSub =>
      '(operand, p) ← parsePrimary fuel (advance p);
      OK (unary op operand, p)
    | _ => Throw (UnexpectedToken TyOPERATOR)
    end
  | Some LPAREN =>
    '(expr, p) ← parseExpression fuel 0 false (advance p);
    match current p with
    | None => undefinedToken
    | Some RPAREN => OK (expr, advance p)
    | Some _ => Throw ExpectedClosingParen
    end
  | Some token => Throw (UnexpectedToken (token_type token))
  end.
Proof. reflexivity. Qed.

Lemma parseArguments_S (fuel : nat) (args : list ASTNode) (p : ASTParser) :
  parseArguments (S fuel) args p =
  match current p with
  | None => undefinedToken
  | Some RPAREN => OK (args, p)
  | Some _ =>
    '(a, p) ← parseExpression fuel 0 false p;
    match current p with
    | None => undefinedToken
    | Some COMMA => parseArguments fuel (args ++ [a]) (advance p)
    | Some RPAREN => parseArguments fuel (args ++ [a]) p
    | Some _ => Throw ExpectedCommaOrRParen
    end
  end.
Proof. reflexivity. Qed.

Lemma parseExpression_S (fuel minPrec : nat) (top : bool) (p : ASTParser) :
  parseExpression (S fuel) minPrec top p =
  '(l, p) ← parsePrimary fuel p;
  parseExpressionLoop fuel minPrec top l p.
Proof. reflexivity. Qed.

Lemma parseExpressionLoop_S (fuel minPrec : nat) (top : bool)
  (l : ASTNode) (p : ASTParser) :
  parseExpressionLoop (S fuel) minPrec top l p =
  match current p with
  | None => undefinedToken
  | Some (OPERATOR op) =>
    if (PRECEDENCE op <? minPrec)%nat then OK (l, p)
    else
      p ← checkComparison op top p;
      '(r, p) ← parseExpression fuel (nextMinPrec op) top (advance p);
      parseExpressionLoop fuel minPrec top (binary op l r) p
  | Some _ => OK (l, p)
  end.
Proof. reflexivity. Qed.

#[global] Opaque parsePrimary parseArguments parseExpression
  parseExpressionLoop.

(** * What every successful parse preserves *)

Ltac inv_result H :=
  first
    [ discriminate H
    | lazymatch type of H with
      | OK _ = OK _ => inversion H; subst; clear H
      | (_ ≫= _) = OK _ =>
        let x := fresh "x" in
        let Hx := fresh "Hx" in
        apply bind_OK in H as (x & Hx & H);
        try (destruct x as [? ?]); cbv beta iota in H;
        inv_result H
      | match ?x with _ => _ end = _ => destruct x eqn:?; inv_result H
      | (if ?b then _ else _) = _ => destruct b eqn:?; inv_result H
      | _ => idtac
      end ].

Definition bounded (n : nat) (p : ASTParser) : Prop :=
  Forall (isValueBelow n) (tokens p).

(** The parser only moves forward on one token stream, in one mode. *)
Definition sameStream (p p' : ASTParser) : Prop :=
  tokens p' = tokens p ∧ mode p' = mode p ∧ pos p ≤ pos p'.

Lemma sameStream_refl p : sameStream p p.
Proof. by repeat split. Qed.

Lemma sameStream_trans p q r : sameStream p q → sameStream q r → sameStream p r.
Proof.
  intros (? & ? & ?) (? & ? & ?). repeat split; [congruence..|lia].
Qed.

Lemma sameStream_advance p : sameStream p (advance p).
Proof. repeat split. simpl. lia. Qed.

Lemma sameStream_bounded n p p' : sameStream p p' → bounded n p → bounded n p'.
Proof. intros (Ht & _) Hb. unfold bounded. by rewrite Ht. Qed.

Lemma indicesBelow_function (n : nat) (name : string) (args : list ASTNode) :
  indicesBelow n (function name args) ↔ Forall (indicesBelow n) args.
Proof.
  cbn [indicesBelow]. induction args as [|a args IH].
  - split; [constructor|done].
  - rewrite Forall_cons. by rewrite IH.
Qed.

Lemma validateCall_OK (funcName : string) (args : list ASTNode) (node : ASTNode) :
  validateCall funcName args = OK node → node = function funcName args.
Proof. unfold validateCall. intros H. by inv_result H. Qed.

Lemma checkComparison_sameStream op top p p' :
  checkComparison op top p = OK p' → sameStream p p' ∧ pos p' = pos p.
Proof.
  unfold checkComparison. intros H. inv_result H; by repeat split.
Qed.

Lemma bounded_current n p i :
  bounded n p → current p = Some (VALUE i) → i < n.
Proof.
  unfold bounded, current. intros Hb Hc.
  by apply (Forall_lookup_1 _ _ _ _ Hb Hc).
Qed.

Create HintDb parser.
#[local] Hint Resolve sameStream_refl sameStream_advance : parser.

Lemma parse_preserves (n fuel : nat) :
  (∀ p a p', parsePrimary fuel p = OK (a, p') →
     sameStream p p' ∧ (bounded n p → indicesBelow n a)) ∧
  (∀ args p l p', parseArguments fuel args p = OK (l, p') →
     sameStream p p' ∧
     (bounded n p → Forall (indicesBelow n) args → Forall (indicesBelow n) l)) ∧
  (∀ minPrec top p a p', parseExpression fuel minPrec top p = OK (a, p') →
     sameStream p p' ∧ (bounded n p → indicesBelow n a)) ∧
  (∀ minPrec top l p a p',
     parseExpressionLoop fuel minPrec top l p = OK (a, p') →
     sameStream p p' ∧ (bounded n p → indicesBelow n l → indicesBelow n a)).
Proof.
  induction fuel as [|fuel (IHprim & IHargs & IHexpr & IHloop)].
  { repeat split; intros; discriminate. }
  split; [|split; [|split]].
  - intros p a p' H. rewrite parsePrimary_S in H. inv_result H.
    + split; [auto with parser|]. intros Hb. by eapply bounded_current.
    + split; [auto with parser|done].
    + apply IHprim in Hx as [Hs Hi].
      split; [eauto using sameStream_trans, sameStream_advance|done].
    + apply IHprim in Hx as [Hs Hi].
      split; [eauto using sameStream_trans, sameStream_advance|done].
    + apply IHargs in Hx as [Hs Hi]. apply validateCall_OK in Hx0 as ->.
      split.
      * eauto 6 using sameStream_trans, sameStream_advance.
      * intros Hb. apply indicesBelow_function, Hi; [|constructor].
        eauto using sameStream_bounded, sameStream_advance.
    + apply IHexpr in Hx as [Hs Hi].
      split; [eauto using sameStream_trans, sameStream_advance|].
      eauto using sameStream_bounded, sameStream_advance.
  - intros args p l p' H. rewrite parseArguments_S in H.
    destruct (current p) as [t|] eqn:Hcur; [|discriminate].
    assert (t = RPAREN ∨
            ('(a, p) ← parseExpression fuel 0 false p;
             match current p with
             | None => undefinedToken
             | Some COMMA => parseArguments fuel (args ++ [a]) (advance p)
             | Some RPAREN => parseArguments fuel (args ++ [a]) p
             | Some _ => Throw ExpectedCommaOrRParen
             end) = OK (l, p')) as [->|H'].
    { destruct t; auto. }
    { inversion H; subst. split; [auto with parser|done]. }
    clear H. inv_result H'.
    + apply IHexpr in Hx as [Hs Hi]. apply IHargs in H' as [Hs' Hi'].
      split; [eauto using sameStream_trans|].
      intros Hb Hargs. apply Hi'; [eauto using sameStream_bounded|].
      apply Forall_app; split; [done|]. constructor; [auto|constructor].
    + apply IHexpr in Hx as [Hs Hi]. apply IHargs in H' as [Hs' Hi'].
      split; [eauto using sameStream_trans, sameStream_advance|].
      intros Hb Hargs.
      apply Hi'; [eauto using sameStream_bounded, sameStream_advance|].
      apply Forall_app; split; [done|]. constructor; [auto|constructor].
  - intros minPrec top p a p' H. rewrite parseExpression_S in H.
    inv_result H. apply IHprim in Hx as [Hs Hi]. apply IHloop in H as [Hs' Hi'].
    split; [eauto using sameStream_trans|].
    eauto using sameStream_bounded.
  - intros minPrec top l p a p' H. rewrite parseExpressionLoop_S in H.
    destruct (current p) as [t|] eqn:Hcur; [|discriminate].
    destruct t; try (inversion H; subst; split; [auto with parser|done]).
    inv_result H; [split; [auto with parser|done]|].
    apply checkComparison_sameStream in Hx as [Hs0 _].
    apply IHexpr in Hx0 as [Hs Hi]. apply IHloop in H as [Hs' Hi'].
    split; [eauto 6 using sameStream_trans, sameStream_advance|].
    intros Hb Hl. apply Hi'.
    + eauto 6 using sameStream_bounded, sameStream_trans, sameStream_advance.
    + split; [done|].
      eauto 6 using sameStream_bounded, sameStream_trans, sameStream_advance.
Qed.

(** * The fuel of the entry points is enough *)

Lemma current_lt (p : ASTParser) (t : Token) :
  current p = Some t → pos p < length (tokens p).
Proof. unfold current. apply lookup_lt_Some. Qed.

Lemma parse_tokens (fuel : nat) :
  (∀ p a p', parsePrimary fuel p = OK (a, p') → tokens p' = tokens p) ∧
  (∀ args p l p', parseArguments fuel args p = OK (l, p') →
     tokens p' = tokens p) ∧
  (∀ minPrec top p a p', parseExpression fuel minPrec top p = OK (a, p') →
     tokens p' = tokens p) ∧
  (∀ minPrec top l p a p',
     parseExpressionLoop fuel minPrec top l p = OK (a, p') →
     tokens p' = tokens p).
Proof.
  destruct (parse_preserves 0 fuel) as (Hp & Ha & He & Hl).
  split_and!; intros.
  - by eapply Hp.
  - by eapply Ha.
  - by eapply He.
  - by eapply Hl.
Qed.

Ltac lengths :=
  repeat match goal with
  | H : tokens _ = tokens _ |- _ => apply (f_equal length) in H
  end;
  simpl in *; lia.

(** A successful parse consumes tokens, and never steps past the end. *)
Lemma parse_progress (fuel : nat) :
  (∀ p a p', parsePrimary fuel p = OK (a, p') →
     pos p < pos p' ≤ length (tokens p)) ∧
  (∀ args p l p', parseArguments fuel args p = OK (l, p') →
     pos p ≤ pos p' < length (tokens p)) ∧
  (∀ minPrec top p a p', parseExpression fuel minPrec top p = OK (a, p') →
     pos p < pos p' < length (tokens p)) ∧
  (∀ minPrec top l p a p',
     parseExpressionLoop fuel minPrec top l p = OK (a, p') →
     pos p ≤ pos p' < length (tokens p)).
Proof.
  induction fuel as [|fuel (IHprim & IHargs & IHexpr & IHloop)].
  { repeat split; intros; discriminate. }
  destruct (parse_tokens fuel) as (Tprim & Targs & Texpr & Tloop).
  split_and!.
  - intros p a p' H. rewrite parsePrimary_S in H.
    destruct (current p) as [t|] eqn:Hcur; [|discriminate].
    apply current_lt in Hcur. inv_result H; simpl in *.
    + lia.
    + lia.
    + pose proof (Tprim _ _ _ Hx) as Ht. apply IHprim in Hx.
      lengths.
    + pose proof (Tprim _ _ _ Hx) as Ht. apply IHprim in Hx.
      lengths.
    + pose proof (Targs _ _ _ _ Hx) as Ht. apply IHargs in Hx.
      lengths.
    + pose proof (Texpr _ _ _ _ _ Hx) as Ht. apply IHexpr in Hx.
      lengths.
  - intros args p l p' H. rewrite parseArguments_S in H.
    destruct (current p) as [t|] eqn:Hcur; [|discriminate].
    apply current_lt in Hcur.
    assert (t = RPAREN ∨
            ('(a, p) ← parseExpression fuel 0 false p;
             match current p with
             | None => undefinedToken
             | Some COMMA => parseArguments fuel (args ++ [a]) (advance p)
             | Some RPAREN => parseArguments fuel (args ++ [a]) p
             | Some _ => Throw ExpectedCommaOrRParen
             end) = OK (l, p')) as [->|H'].
    { destruct t; auto. }
    { inversion H; subst. lia. }
    clear H. inv_result H'.
    + pose proof (Texpr _ _ _ _ _ Hx) as Ht. apply IHexpr in Hx.
      pose proof (Targs _ _ _ _ H') as Ht'. apply IHargs in H'.
      lengths.
    + pose proof (Texpr _ _ _ _ _ Hx) as Ht. apply IHexpr in Hx.
      pose proof (Targs _ _ _ _ H') as Ht'. apply IHargs in H'.
      lengths.
  - intros minPrec top p a p' H. rewrite parseExpression_S in H.
    inv_result H.
    pose proof (Tprim _ _ _ Hx) as Ht. apply IHprim in Hx.
    pose proof (Tloop _ _ _ _ _ _ H) as Ht'. apply IHloop in H.
    lengths.
  - intros minPrec top l p a p' H. rewrite parseExpressionLoop_S in H.
    destruct (current p) as [t|] eqn:Hcur; [|discriminate].
    apply current_lt in Hcur.
    destruct t; try (inversion H; subst; lia).
    inv_result H; [lia|].
    apply checkComparison_sameStream in Hx as [(Ht0 & _ & _) Hpos].
    pose proof (Texpr _ _ _ _ _ Hx0) as Ht. apply IHexpr in Hx0.
    pose proof (Tloop _ _ _ _ _ _ H) as Ht'. apply IHloop in H.
    lengths.
Qed.

Lemma bind_no_fuel {A B} (m : result A) (f : A → result B) :
  m ≠ Throw OutOfFuel →
  (∀ a, m = OK a → f a ≠ Throw OutOfFuel) →
  m ≫= f ≠ Throw OutOfFuel.
Proof.
  intros Hm Hf. destruct m as [a|err]; cbn [mbind result_bind].
  - by apply Hf.
  - intros [= ->]. done.
Qed.

Lemma current_remaining (p : ASTParser) (t : Token) :
  current p = Some t → 1 ≤ remaining p ∧ remaining (advance p) = remaining p - 1.
Proof.
  intros Hcur. apply current_lt in Hcur. unfold remaining. simpl. lia.
Qed.

Lemma current_none (p : ASTParser) : remaining p = 0 → current p = None.
Proof.
  unfold remaining, current. intros H. apply lookup_ge_None. lia.
Qed.

Lemma validateCall_no_fuel (name : string) (args : list ASTNode) :
  validateCall name args ≠ Throw OutOfFuel.
Proof.
  unfold validateCall.
  repeat match goal with
  | |- (if ?b then _ else _) ≠ _ => destruct b
  end; done.
Qed.

Lemma checkComparison_no_fuel op top p :
  checkComparison op top p ≠ Throw OutOfFuel.
Proof.
  unfold checkComparison.
  destruct (COMPARISON_OPS op), (mode p), (negb top),
    (hasTopLevelComparison p); done.
Qed.

(** Three units of fuel per remaining token, and a few to spare, are never
    used up. *)
Lemma parse_total (n : nat) :
  (∀ fuel p, remaining p ≤ n → 3 * n + 1 ≤ fuel →
     parsePrimary fuel p ≠ Throw OutOfFuel) ∧
  (∀ fuel args p, remaining p ≤ n → 3 * n + 3 ≤ fuel →
     parseArguments fuel args p ≠ Throw OutOfFuel) ∧
  (∀ fuel minPrec top p, remaining p ≤ n → 3 * n + 2 ≤ fuel →
     parseExpression fuel minPrec top p ≠ Throw OutOfFuel) ∧
  (∀ fuel minPrec top l p, remaining p ≤ n → 3 * n + 1 ≤ fuel →
     parseExpressionLoop fuel minPrec top l p ≠ Throw OutOfFuel).
Proof.
  induction n as [n IH] using lt_wf_ind.
  assert (∀ fuel p, remaining p ≤ n → 3 * n + 1 ≤ fuel →
            parsePrimary fuel p ≠ Throw OutOfFuel) as Hprim.
  { intros [|fuel] p Hrem Hfuel; [lia|]. rewrite parsePrimary_S.
    destruct (current p) as [t|] eqn:Hcur; [|done].
    destruct (current_remaining p t Hcur) as [Hpos Hadv].
    destruct t as [index|text|op|name| | | |]; try done.
    - destruct op; try done.
      all: apply bind_no_fuel; [|by intros [a p'] _].
      all: destruct (IH (n - 1)) as (IHprim & _); [lia|].
      all: apply IHprim; lia.
    - destruct (current (advance p)) as [t'|] eqn:Hcur'; [|done].
      destruct (current_remaining _ t' Hcur') as [Hpos' Hadv'].
      destruct t'; try done.
      apply bind_no_fuel.
      + destruct (IH (n - 2)) as (_ & IHargs & _); [lia|].
        apply IHargs; lia.
      + intros [args p'] _. apply bind_no_fuel; [|done].
        apply validateCall_no_fuel.
    - apply bind_no_fuel.
      + destruct (IH (n - 1)) as (_ & _ & IHexpr & _); [lia|].
        apply IHexpr; lia.
      + intros [a p'] _. destruct (current p') as [[]|]; done. }
  assert (∀ fuel minPrec top l p, remaining p ≤ n → 3 * n + 1 ≤ fuel →
            parseExpressionLoop fuel minPrec top l p ≠ Throw OutOfFuel)
    as Hloop.
  { intros [|fuel] minPrec top l p Hrem Hfuel; [lia|].
    rewrite parseExpressionLoop_S.
    destruct (current p) as [t|] eqn:Hcur; [|done].
    destruct (current_remaining p t Hcur) as [Hpos Hadv].
    destruct t as [index|text|op|name| | | |]; try done.
    destruct (PRECEDENCE op <? minPrec); [done|].
    apply bind_no_fuel; [apply checkComparison_no_fuel|].
    intros p0 Hcheck.
    apply checkComparison_sameStream in Hcheck as [(Ht & _ & _) Hp0].
    assert (remaining (advance p0) = remaining p - 1) as Hrem0.
    { unfold remaining in *. simpl. rewrite Ht, Hp0. lia. }
    apply bind_no_fuel.
    - destruct (IH (n - 1)) as (_ & _ & IHexpr & _); [lia|].
      apply IHexpr; lia.
    - intros [r p1] Hexpr.
      destruct (parse_tokens fuel) as (_ & _ & Texpr & _).
      destruct (parse_progress fuel) as (_ & _ & Pexpr & _).
      pose proof (Texpr _ _ _ _ _ Hexpr) as Ht1.
      apply Pexpr in Hexpr.
      destruct (IH (n - 2)) as (_ & _ & _ & IHloop); [lia|].
      apply IHloop; [|lia].
      unfold remaining in *. simpl in *.
      apply (f_equal length) in Ht1, Ht. simpl in *. lia. }
  assert (∀ fuel minPrec top p, remaining p ≤ n → 3 * n + 2 ≤ fuel →
            parseExpression fuel minPrec top p ≠ Throw OutOfFuel) as Hexpr.
  { intros [|fuel] minPrec top p Hrem Hfuel; [lia|].
    rewrite parseExpression_S. apply bind_no_fuel.
    - apply Hprim; lia.
    - intros [l p1] Hp.
      destruct (parse_tokens fuel) as (Tprim & _).
      destruct (parse_progress fuel) as (Pprim & _).
      pose proof (Tprim _ _ _ Hp) as Ht1. apply Pprim in Hp.
      destruct (decide (n = 0)) as [->|Hn].
      + unfold remaining in *. lia.
      + destruct (IH (n - 1)) as (_ & _ & _ & IHloop); [lia|].
        apply IHloop; [|lia].
        unfold remaining in *. apply (f_equal length) in Ht1. lia. }
  split_and!; [done| |done|done].
  intros [|fuel] args p Hrem Hfuel; [lia|]. rewrite parseArguments_S.
  destruct (current p) as [t|] eqn:Hcur; [|done].
  destruct (current_remaining p t Hcur) as [Hpos Hadv].
  assert (('(a, p) ← parseExpression fuel 0 false p;
           match current p with
           | None => undefinedToken
           | Some COMMA => parseArguments fuel (args ++ [a]) (advance p)
           | Some RPAREN => parseArguments fuel (args ++ [a]) p
           | Some _ => Throw ExpectedCommaOrRParen
           end) ≠ Throw OutOfFuel) as Hbody.
  { apply bind_no_fuel; [apply Hexpr; lia|].
    intros [a p1] Hp.
    destruct (parse_tokens fuel) as (_ & _ & Texpr & _).
    destruct (parse_progress fuel) as (_ & _ & Pexpr & _).
    pose proof (Texpr _ _ _ _ _ Hp) as Ht1. apply Pexpr in Hp.
    apply (f_equal length) in Ht1.
    destruct (current p1) as [t1|] eqn:Hcur1; [|done].
    destruct (current_remaining p1 t1 Hcur1) as [Hpos1 Hadv1].
    destruct t1; try done.
    - destruct (IH (n - 1)) as (_ & IHargs & _); [lia|].
      apply IHargs; [|lia]. unfold remaining in *. lia.
    - destruct (IH (n - 2)) as (_ & IHargs & _); [lia|].
      apply IHargs; [|lia]. unfold remaining in *. simpl in *. lia. }
  by destruct t.
Qed.

(** [math] and [is] never run out of fuel while parsing. *)
Lemma parseExpression_total (m : Mode) (toks : list Token) :
  parseTokens m toks ≠ Throw OutOfFuel.
Proof.
  unfold parseTokens. apply bind_no_fuel.
  - destruct (parse_total (length toks)) as (_ & _ & Hexpr & _).
    apply Hexpr; [unfold remaining; simpl; lia|unfold parseFuel; lia].
  - intros [ast p] _.
    destruct (current p) as [[]|]; try done.
    destruct m; [done|]. by destruct (negb _).
Qed.

(** * From template to AST: value indices *)

Lemma tokenize_values (template : list string) (toks : list Token) :
  tokenize template = OK toks →
  Forall (isValueBelow (length template - 1)) toks.
Proof. apply tokenizeLoop_values. Qed.

Lemma parseTemplate_indices (m : Mode) (template : list string) (ast : ASTNode) :
  parseTemplate m template = OK ast →
  indicesBelow (length template - 1) ast.
Proof.
  unfold parseTemplate. intros H.
  apply bind_OK in H as (toks & Htok & H).
  apply bind_OK in H as ([a p] & Hparse & H).
  apply tokenize_values in Htok.
  destruct (parse_preserves (length template - 1) (parseFuel toks))
    as (_ & _ & Hexpr & _).
  apply Hexpr in Hparse as [_ Hi].
  assert (a = ast) as <- by (inv_result H; done).
  by apply Hi.
Qed.

Section Values.
Context {Number D : Type} `{Decimal : DecimalConstructor Number D}.

Lemma mapM_result_length {A B} (f : A → result B) (l : list A) (k : list B) :
  mapM f l = OK k → length k = length l.
Proof.
  revert k. induction l as [|x l IH]; intros k H; simpl in H.
  - by inversion H.
  - apply bind_OK in H as (y & _ & H). apply bind_OK in H as (k' & Hk & H).
    inversion H; subst. simpl. f_equal. by apply IH.
Qed.

Lemma preprocessValues_length (values processed : list (JSValue Number D)) :
  preprocessValues values = OK processed → length processed = length values.
Proof. apply mapM_result_length. Qed.

End Values.

(** * The parser against the grammar *)

Section ExprInduction.
Variable P : Expr → Prop.
Hypothesis Hvalue : ∀ index, P (EValue index).
Hypothesis Hnumber : ∀ text, P (ENumber text).
Hypothesis Hcall : ∀ name args, Forall P args → P (ECall name args).
Hypothesis Hunary : ∀ op operand, P operand → P (EUnary op operand).
Hypothesis Hparen : ∀ inner, P inner → P (EParen inner).
Hypothesis Hbinary : ∀ op l r, P l → P r → P (EBinary op l r).

Fixpoint Expr_nested_ind (e : Expr) : P e :=
  match e with
  | EValue index => Hvalue index
  | ENumber text => Hnumber text
  | ECall name args =>
    Hcall name args
      ((fix all (es : list Expr) : Forall P es :=
          match es with
          | [] => Forall_nil_2 P
          | a :: es => Forall_cons_2 P a es (Expr_nested_ind a) (all es)
          end) args)
  | EUnary op operand => Hunary op operand (Expr_nested_ind operand)
  | EParen inner => Hparen inner (Expr_nested_ind inner)
  | EBinary op l r => Hbinary op l r (Expr_nested_ind l) (Expr_nested_ind r)
  end.
End ExprInduction.

(** ** Positions *)

Lemma view_current (p : ASTParser) (t : Token) (rest : list Token) :
  view p = t :: rest → current p = Some t.
Proof.
  unfold view, current. intros Hv.
  rewrite <- (Nat.add_0_r (pos p)), <- lookup_drop, Hv. done.
Qed.

Lemma view_nil_current (p : ASTParser) : view p = [] → current p = None.
Proof.
  unfold view, current. intros Hv.
  rewrite <- (Nat.add_0_r (pos p)), <- lookup_drop, Hv. done.
Qed.

Lemma view_moved (p : ASTParser) (k : nat) (flag : bool)
  (toks rest : list Token) :
  view p = toks ++ rest → length toks = k → view (moved p k flag) = rest.
Proof.
  unfold view, moved. simpl. intros Hv <-.
  rewrite Nat.add_comm, <- drop_drop, Hv. by rewrite drop_app_length.
Qed.

Lemma view_advance (p : ASTParser) (t : Token) (rest : list Token) :
  view p = t :: rest → view (advance p) = rest.
Proof. intros Hv. by apply (view_moved p 1 _ [t] rest). Qed.

Lemma moved_zero (p : ASTParser) : moved p 0 (hasTopLevelComparison p) = p.
Proof. by destruct p. Qed.

Lemma moved_moved (p : ASTParser) (k k' : nat) (f f' : bool) :
  moved (moved p k f) k' f' = moved p (k + k') f'.
Proof. unfold moved. simpl. f_equal. lia. Qed.

Lemma advance_moved (p : ASTParser) (k : nat) (f : bool) :
  advance (moved p k f) = moved p (k + 1) f.
Proof. unfold moved, advance. simpl. f_equal. lia. Qed.

Lemma advance_as_moved (p : ASTParser) :
  advance p = moved p 1 (hasTopLevelComparison p).
Proof. reflexivity. Qed.

Lemma checkComparison_checkOperator (op : Operator) (top : bool)
  (p : ASTParser) :
  checkComparison op top p =
  flag ← checkOperator (mode p) top (hasTopLevelComparison p) op;
  OK (moved p 0 flag).
Proof.
  unfold checkComparison, checkOperator.
  destruct (COMPARISON_OPS op), (mode p), top, (hasTopLevelComparison p) eqn:Hf;
    simpl; try done.
  all: try (f_equal; destruct p; simpl in *; by subst).
Qed.

Lemma depth_needC (e : Expr) : depth e ≤ needC e.
Proof. induction e; simpl; lia. Qed.

(** An expression never starts with a closing parenthesis. *)
Lemma tokensOf_head (e : Expr) :
  ∃ t ts, tokensOf e = t :: ts ∧ t ≠ RPAREN.
Proof.
  induction e as [| | | | |op l IHl r IHr]; simpl; eauto.
  destruct IHl as (t & ts & -> & Ht). simpl. eauto.
Qed.

(** ** The loop stops where the grammar says *)

Lemma stops_weaken (q q' : nat) (rest : list Token) :
  stops q rest → q ≤ q' → stops q' rest.
Proof. destruct rest as [|[] rest]; simpl; try done. lia. Qed.

Lemma loop_stops (fuel minPrec : nat) (top : bool) (l : ASTNode)
  (p : ASTParser) :
  stops minPrec (view p) →
  parseExpressionLoop (S fuel) minPrec top l p = OK (l, p).
Proof.
  intros Hstop. rewrite parseExpressionLoop_S.
  destruct (view p) as [|t rest] eqn:Hv; [done|].
  rewrite (view_current _ _ _ Hv).
  destruct t; try done. simpl in Hstop.
  apply Nat.ltb_lt in Hstop. by rewrite Hstop.
Qed.

Lemma rightOperandLevel_level (op : Operator) :
  PRECEDENCE op < rightOperandLevel op ∨
  (PRECEDENCE op = rightOperandLevel op ∧ op = OpPow).
Proof. destruct op; simpl; unfold rightOperandLevel; simpl; auto. Qed.

Lemma nextMinPrec_rightOperandLevel (op : Operator) :
  nextMinPrec op = rightOperandLevel op.
Proof. by destruct op. Qed.

Lemma loopSpec_expressionSpec (e : Expr) : loopSpec e → expressionSpec e.
Proof.
  intros Hloop fuel p minPrec top rest Hv Hq Hstop Hfuel.
  destruct fuel as [|fuel]; [lia|].
  rewrite (Hloop fuel p minPrec top rest Hv Hq); [| |lia].
  - destruct (modeCheck _ _ _ _) as [flag|err]; [|done]. simpl.
    pose proof (depth_needC e).
    destruct (fuel - depth e) as [|k] eqn:Hk; [lia|].
    apply loop_stops. by rewrite (view_moved _ _ _ _ _ Hv eq_refl).
  - destruct e; simpl; try done.
    eapply stops_weaken; [done|]. simpl in Hq.
    destruct (rightOperandLevel_level op) as [?|[? _]]; lia.
Qed.

(** ** Argument lists *)

Lemma mode_moved p k f : mode (moved p k f) = mode p.
Proof. reflexivity. Qed.

Lemma flag_moved p k f : hasTopLevelComparison (moved p k f) = f.
Proof. reflexivity. Qed.

Lemma parseArguments_spec (args : list Expr) :
  Forall expressionSpec args →
  ∀ fuel acc p rest,
    view p = separated args ++ RPAREN :: rest →
    needArgs args + 1 ≤ fuel →
    parseArguments fuel acc p =
    flag ← modeCheckArgs (mode p) args (hasTopLevelComparison p);
    OK (acc ++ List.map toAST args, moved p (length (separated args)) flag).
Proof.
  induction args as [|a args IH]; intros Hall fuel acc p rest Hv Hfuel.
  - destruct fuel as [|fuel]; [lia|]. simpl in *.
    rewrite parseArguments_S, (view_current _ _ _ Hv).
    by rewrite app_nil_r, moved_zero.
  - apply Forall_cons in Hall as [Ha Hall].
    destruct fuel as [|fuel]; [simpl in Hfuel; lia|].
    cbn [needArgs] in Hfuel.
    rewrite parseArguments_S.
    destruct (tokensOf_head a) as (t & ts & Hts & Ht).
    assert (∃ sep rest',
      view p = tokensOf a ++ sep :: rest' ∧
      ((sep = RPAREN ∧ args = [] ∧ rest' = rest) ∨
       (sep = COMMA ∧ args ≠ [] ∧
        rest' = separated args ++ RPAREN :: rest)))
      as (sep & rest' & Hv' & Hsep).
    { destruct args as [|b args].
      - exists RPAREN, rest. split; [done|]. by left.
      - exists COMMA, (separated (b :: args) ++ RPAREN :: rest).
        split; [|by right]. rewrite Hv.
        change (separated (a :: b :: args))
          with (tokensOf a ++ COMMA :: separated (b :: args)).
        by rewrite <- app_assoc. }
    assert (current p = Some t) as Hcur.
    { apply (view_current _ _ (ts ++ sep :: rest')). by rewrite Hv', Hts. }
    rewrite Hcur.
    transitivity
      ('(a0, p0) ← parseExpression fuel 0 false p;
       match current p0 with
       | None => undefinedToken
       | Some COMMA => parseArguments fuel (acc ++ [a0]) (advance p0)
       | Some RPAREN => parseArguments fuel (acc ++ [a0]) p0
       | Some _ => Throw ExpectedCommaOrRParen
       end).
    { by destruct t. }
    rewrite (Ha fuel p 0 false (sep :: rest') Hv'); [|lia| |lia].
    2:{ destruct Hsep as [(-> & _)|(-> & _)]; done. }
    cbn [modeCheckArgs].
    destruct (modeCheck (mode p) false (hasTopLevelComparison p) a)
      as [flag|err]; [|done].
    cbn [mbind result_bind].
    set (p1 := moved p (length (tokensOf a)) flag).
    assert (view p1 = sep :: rest') as Hv1.
    { by apply (view_moved _ _ _ _ _ Hv'). }
    rewrite (view_current _ _ _ Hv1).
    destruct Hsep as [(-> & -> & ->)|(-> & Hne & ->)].
    + rewrite (IH Hall fuel (acc ++ [toAST a]) p1 rest); [|done|simpl; lia].
      simpl. rewrite <- app_assoc. unfold p1. rewrite moved_moved. do 3 f_equal.
      lia.
    + rewrite (IH Hall fuel (acc ++ [toAST a]) (advance p1) rest);
        [|by apply (view_advance _ _ _ Hv1)|lia].
      unfold p1. rewrite advance_moved.
      change (mode (moved p _ flag)) with (mode p).
      change (hasTopLevelComparison (moved p _ flag)) with flag.
      destruct (modeCheckArgs (mode p) args flag) as [flag'|err]; [|done].
      cbn [mbind result_bind]. rewrite moved_moved, <- app_assoc.
      cbn [List.map app]. do 3 f_equal.
      destruct args as [|b args]; [done|].
      change (separated (a :: b :: args))
        with (tokensOf a ++ COMMA :: separated (b :: args)).
      rewrite length_app. simpl. lia.
Qed.

(** ** Primary expressions and the loop *)

Lemma primarySpec_loopSpec (e : Expr) :
  depth e = 0 → primarySpec e → loopSpec e.
Proof.
  intros Hd Hprim fuel p minPrec top rest Hv _ _ Hfuel.
  rewrite parseExpression_S, (Hprim fuel p top rest Hv Hfuel).
  destruct (modeCheck _ _ _ _) as [flag|err]; [|done].
  by rewrite Hd, Nat.sub_0_r.
Qed.

Lemma modeCheck_call (m : Mode) (top flag : bool) (name : string)
  (args : list Expr) :
  modeCheck m top flag (ECall name args) = modeCheckArgs m args flag.
Proof.
  cbn [modeCheck]. revert flag.
  induction args as [|a args IH]; intros flag; [done|].
  cbn [modeCheckArgs]. destruct (modeCheck m false flag a); [|done].
  apply IH.
Qed.

Lemma tokensOf_call (name : string) (args : list Expr) :
  tokensOf (ECall name args) =
  FUNCTION name :: LPAREN :: separated args ++ [RPAREN].
Proof. reflexivity. Qed.

Lemma needC_call (name : string) (args : list Expr) :
  needC (ECall name args) = 2 + needArgs args.
Proof. reflexivity. Qed.

Lemma validateCall_wellFormed (name : string) (args : list Expr) :
  includes validFunctions name = true →
  (length args =? arity name) = true →
  validateCall name (List.map toAST args) = OK (function name (List.map toAST args)).
Proof.
  intros Hin Har. unfold validateCall. rewrite Hin, length_map. simpl.
  apply Nat.eqb_eq in Har. rewrite Har. unfold arity.
  by destruct (name =? "clamp")%string.
Qed.

Lemma grouping_left (op op' : Operator) :
  leftOperandLevel op ≤ PRECEDENCE op' →
  PRECEDENCE op < rightOperandLevel op'.
Proof.
  destruct op, op'; unfold leftOperandLevel, rightOperandLevel; simpl; lia.
Qed.

Lemma leftOperandLevel_ge (op : Operator) :
  PRECEDENCE op ≤ leftOperandLevel op.
Proof. destruct op; unfold leftOperandLevel; simpl; lia. Qed.

Lemma PRECEDENCE_bound (op : Operator) : PRECEDENCE op ≤ 4.
Proof. destruct op; simpl; lia. Qed.

Lemma primarySpec_atom (e : Expr) (t : Token) (a : ASTNode) :
  tokensOf e = [t] → toAST e = a →
  (∀ m top flag, modeCheck m top flag e = OK flag) →
  (∀ fuel p, current p = Some t → parsePrimary (S fuel) p = OK (a, advance p)) →
  primarySpec e.
Proof.
  intros Htok Hast Hmode Hparse fuel p top rest Hv Hfuel.
  destruct fuel as [|fuel]; [destruct e; simpl in Hfuel; lia|].
  rewrite Htok in *. rewrite Hast, Hmode, Hparse; [done|].
  by apply (view_current _ _ _ Hv).
Qed.

Lemma primarySpec_unary (op : Operator) (x : Expr) :
  wellFormed (EUnary op x) = true → primarySpec x → primarySpec (EUnary op x).
Proof.
  intros Hwf Hx fuel p top rest Hv Hfuel.
  cbn [wellFormed] in Hwf. apply andb_true_iff in Hwf as [Hwf _].
  apply andb_true_iff in Hwf as [Hop _].
  destruct fuel as [|fuel]; [simpl in Hfuel; lia|]. cbn [needC] in Hfuel.
  cbn [tokensOf] in Hv. simpl app in Hv.
  rewrite parsePrimary_S, (view_current _ _ _ Hv).
  rewrite (Hx fuel (advance p) top rest); [|by eapply view_advance|lia].
  cbn [modeCheck toAST tokensOf length].
  change (mode (advance p)) with (mode p).
  change (hasTopLevelComparison (advance p)) with (hasTopLevelComparison p).
  destruct (modeCheck _ _ _ _) as [flag|err]; destruct op; try done.
  all: cbn [mbind result_bind]; rewrite advance_as_moved, moved_moved; done.
Qed.

Lemma primarySpec_paren (e : Expr) :
  expressionSpec e → primarySpec (EParen e).
Proof.
  intros He fuel p top rest Hv Hfuel.
  destruct fuel as [|fuel]; [simpl in Hfuel; lia|]. cbn [needC] in Hfuel.
  cbn [tokensOf] in Hv. simpl app in Hv. rewrite <- app_assoc in Hv.
  rewrite parsePrimary_S, (view_current _ _ _ Hv).
  rewrite (He fuel (advance p) 0 false ([RPAREN] ++ rest));
    [|by eapply view_advance|lia|done|lia].
  cbn [modeCheck toAST].
  change (mode (advance p)) with (mode p).
  change (hasTopLevelComparison (advance p)) with (hasTopLevelComparison p).
  destruct (modeCheck _ _ _ _) as [flag|err]; [|done].
  cbn [mbind result_bind].
  assert (view (moved (advance p) (length (tokensOf e)) flag)
          = RPAREN :: rest) as Hv'.
  { eapply view_moved; [|done]. by eapply view_advance. }
  rewrite (view_current _ _ _ Hv').
  rewrite advance_moved, advance_as_moved, moved_moved.
  do 3 f_equal. cbn [tokensOf length]. rewrite length_app. simpl. lia.
Qed.

Lemma primarySpec_call (name : string) (args : list Expr) :
  wellFormed (ECall name args) = true →
  Forall expressionSpec args →
  primarySpec (ECall name args).
Proof.
  intros Hwf Hargs fuel p top rest Hv Hfuel.
  cbn [wellFormed] in Hwf. apply andb_true_iff in Hwf as [Hwf _].
  apply andb_true_iff in Hwf as [Hin Har].
  rewrite needC_call in Hfuel.
  destruct fuel as [|fuel]; [lia|].
  rewrite tokensOf_call in *. simpl app in Hv. rewrite <- app_assoc in Hv.
  rewrite parsePrimary_S, (view_current _ _ _ Hv).
  assert (view (advance p) = LPAREN :: separated args ++ [RPAREN] ++ rest)
    as Hv1 by by eapply view_advance.
  rewrite (view_current _ _ _ Hv1).
  rewrite (parseArguments_spec args Hargs fuel [] (advance (advance p)) rest);
    [|by eapply view_advance|lia].
  rewrite modeCheck_call.
  change (mode (advance (advance p))) with (mode p).
  change (hasTopLevelComparison (advance (advance p)))
    with (hasTopLevelComparison p).
  destruct (modeCheckArgs _ _ _) as [flag|err]; [|done].
  cbn [mbind result_bind app toAST].
  rewrite (validateCall_wellFormed name args Hin Har).
  cbn [mbind result_bind].
  rewrite advance_moved, !advance_as_moved, !moved_moved.
  do 3 f_equal. cbn [length]. rewrite length_app. simpl. lia.
Qed.

Lemma loopSpec_binary (op : Operator) (l r : Expr) :
  wellFormed (EBinary op l r) = true →
  loopSpec l → loopSpec r → loopSpec (EBinary op l r).
Proof.
  intros Hwf Hl Hr fuel p minPrec top rest Hv Hq Hfollow Hfuel.
  cbn [wellFormed] in Hwf.
  apply andb_true_iff in Hwf as [Hwf _].
  apply andb_true_iff in Hwf as [Hwf _].
  apply andb_true_iff in Hwf as [Hll Hlr].
  apply Nat.leb_le in Hll, Hlr.
  cbn [needC] in Hfuel. cbn [level] in Hq. cbn [follows] in Hfollow.
  cbn [tokensOf] in Hv. rewrite <- app_assoc in Hv. simpl app in Hv.
  pose proof (leftOperandLevel_ge op) as Hge.
  pose proof (depth_needC l) as Hdl.
  rewrite (Hl fuel p minPrec top _ Hv); [|lia| |lia].
  2:{ destruct l; try done. simpl. by apply grouping_left. }
  cbn [modeCheck].
  destruct (modeCheck (mode p) top (hasTopLevelComparison p) l)
    as [f1|err]; [|done].
  cbn [mbind result_bind].
  set (p1 := moved p (length (tokensOf l)) f1).
  assert (view p1 = OPERATOR op :: tokensOf r ++ rest) as Hv1
    by by apply (view_moved _ _ _ _ _ Hv).
  destruct (fuel - depth l) as [|k] eqn:Hk; [lia|].
  rewrite parseExpressionLoop_S, (view_current _ _ _ Hv1).
  assert ((PRECEDENCE op <? minPrec) = false) as -> by by apply Nat.ltb_ge.
  rewrite checkComparison_checkOperator.
  change (mode p1) with (mode p).
  change (hasTopLevelComparison p1) with f1.
  destruct (checkOperator (mode p) top f1 op) as [f2|err]; [|done].
  cbn [mbind result_bind].
  unfold p1. rewrite moved_moved, advance_moved.
  set (p2 := moved p (length (tokensOf l) + 0 + 1) f2).
  assert (view p2 = tokensOf r ++ rest) as Hv2.
  { apply (view_moved p _ _ (tokensOf l ++ [OPERATOR op])).
    - by rewrite <- app_assoc.
    - rewrite length_app. simpl. lia. }
  rewrite (loopSpec_expressionSpec r Hr k p2 (nextMinPrec op) top rest Hv2);
    [| |by rewrite nextMinPrec_rightOperandLevel|lia].
  2:{ rewrite nextMinPrec_rightOperandLevel. lia. }
  change (mode p2) with (mode p).
  change (hasTopLevelComparison p2) with f2.
  destruct (modeCheck (mode p) top f2 r) as [f3|err]; [|done].
  cbn [mbind result_bind depth toAST]. unfold p2. rewrite moved_moved.
  replace (fuel - S (depth l)) with k by lia.
  do 2 f_equal. cbn [tokensOf]. rewrite length_app. simpl. lia.
Qed.

(** The parser reads a well-formed expression as the grammar groups it. *)
Lemma parser_follows_grammar (e : Expr) :
  wellFormed e = true → (level e = 5 → primarySpec e) ∧ loopSpec e.
Proof.
  induction e as [index|text|name args IH|op x IH|e IH|op l r IHl IHr]
    using Expr_nested_ind; intros Hwf.
  - assert (primarySpec (EValue index)) as Hp.
    { eapply primarySpec_atom; try done.
      intros fuel p Hcur. by rewrite parsePrimary_S, Hcur. }
    split; [done|]. by apply primarySpec_loopSpec.
  - assert (primarySpec (ENumber text)) as Hp.
    { eapply primarySpec_atom; try done.
      intros fuel p Hcur. by rewrite parsePrimary_S, Hcur. }
    split; [done|]. by apply primarySpec_loopSpec.
  - assert (primarySpec (ECall name args)) as Hp.
    { apply primarySpec_call; [done|].
      cbn [wellFormed] in Hwf. apply andb_true_iff in Hwf as [_ Hall].
      rewrite forallb_forall in Hall.
      apply Forall_forall. intros a Ha.
      rewrite Forall_forall in IH.
      apply loopSpec_expressionSpec, IH; [done|].
      apply Hall. by apply list_elem_of_In. }
    split; [done|]. by apply primarySpec_loopSpec.
  - assert (primarySpec (EUnary op x)) as Hp.
    { apply primarySpec_unary; [done|].
      cbn [wellFormed] in Hwf. apply andb_true_iff in Hwf as [Hwf Hx].
      apply andb_true_iff in Hwf as [_ Hlev]. apply Nat.eqb_eq in Hlev.
      by apply IH. }
    split; [done|]. by apply primarySpec_loopSpec.
  - assert (primarySpec (EParen e)) as Hp.
    { apply primarySpec_paren, loopSpec_expressionSpec, IH. done. }
    split; [done|]. by apply primarySpec_loopSpec.
  - split.
    + simpl. pose proof (PRECEDENCE_bound op). lia.
    + pose proof Hwf as Hwf'. cbn [wellFormed] in Hwf'.
      apply andb_true_iff in Hwf' as [Hwf' Hwr].
      apply andb_true_iff in Hwf' as [_ Hwl].
      apply loopSpec_binary; [done|by apply IHl|by apply IHr].
Qed.

(** * Whole token streams *)

Lemma tokensOf_length (e : Expr) : 1 ≤ length (tokensOf e).
Proof. destruct (tokensOf_head e) as (t & ts & -> & _). simpl. lia. Qed.

Lemma needC_bound (e : Expr) : needC e + 2 ≤ 3 * length (tokensOf e).
Proof.
  induction e as [index|text|name args IH|op x IH|e IH|op l r IHl IHr]
    using Expr_nested_ind.
  - simpl. lia.
  - simpl. lia.
  - rewrite needC_call, tokensOf_call. cbn [length]. rewrite length_app.
    assert (needArgs args ≤ 3 * length (separated args) + 3) as Hargs.
    { induction args as [|a args IHargs]; [simpl; lia|].
      apply Forall_cons in IH as [Ha IH]. specialize (IHargs IH).
      cbn [needArgs]. destruct args as [|b args].
      - simpl in *. lia.
      - change (separated (a :: b :: args))
          with (tokensOf a ++ COMMA :: separated (b :: args)).
        rewrite length_app. cbn [length]. lia. }
    simpl. lia.
  - cbn [needC tokensOf length]. lia.
  - cbn [needC tokensOf length]. rewrite length_app. simpl. lia.
  - cbn [needC tokensOf length]. rewrite length_app. simpl. lia.
Qed.

(** What [math] and [is] make of the tokens of a well-formed expression. *)
Lemma parseTokens_grammar (m : Mode) (e : Expr) :
  wellFormed e = true →
  parseTokens m (tokensOf e ++ [EOF]) =
  flag ← modeCheck m true false e;
  match m with
  | MathMode => OK (toAST e)
  | IsMode => if negb flag then Throw IsRequiresComparison else OK (toAST e)
  end.
Proof.
  intros Hwf. unfold parseTokens.
  destruct (parser_follows_grammar e Hwf) as [_ Hloop].
  set (p := newASTParser (tokensOf e ++ [EOF]) m).
  assert (view p = tokensOf e ++ [EOF]) as Hv by done.
  rewrite (loopSpec_expressionSpec e Hloop _ p 0 true [EOF] Hv);
    [|lia|done|].
  2:{ unfold parseFuel. rewrite length_app. pose proof (needC_bound e).
      simpl. lia. }
  change (mode p) with m. change (hasTopLevelComparison p) with false.
  destruct (modeCheck m true false e) as [flag|err]; [|done].
  cbn [mbind result_bind].
  assert (view (moved p (length (tokensOf e)) flag) = [EOF]) as Hv'
    by by apply (view_moved _ _ _ _ _ Hv).
  by rewrite (view_current _ _ _ Hv').
Qed.

(** * The mode rules, counted *)

Lemma comparisonsIn_app (ts us : list Token) :
  comparisonsIn (ts ++ us) = comparisonsIn ts ++ comparisonsIn us.
Proof. apply omap_app. Qed.

Lemma comparisonsIn_operator (op : Operator) (ts : list Token) :
  comparisonsIn (OPERATOR op :: ts) =
  (if COMPARISON_OPS op then [op] else []) ++ comparisonsIn ts.
Proof. unfold comparisonsIn. simpl. by destruct (COMPARISON_OPS op). Qed.

Lemma comparisonsIn_call (name : string) (args : list Expr) :
  comparisonsIn (tokensOf (ECall name args)) = comparisonsIn (separated args).
Proof.
  rewrite tokensOf_call.
  change (comparisonsIn (separated args ++ [RPAREN]) =
          comparisonsIn (separated args)).
  rewrite comparisonsIn_app. simpl. by rewrite app_nil_r.
Qed.

Lemma comparisonsIn_paren (e : Expr) :
  comparisonsIn (tokensOf (EParen e)) = comparisonsIn (tokensOf e).
Proof.
  cbn [tokensOf].
  change (comparisonsIn (tokensOf e ++ [RPAREN]) = comparisonsIn (tokensOf e)).
  rewrite comparisonsIn_app. simpl. by rewrite app_nil_r.
Qed.

Lemma comparisonsIn_separated (args : list Expr) :
  comparisonsIn (separated args) =
  List.concat (List.map (λ a, comparisonsIn (tokensOf a)) args).
Proof.
  induction args as [|a args IH]; [done|].
  destruct args as [|b args].
  - simpl. by rewrite app_nil_r.
  - change (separated (a :: b :: args))
      with (tokensOf a ++ COMMA :: separated (b :: args)).
    rewrite comparisonsIn_app.
    change (comparisonsIn (COMMA :: separated (b :: args)))
      with (comparisonsIn (separated (b :: args))).
    rewrite IH. done.
Qed.

Lemma checkOperator_rejecting (m : Mode) (top flag : bool) (op : Operator) :
  m = MathMode ∨ top = false →
  checkOperator m top flag op =
  if COMPARISON_OPS op then Throw (rejection m op) else OK flag.
Proof.
  unfold checkOperator. intros [->| ->]; [done|]. by destruct m.
Qed.

(** In [math], and below the top level in [is], the first comparison in
    reading order is rejected. *)
Lemma modeCheck_rejecting (m : Mode) (e : Expr) :
  wellFormed e = true →
  ∀ top flag, m = MathMode ∨ top = false →
  modeCheck m top flag e = firstRejected m flag (comparisonsIn (tokensOf e)).
Proof.
  induction e as [index|text|name args IH|op x IH|e IH|op l r IHl IHr]
    using Expr_nested_ind; intros Hwf top flag Hrej.
  - done.
  - done.
  - rewrite modeCheck_call, comparisonsIn_call, comparisonsIn_separated.
    cbn [wellFormed] in Hwf. apply andb_true_iff in Hwf as [_ Hall].
    clear name. revert flag.
    induction args as [|a args IHargs]; intros flag; [done|].
    apply Forall_cons in IH as [Ha IH].
    cbn [forallb] in Hall. apply andb_true_iff in Hall as [Hwa Hall].
    cbn [modeCheckArgs List.map List.concat].
    rewrite (Ha Hwa false flag) by (destruct Hrej; auto).
    destruct (comparisonsIn (tokensOf a)) as [|op ops]; [|done].
    simpl. by apply IHargs.
  - cbn [wellFormed] in Hwf. apply andb_true_iff in Hwf as [Hwf Hx].
    apply andb_true_iff in Hwf as [Hop _].
    cbn [modeCheck tokensOf]. rewrite comparisonsIn_operator.
    rewrite IH by done. by destruct op.
  - rewrite comparisonsIn_paren. cbn [modeCheck].
    apply IH; [done|]. destruct Hrej; auto.
  - cbn [wellFormed] in Hwf.
    apply andb_true_iff in Hwf as [Hwf Hwr].
    apply andb_true_iff in Hwf as [_ Hwl].
    cbn [modeCheck tokensOf].
    rewrite comparisonsIn_app, comparisonsIn_operator.
    rewrite IHl by done.
    destruct (comparisonsIn (tokensOf l)) as [|op' ops]; [|done].
    cbn [firstRejected mbind result_bind app].
    rewrite checkOperator_rejecting by done.
    destruct (COMPARISON_OPS op); [done|].
    cbn [mbind result_bind app]. by apply IHr.
Qed.

(** At the top level of [is]: the first top-level comparison sets the flag,
    a second one is a chained comparison, and a nested one is rejected. *)
Lemma modeCheck_is_top (e : Expr) :
  wellFormed e = true →
  ∀ flag,
  match modeCheck IsMode true flag e with
  | OK flag' =>
    nestedComparisons e = [] ∧
    flag' = flag || (0 <? length (topLevelComparisons e)) ∧
    length (topLevelComparisons e) + Nat.b2n flag ≤ 1
  | Throw err =>
    (err = ChainedComparison ∧
     2 ≤ length (topLevelComparisons e) + Nat.b2n flag) ∨
    (∃ op, op ∈ nestedComparisons e ∧ err = ComparisonNotTopLevel op)
  end.
Proof.
  induction e as [index|text|name args IH|op x IH|e IH|op l r IHl IHr]
    using Expr_nested_ind; intros Hwf flag.
  - simpl. rewrite orb_false_r. repeat split. destruct flag; simpl; lia.
  - simpl. rewrite orb_false_r. repeat split. destruct flag; simpl; lia.
  - change (modeCheck IsMode true flag (ECall name args))
      with (modeCheck IsMode false flag (ECall name args)).
    rewrite (modeCheck_rejecting IsMode _ Hwf false flag) by auto.
    rewrite comparisonsIn_call, comparisonsIn_separated.
    cbn [nestedComparisons topLevelComparisons].
    destruct (List.concat _) as [|op ops]; simpl.
    + rewrite orb_false_r. repeat split. destruct flag; simpl; lia.
    + right. exists op. split; [left|done].
  - cbn [wellFormed] in Hwf. apply andb_true_iff in Hwf as [_ Hx].
    cbn [modeCheck nestedComparisons topLevelComparisons]. by apply IH.
  - change (modeCheck IsMode true flag (EParen e))
      with (modeCheck IsMode false flag (EParen e)).
    rewrite (modeCheck_rejecting IsMode _ Hwf false flag) by auto.
    rewrite comparisonsIn_paren.
    cbn [nestedComparisons topLevelComparisons].
    destruct (comparisonsIn _) as [|op ops]; simpl.
    + rewrite orb_false_r. repeat split. destruct flag; simpl; lia.
    + right. exists op. split; [left|done].
  - cbn [wellFormed] in Hwf.
    apply andb_true_iff in Hwf as [Hwf Hwr].
    apply andb_true_iff in Hwf as [_ Hwl].
    specialize (IHl Hwl flag).
    cbn [modeCheck nestedComparisons topLevelComparisons].
    rewrite !length_app.
    destruct (modeCheck IsMode true flag l) as [f1|err].
    2:{ destruct IHl as [[-> Hn]|(op' & Hin & ->)].
        - left. split; [done|]. lia.
        - right. exists op'. split; [|done]. apply elem_of_app. by left. }
    destruct IHl as (Hnl & -> & Hlen). rewrite Hnl.
    cbn [mbind result_bind app]. unfold checkOperator.
    destruct (COMPARISON_OPS op); cbn [negb length].
    + destruct (flag || (0 <? length (topLevelComparisons l))) eqn:Hf1.
      * left. split; [done|].
        destruct flag; simpl in *; [lia|]. apply Nat.ltb_lt in Hf1. lia.
      * apply orb_false_iff in Hf1 as [-> Hl0]. apply Nat.ltb_ge in Hl0.
        specialize (IHr Hwr true). cbn [mbind result_bind].
        destruct (modeCheck IsMode true true r) as [f3|err].
        -- destruct IHr as (Hnr & -> & Hlenr). simpl in *.
           repeat split; [done| |lia].
           symmetry. apply Nat.ltb_lt. lia.
        -- destruct IHr as [[-> Hn]|(op' & Hin & ->)].
           ++ left. split; [done|]. simpl in *. lia.
           ++ right. by exists op'.
    + cbn [mbind result_bind].
      specialize (IHr Hwr (flag || (0 <? length (topLevelComparisons l)))).
      destruct (modeCheck IsMode true _ r) as [f3|err].
      * destruct IHr as (Hnr & -> & Hlenr). rewrite Hnr, ?Nat.add_0_l.
        revert Hlenr.
        destruct (Nat.ltb_spec 0 (length (topLevelComparisons l))),
          (Nat.ltb_spec 0 (length (topLevelComparisons r))),
          (Nat.ltb_spec 0 (length (topLevelComparisons l) +
                           length (topLevelComparisons r))),
          flag; cbn [Nat.b2n orb] in *; intros; repeat split; try done; try lia.
      * destruct IHr as [[-> Hn]|(op' & Hin & ->)].
        -- left. split; [done|]. rewrite ?Nat.add_0_l. revert Hn.
           destruct (Nat.ltb_spec 0 (length (topLevelComparisons l))),
             flag; cbn [Nat.b2n orb] in *; lia.
        -- right. by exists op'.
Qed.

(** The grammar groups [1-2-3] to the left and [2**3**2] to the right, and
    admits neither of the other groupings without parentheses. *)
Lemma grammar_groupings :
  wellFormed (EBinary OpSub (EBinary OpSub (ENumber "1") (ENumber "2"))
                (ENumber "3")) = true ∧
  wellFormed (EBinary OpSub (ENumber "1")
                (EBinary OpSub (ENumber "2") (ENumber "3"))) = false ∧
  wellFormed (EBinary OpPow (ENumber "2")
                (EBinary OpPow (ENumber "3") (ENumber "2"))) = true ∧
  wellFormed (EBinary OpPow (EBinary OpPow (ENumber "2") (ENumber "3"))
                (ENumber "2")) = false ∧
  wellFormed (EBinary OpMul (EBinary OpAdd (ENumber "2") (ENumber "3"))
                (ENumber "4")) = false ∧
  wellFormed (EBinary OpMul (EParen (EBinary OpAdd (ENumber "2") (ENumber "3")))
                (ENumber "4")) = true.
Proof. by repeat split. Qed.

(** * Comparisons in the result of a parse, for every token stream *)

Lemma current_view (p : ASTParser) (t : Token) :
  current p = Some t → view p = t :: view (advance p).
Proof. unfold current, view. simpl. apply drop_S. Qed.

Lemma stops_current (minPrec : nat) (p : ASTParser) (t : Token) :
  current p = Some t →
  match t with
  | OPERATOR op => PRECEDENCE op < minPrec
  | _ => True
  end →
  stops minPrec (view p).
Proof. intros Hcur Ht. rewrite (current_view _ _ Hcur). by destruct t. Qed.

Lemma low_precedence_comparison (op : Operator) :
  PRECEDENCE op < 2 → COMPARISON_OPS op = true.
Proof. destruct op; simpl; lia || done. Qed.

Lemma comparison_precedence (op : Operator) :
  COMPARISON_OPS op = true → PRECEDENCE op = 1 ∧ nextMinPrec op = 2.
Proof. by destruct op. Qed.

Lemma arithmetic_nextMinPrec (op : Operator) :
  COMPARISON_OPS op = false → 2 ≤ nextMinPrec op.
Proof. destruct op; try done; unfold nextMinPrec; simpl; lia. Qed.

Lemma checkComparison_outcome (op : Operator) (top : bool) (p p' : ASTParser) :
  checkComparison op top p = OK p' →
  (COMPARISON_OPS op = false ∧ p' = p) ∨
  (COMPARISON_OPS op = true ∧ mode p = IsMode ∧ top = true ∧
   hasTopLevelComparison p = false ∧ p' = setHasTopLevelComparison p).
Proof.
  unfold checkComparison. intros H.
  destruct (COMPARISON_OPS op); [|left; by inversion H].
  destruct (mode p); [discriminate|].
  destruct top; [|discriminate]. simpl in H.
  destruct (hasTopLevelComparison p); [discriminate|].
  right. by inversion H.
Qed.

(** After a comparison has been built at the top level of [is], the loop
    can only stop. *)
Lemma loop_after_comparison (fuel minPrec : nat) (l a : ASTNode)
  (p p' : ASTParser) :
  mode p = IsMode → hasTopLevelComparison p = true →
  stops 2 (view p) →
  parseExpressionLoop fuel minPrec true l p = OK (a, p') →
  a = l ∧ p' = p ∧ stops minPrec (view p').
Proof.
  intros Hmode Hflag Hstop H. destruct fuel as [|fuel]; [discriminate|].
  rewrite parseExpressionLoop_S in H.
  destruct (current p) as [t|] eqn:Hcur; [|discriminate].
  rewrite (current_view _ _ Hcur) in Hstop.
  destruct t as [index|text|op|name| | | |];
    try (inversion H; subst; split_and!; [done|done|];
         by eapply stops_current).
  simpl in Hstop.
  destruct (PRECEDENCE op <? minPrec) eqn:Hprec.
  - inversion H; subst. split_and!; [done|done|].
    eapply stops_current; [done|]. by apply Nat.ltb_lt.
  - exfalso. apply bind_OK in H as (p0 & Hcheck & _).
    unfold checkComparison in Hcheck.
    rewrite (low_precedence_comparison op Hstop), Hmode, Hflag in Hcheck.
    discriminate.
Qed.

Lemma parse_mode (fuel : nat) :
  (∀ p a p', parsePrimary fuel p = OK (a, p') → mode p' = mode p) ∧
  (∀ minPrec top p a p', parseExpression fuel minPrec top p = OK (a, p') →
     mode p' = mode p).
Proof.
  destruct (parse_preserves 0 fuel) as (Hp & _ & He & _).
  split; intros.
  - by eapply Hp.
  - by eapply He.
Qed.

Lemma outcome_free (minPrec : nat) (top : bool) (p p' : ASTParser)
  (a : ASTNode) :
  outcome minPrec top p p' a → top = false ∨ 2 ≤ minPrec →
  comparisonFree a = true ∧
  hasTopLevelComparison p' = hasTopLevelComparison p.
Proof.
  intros [H|(_ & Htop & Hq & _)] Hno; [done|].
  destruct Hno as [->|?]; [done|lia].
Qed.

Lemma parse_outcome (fuel : nat) :
  (∀ p a p', parsePrimary fuel p = OK (a, p') →
     comparisonFree a = true ∧
     hasTopLevelComparison p' = hasTopLevelComparison p) ∧
  (∀ args p l p', parseArguments fuel args p = OK (l, p') →
     forallb comparisonFree args = true →
     forallb comparisonFree l = true ∧
     hasTopLevelComparison p' = hasTopLevelComparison p) ∧
  (∀ minPrec top p a p', parseExpression fuel minPrec top p = OK (a, p') →
     outcome minPrec top p p' a ∧ stops minPrec (view p')) ∧
  (∀ minPrec top l p a p',
     parseExpressionLoop fuel minPrec top l p = OK (a, p') →
     comparisonFree l = true →
     outcome minPrec top p p' a ∧ stops minPrec (view p')).
Proof.
  induction fuel as [|fuel (IHprim & IHargs & IHexpr & IHloop)].
  { repeat split; intros; discriminate. }
  destruct (parse_mode fuel) as (Mprim & Mexpr).
  split_and!.
  - intros p a p' H. rewrite parsePrimary_S in H. inv_result H.
    + done.
    + done.
    + apply IHprim in Hx. done.
    + apply IHprim in Hx. done.
    + apply IHargs in Hx as [Hall Hflag]; [|done].
      apply validateCall_OK in Hx0 as ->. done.
    + apply IHexpr in Hx as [Hout _].
      apply outcome_free in Hout as [Hfree Hflag]; auto.
  - intros args p l p' H Hargs. rewrite parseArguments_S in H.
    destruct (current p) as [t|] eqn:Hcur; [|discriminate].
    assert (t = RPAREN ∨
            ('(a, p) ← parseExpression fuel 0 false p;
             match current p with
             | None => undefinedToken
             | Some COMMA => parseArguments fuel (args ++ [a]) (advance p)
             | Some RPAREN => parseArguments fuel (args ++ [a]) p
             | Some _ => Throw ExpectedCommaOrRParen
             end) = OK (l, p')) as [->|H'].
    { destruct t; auto. }
    { by inversion H; subst. }
    clear H. inv_result H'.
    all: apply IHexpr in Hx as [Hout _].
    all: apply outcome_free in Hout as [Hfree Hflag]; auto.
    all: apply IHargs in H' as [Hall Hflag'];
      [|by rewrite forallb_app, Hargs; simpl; rewrite Hfree].
    all: split; [done|]. all: simpl in *; congruence.
  - intros minPrec top p a p' H. rewrite parseExpression_S in H.
    inv_result H. pose proof (Mprim _ _ _ Hx) as Hmode.
    apply IHprim in Hx as [Hfree Hflag].
    apply IHloop in H as [Hout Hstop]; [|done]. split; [|done].
    unfold outcome in *. rewrite Hmode, Hflag in Hout. done.
  - intros minPrec top l p a p' H Hl. rewrite parseExpressionLoop_S in H.
    destruct (current p) as [t|] eqn:Hcur; [|discriminate].
    destruct t as [index|text|op|name| | | |];
      try (inversion H; subst; split; [by left|by eapply stops_current]).
    destruct (PRECEDENCE op <? minPrec) eqn:Hprec.
    { inversion H; subst. split; [by left|].
      eapply stops_current; [done|]. by apply Nat.ltb_lt. }
    apply Nat.ltb_ge in Hprec.
    apply bind_OK in H as (p0 & Hcheck & H).
    apply bind_OK in H as ([r p3] & Hexpr & H). cbv beta iota in H.
    pose proof (Mexpr _ _ _ _ _ Hexpr) as Hmode.
    apply IHexpr in Hexpr as [Hout Hstop].
    apply checkComparison_outcome in Hcheck
      as [(Hop & ->)|(Hop & Hm & -> & Hflag & ->)].
    + apply outcome_free in Hout as [Hr Hflag3];
        [|right; by apply arithmetic_nextMinPrec].
      apply IHloop in H as [Hout' Hstop'];
        [|by simpl; rewrite Hop, Hl, Hr].
      split; [|done]. unfold outcome in *. simpl in *.
      rewrite Hmode, Hflag3 in Hout'. done.
    + destruct (comparison_precedence op Hop) as [Hone Hnext].
      rewrite Hnext in *.
      apply outcome_free in Hout as [Hr Hflag3]; [|right; lia].
      apply loop_after_comparison in H as (-> & -> & Hstop');
        [|by rewrite Hmode|by rewrite Hflag3|done].
      split; [|done]. right. simpl in *.
      split_and!; try done; [lia|]. by rewrite Hop, Hl, Hr.
Qed.

(** Whatever the tokens, an AST accepted by [math] holds no comparison, and
    an AST accepted by [is] is one comparison of comparison-free operands. *)
Lemma parseTokens_comparisons (m : Mode) (toks : list Token) (ast : ASTNode) :
  parseTokens m toks = OK ast →
  match m with
  | MathMode => comparisonFree ast = true
  | IsMode => isComparison ast = true
  end.
Proof.
  unfold parseTokens. intros H.
  apply bind_OK in H as ([a p] & Hparse & H). cbv beta iota in H.
  destruct (parse_outcome (parseFuel toks)) as (_ & _ & Hexpr & _).
  apply Hexpr in Hparse as [Hout _].
  destruct (current p) as [[]|]; try discriminate.
  destruct m.
  - inversion H; subst. by destruct Hout as [[? _]|(? & _)].
  - destruct (hasTopLevelComparison p) eqn:Hflag; [|discriminate].
    inversion H; subst.
    destruct Hout as [[_ Hsame]|(_ & _ & _ & _ & _ & ?)]; [|done].
    simpl in Hsame. congruence.
Qed.

(** * [math] consumes no comparison operator *)

Lemma stretch_refl (p : ASTParser) : comparisonFreeStretch p p.
Proof.
  unfold comparisonFreeStretch, consumed. by rewrite Nat.sub_diag.
Qed.

Lemma consumed_trans (p p1 p2 : ASTParser) :
  tokens p1 = tokens p → pos p ≤ pos p1 → pos p1 ≤ pos p2 →
  consumed p p2 = consumed p p1 ++ consumed p1 p2.
Proof.
  intros Ht H1 H2. unfold consumed, view. rewrite Ht.
  replace (pos p2 - pos p) with ((pos p1 - pos p) + (pos p2 - pos p1)) by lia.
  rewrite <- take_take_drop, drop_drop.
  by replace (pos p + (pos p1 - pos p)) with (pos p1) by lia.
Qed.

Lemma stretch_trans (p p1 p2 : ASTParser) :
  comparisonFreeStretch p p1 → comparisonFreeStretch p1 p2 →
  comparisonFreeStretch p p2.
Proof.
  intros (Ht & Hm & Hp & Hc) (Ht' & Hm' & Hp' & Hc').
  split_and!; [congruence|congruence|lia|].
  rewrite (consumed_trans p p1 p2) by done.
  by rewrite comparisonsIn_app, Hc, Hc'.
Qed.

Lemma stretch_advance (p : ASTParser) (t : Token) :
  current p = Some t → comparisonsIn [t] = [] →
  comparisonFreeStretch p (advance p).
Proof.
  intros Hcur Ht. split_and!; [done|done|simpl; lia|].
  unfold consumed. simpl. rewrite (current_view _ _ Hcur).
  replace (S (pos p) - pos p) with 1 by lia. done.
Qed.

Lemma checkComparison_math (op : Operator) (top : bool) (p p' : ASTParser) :
  mode p = MathMode → checkComparison op top p = OK p' →
  COMPARISON_OPS op = false ∧ p' = p.
Proof.
  intros Hm H. apply checkComparison_outcome in H as [?|(_ & Hm' & _)];
    [done|congruence].
Qed.

Lemma parse_math_stretch (fuel : nat) :
  (∀ p a p', parsePrimary fuel p = OK (a, p') → mode p = MathMode →
     comparisonFreeStretch p p') ∧
  (∀ args p l p', parseArguments fuel args p = OK (l, p') →
     mode p = MathMode →
     comparisonFreeStretch p p' ∧ current p' = Some RPAREN) ∧
  (∀ minPrec top p a p', parseExpression fuel minPrec top p = OK (a, p') →
     mode p = MathMode → comparisonFreeStretch p p') ∧
  (∀ minPrec top l p a p',
     parseExpressionLoop fuel minPrec top l p = OK (a, p') →
     mode p = MathMode → comparisonFreeStretch p p').
Proof.
  induction fuel as [|fuel (IHprim & IHargs & IHexpr & IHloop)].
  { repeat split; intros; discriminate. }
  split_and!.
  - intros p a p' H Hm. rewrite parsePrimary_S in H.
    destruct (current p) as [t|] eqn:Hcur; [|discriminate].
    destruct t as [index|text|op|name| | | |]; try discriminate.
    + inversion H; subst. by eapply stretch_advance.
    + inversion H; subst. by eapply stretch_advance.
    + assert (comparisonFreeStretch p (advance p)) as Hs.
      { eapply stretch_advance; [done|]. destruct op; try done. }
      destruct op; try discriminate.
      all: apply bind_OK in H as ([x p1] & Hx & H); inversion H; subst.
      all: apply IHprim in Hx; [|done].
      all: by eapply stretch_trans.
    + destruct (current (advance p)) as [t'|] eqn:Hcur'; [|discriminate].
      destruct t'; try discriminate.
      apply bind_OK in H as ([args p1] & Hx & H). cbv beta iota in H.
      apply bind_OK in H as (node & _ & H). inversion H; subst.
      apply IHargs in Hx as [Hx Hcur1]; [|done].
      eapply stretch_trans; [by eapply stretch_advance|].
      eapply stretch_trans; [by eapply (stretch_advance (advance p))|].
      eapply stretch_trans; [done|]. by eapply stretch_advance.
    + apply bind_OK in H as ([x p1] & Hx & H). cbv beta iota in H.
      apply IHexpr in Hx; [|done].
      destruct (current p1) as [[]|] eqn:Hcur1; try discriminate.
      inversion H; subst.
      eapply stretch_trans; [by eapply stretch_advance|].
      eapply stretch_trans; [done|]. by eapply stretch_advance.
  - intros args p l p' H Hm. rewrite parseArguments_S in H.
    destruct (current p) as [t|] eqn:Hcur; [|discriminate].
    assert (t = RPAREN ∨
            ('(a, p) ← parseExpression fuel 0 false p;
             match current p with
             | None => undefinedToken
             | Some COMMA => parseArguments fuel (args ++ [a]) (advance p)
             | Some RPAREN => parseArguments fuel (args ++ [a]) p
             | Some _ => Throw ExpectedCommaOrRParen
             end) = OK (l, p')) as [->|H'].
    { destruct t; auto. }
    { inversion H; subst. split; [apply stretch_refl|done]. }
    clear H. apply bind_OK in H' as ([x p1] & Hx & H). cbv beta iota in H.
    apply IHexpr in Hx; [|done].
    assert (mode p1 = MathMode) as Hm1.
    { destruct Hx as (_ & -> & _). done. }
    destruct (current p1) as [[]|] eqn:Hcur1; try discriminate.
    + apply IHargs in H as [H Hcur']; [|done].
      split; [|done]. by eapply stretch_trans.
    + apply IHargs in H as [H Hcur']; [|done].
      split; [|done].
      eapply stretch_trans; [done|].
      eapply stretch_trans; [by eapply stretch_advance|done].
  - intros minPrec top p a p' H Hm. rewrite parseExpression_S in H.
    apply bind_OK in H as ([x p1] & Hx & H). cbv beta iota in H.
    apply IHprim in Hx; [|done].
    apply IHloop in H; [by eapply stretch_trans|].
    destruct Hx as (_ & -> & _). done.
  - intros minPrec top l p a p' H Hm. rewrite parseExpressionLoop_S in H.
    destruct (current p) as [t|] eqn:Hcur; [|discriminate].
    destruct t as [index|text|op|name| | | |];
      try (inversion H; subst; apply stretch_refl).
    destruct (PRECEDENCE op <? minPrec).
    { inversion H; subst. apply stretch_refl. }
    apply bind_OK in H as (p0 & Hcheck & H).
    apply checkComparison_math in Hcheck as [Hop ->]; [|done].
    apply bind_OK in H as ([r p3] & Hexpr & H). cbv beta iota in H.
    apply IHexpr in Hexpr; [|done].
    apply IHloop in H.
    2:{ destruct Hexpr as (_ & -> & _). done. }
    eapply stretch_trans; [eapply stretch_advance; [done|]|].
    { unfold comparisonsIn. simpl. by rewrite Hop. }
    by eapply stretch_trans.
Qed.

(** If [math] accepts a token stream that ends with its only [EOF], the
    stream holds no comparison operator. *)
Lemma parseTokens_math_tokens (body : list Token) (ast : ASTNode) :
  Forall (λ t, t ≠ EOF) body →
  parseTokens MathMode (body ++ [EOF]) = OK ast →
  comparisonsIn (body ++ [EOF]) = [].
Proof.
  intros Hbody H. unfold parseTokens in H.
  apply bind_OK in H as ([a p] & Hparse & H). cbv beta iota in H.
  destruct (parse_math_stretch (parseFuel (body ++ [EOF])))
    as (_ & _ & Hexpr & _).
  apply Hexpr in Hparse as (Ht & _ & _ & Hfree); [|done].
  destruct (current p) as [[]|] eqn:Hcur; try discriminate.
  unfold current in Hcur. rewrite Ht in Hcur. simpl in Hcur.
  assert (pos p = length body) as Hpos.
  { destruct (decide (pos p < length body)) as [Hlt|Hge].
    - rewrite lookup_app_l in Hcur by done.
      rewrite Forall_lookup in Hbody. by destruct (Hbody _ _ Hcur).
    - apply lookup_lt_Some in Hcur. rewrite length_app in Hcur.
      simpl in Hcur. lia. }
  unfold consumed, view in Hfree. simpl in Hfree.
  rewrite ?Nat.sub_0_r, Hpos, drop_0 in Hfree.
  rewrite take_app_length in Hfree.
  rewrite comparisonsIn_app, Hfree. done.
Qed.

(** * The caches *)

Section CacheFacts.
Context {Number D : Type} `{Decimal : DecimalConstructor Number D}.
Variable fragments : TemplateId → list string.
Implicit Types (c : Caches) (m : Mode) (values : list (JSValue Number D)).

Lemma cacheOf_countParse m c : cacheOf m (countParse c) = cacheOf m c.
Proof. by destruct m. Qed.

Lemma cacheOf_cacheSet m m' template ast c :
  cacheOf m (cacheSet m' template ast c) =
  if decide (m = m') then <[template := ast]> (cacheOf m c) else cacheOf m c.
Proof. by destruct m, m'. Qed.

Lemma parseCount_cacheSet m template ast c :
  parseCount (cacheSet m template ast c) = parseCount c.
Proof. by destruct m. Qed.

(** A call on consistent caches computes what a fresh evaluation computes,
    and leaves the caches consistent. *)
Lemma entry_consistent m c template values :
  cacheConsistent fragments c →
  (entry fragments m c template values).1 =
    evaluateFresh m (fragments template) values ∧
  cacheConsistent fragments (entry fragments m c template values).2.
Proof.
  intros Hc. unfold entry, evaluateFresh.
  destruct (cacheOf m c !! template) as [ast|] eqn:Hlook.
  - by rewrite (Hc _ _ _ Hlook).
  - destruct (parseTemplate m (fragments template)) as [ast|err] eqn:Hparse.
    + split; [done|]. intros m' t' ast'. cbn [snd].
      rewrite cacheOf_cacheSet, cacheOf_countParse.
      destruct (decide (m' = m)) as [->|Hne]; [|apply Hc].
      destruct (decide (t' = template)) as [->|Hnt].
      * rewrite lookup_insert_eq. by intros [= <-].
      * rewrite lookup_insert_ne by done. apply Hc.
    + split; [done|]. intros m' t' ast'. cbn [snd].
      rewrite cacheOf_countParse. apply Hc.
Qed.

Lemma reachable_consistent c : reachable fragments c → cacheConsistent fragments c.
Proof.
  induction 1 as [|m c template values _ IH].
  - intros [] t ast; simpl; by rewrite lookup_empty.
  - by apply entry_consistent.
Qed.

(** Through the cache or not, the result is the same. *)
Lemma entry_fresh m c template values :
  reachable fragments c →
  (entry fragments m c template values).1 =
  evaluateFresh m (fragments template) values.
Proof. intros Hr. by apply entry_consistent, reachable_consistent. Qed.

(** A hit changes nothing: no parse, no update. *)
Lemma entry_hit m c template values ast :
  cacheOf m c !! template = Some ast →
  entry fragments m c template values = (evaluate ast values, c).
Proof. intros Hlook. unfold entry. by rewrite Hlook. Qed.

(** A miss runs the parser once; the AST is stored if there is one. *)
Lemma entry_miss m c template values :
  cacheOf m c !! template = None →
  parseCount (entry fragments m c template values).2 = S (parseCount c) ∧
  cacheOf m (entry fragments m c template values).2 !! template =
    match parseTemplate m (fragments template) with
    | OK ast => Some ast
    | Throw _ => None
    end.
Proof.
  intros Hlook. unfold entry. rewrite Hlook.
  destruct (parseTemplate m (fragments template)) as [ast|err]; cbn [snd].
  - rewrite parseCount_cacheSet, cacheOf_cacheSet, cacheOf_countParse.
    rewrite decide_True by done. by rewrite lookup_insert_eq.
  - by rewrite cacheOf_countParse.
Qed.

(** Entries are never removed or replaced. *)
Lemma entry_keeps m m' c template template' values ast :
  cacheOf m c !! template = Some ast →
  cacheOf m (entry fragments m' c template' values).2 !! template = Some ast.
Proof.
  intros Hlook. unfold entry.
  destruct (cacheOf m' c !! template') as [ast'|] eqn:Hlook'; [done|].
  destruct (parseTemplate m' (fragments template')) as [ast'|err]; cbn [snd].
  - rewrite cacheOf_cacheSet, cacheOf_countParse.
    destruct (decide (m = m')) as [->|]; [|done].
    destruct (decide (template = template')) as [->|].
    + congruence.
    + by rewrite lookup_insert_ne.
  - by rewrite cacheOf_countParse.
Qed.

End CacheFacts.

(** * Explicit parentheses *)

Lemma level_parenthesize (e : Expr) :
  level (parenthesize e) = 5.
Proof. by destruct e. Qed.

Lemma wellFormed_parenthesize (e : Expr) :
  wellFormed e = true → wellFormed (parenthesize e) = true.
Proof.
  induction e as [index|text|name args IH|op x IH|e IH|op l r IHl IHr]
    using Expr_nested_ind; intros Hwf; cbn [parenthesize wellFormed] in *.
  - done.
  - done.
  - apply andb_true_iff in Hwf as [Hwf Hall].
    rewrite length_map, Hwf. simpl.
    rewrite forallb_forall in Hall. apply forallb_forall.
    intros a' Ha'. apply in_map_iff in Ha' as (a & <- & Ha).
    rewrite Forall_forall in IH. apply IH; [by apply list_elem_of_In|auto].
  - apply andb_true_iff in Hwf as [Hwf Hx].
    apply andb_true_iff in Hwf as [Hop _].
    by rewrite Hop, level_parenthesize, IH.
  - auto.
  - apply andb_true_iff in Hwf as [Hwf Hwr].
    apply andb_true_iff in Hwf as [_ Hwl].
    rewrite !level_parenthesize, IHl, IHr by done.
    by destruct op.
Qed.

Lemma toAST_parenthesize (e : Expr) : toAST (parenthesize e) = toAST e.
Proof.
  induction e as [index|text|name args IH|op x IH|e IH|op l r IHl IHr]
    using Expr_nested_ind; cbn [parenthesize toAST]; try congruence.
  f_equal. rewrite map_map. induction IH as [|a args Ha _ IH]; [done|].
  simpl. congruence.
Qed.

Lemma comparisonsIn_parenthesize (e : Expr) :
  comparisonsIn (tokensOf (parenthesize e)) = comparisonsIn (tokensOf e).
Proof.
  induction e as [index|text|name args IH|op x IH|e IH|op l r IHl IHr]
    using Expr_nested_ind; cbn [parenthesize].
  - done.
  - done.
  - rewrite !comparisonsIn_call, !comparisonsIn_separated, map_map.
    induction IH as [|a args Ha _ IH]; [done|]. simpl. congruence.
  - cbn [tokensOf]. rewrite !comparisonsIn_operator. congruence.
  - rewrite !comparisonsIn_paren. done.
  - rewrite comparisonsIn_paren. cbn [tokensOf].
    rewrite !comparisonsIn_app, !comparisonsIn_operator. congruence.
Qed.

(** * The entry points on the tokens of an expression *)

Section OnGrammar.
Context {Number D : Type} `{Decimal : DecimalConstructor Number D}.
Variable fragments : TemplateId → list string.

Lemma entry_on_grammar (m : Mode) (c : Caches) (template : TemplateId)
  (e : Expr) (values : list (JSValue Number D)) :
  reachable fragments c →
  wellFormed e = true →
  tokenize (fragments template) = OK (tokensOf e ++ [EOF]) →
  (entry fragments m c template values).1 =
  flag ← modeCheck m true false e;
  match m with
  | MathMode => evaluate (toAST e) values
  | IsMode =>
    if negb flag then Throw IsRequiresComparison
    else evaluate (toAST e) values
  end.
Proof.
  intros Hr Hwf Htok. rewrite entry_fresh by done.
  unfold evaluateFresh, parseTemplate. rewrite Htok.
  cbn [mbind result_bind]. rewrite parseTokens_grammar by done.
  destruct (modeCheck m true false e) as [flag|err]; [|done].
  cbn [mbind result_bind]. destruct m; [done|]. by destruct flag.
Qed.

Lemma math_on_arithmetic (c : Caches) (template : TemplateId)
  (e : Expr) (values : list (JSValue Number D)) :
  reachable fragments c →
  wellFormed e = true →
  comparisonsIn (tokensOf e) = [] →
  tokenize (fragments template) = OK (tokensOf e ++ [EOF]) →
  (math fragments c template values).1 = evaluate (toAST e) values.
Proof.
  intros Hr Hwf Hcmp Htok. unfold math.
  rewrite (entry_on_grammar MathMode c template e) by done.
  rewrite modeCheck_rejecting by auto. by rewrite Hcmp.
Qed.

End OnGrammar.

(** * Arithmetic mode: precedence and grouping *)

(** C1.  For every well-formed arithmetic expression (no comparison in it),
    [math] on a template that spells the expression returns the value of the
    tree the grammar gives it (precedence 1 to 4, [+ - * /] grouping
    left-to-right and [**] right-to-left), which is also what [math] returns
    on the same expression with every operation explicitly parenthesized.
    In particular [2+3*4] is [2+(3*4) = 14], [10/2*3] is [(10/2)*3 = 15] and
    [2**3**2] is [2**(3**2) = 512]. *)
Theorem precedence_grouping :
  (∀ (Number D : Type) (Decimal : DecimalConstructor Number D)
     (fragments : TemplateId → list string) (c : Caches)
     (template parenthesized : TemplateId) (e : Expr)
     (values : list (JSValue Number D)),
     reachable fragments c →
     wellFormed e = true →
     comparisonsIn (tokensOf e) = [] →
     tokenize (fragments template) = OK (tokensOf e ++ [EOF]) →
     tokenize (fragments parenthesized) =
       OK (tokensOf (parenthesize e) ++ [EOF]) →
     (math fragments c template values).1 = evaluate (toAST e) values ∧
     (math fragments c parenthesized values).1 =
     (math fragments c template values).1) ∧
  (parseTemplate MathMode ["2+3*4"] =
     OK (binary OpAdd (number "2") (binary OpMul (number "3") (number "4"))) ∧
   QBackend.run ["2+3*4"] [] = OK (JDecimal 14%Q)) ∧
  (parseTemplate MathMode ["10/2*3"] =
     OK (binary OpMul (binary OpDiv (number "10") (number "2")) (number "3")) ∧
   QBackend.run ["10/2*3"] [] = OK (JDecimal 15%Q)) ∧
  (parseTemplate MathMode ["2**3**2"] =
     OK (binary OpPow (number "2") (binary OpPow (number "3") (number "2"))) ∧
   QBackend.run ["2**3**2"] [] = OK (JDecimal 512%Q)).
Proof.
  split; [|by vm_compute].
  intros Number D Decimal fragments c template parenthesized e values
    Hr Hwf Hcmp Htok Hpar.
  rewrite (math_on_arithmetic fragments c template e) by done.
  split; [done|].
  rewrite (math_on_arithmetic fragments c parenthesized (parenthesize e));
    [by rewrite toAST_parenthesize|done| | |done].
  - by apply wellFormed_parenthesize.
  - by rewrite comparisonsIn_parenthesize.
Qed.

Lemma precedence_grouping_witness :
  (math (Decimal := QBackend.QDecimal)
        Samples.sumOfProductTemplates create 1%positive []).1
    = OK (JDecimal 14%Q) ∧
  (math (Decimal := QBackend.QDecimal)
        Samples.sumOfProductTemplates create 2%positive []).1
    = OK (JDecimal 14%Q).
Proof.
  destruct (proj1 precedence_grouping Z Q QBackend.QDecimal
              Samples.sumOfProductTemplates create 1%positive 2%positive
              Samples.sumOfProduct [])
    as [H1 H2].
  - constructor.
  - reflexivity.
  - reflexivity.
  - reflexivity.
  - reflexivity.
  - split; [rewrite H1|rewrite H2, H1]; reflexivity.
Defined.

(** * Predicate mode: exactly one top-level comparison *)

Lemma parseTemplate_comparisons (m : Mode) (template : list string)
  (ast : ASTNode) :
  parseTemplate m template = OK ast →
  match m with
  | MathMode => comparisonFree ast = true
  | IsMode => isComparison ast = true
  end.
Proof.
  unfold parseTemplate. intros H. apply bind_OK in H as (toks & _ & H).
  by eapply parseTokens_comparisons.
Qed.

Section IsValue.
Context {Number D : Type} `{Decimal : DecimalConstructor Number D}.
Variable fragments : TemplateId → list string.

Lemma is_value (c : Caches) (template : TemplateId)
  (values : list (JSValue Number D)) (v : JSValue Number D) :
  reachable fragments c →
  (is_ fragments c template values).1 = OK v →
  ∃ op l r b,
    parseTemplate IsMode (fragments template) = OK (binary op l r) ∧
    COMPARISON_OPS op = true ∧
    comparisonFree l = true ∧ comparisonFree r = true ∧
    v = JBoolean b.
Proof.
  intros Hr. unfold is_. rewrite entry_fresh by done.
  unfold evaluateFresh. intros H.
  apply bind_OK in H as (ast & Hparse & H).
  pose proof (parseTemplate_comparisons IsMode _ _ Hparse) as Hcmp.
  destruct ast as [| | |op l r|]; try discriminate.
  cbn [isComparison] in Hcmp.
  apply andb_true_iff in Hcmp as [Hcmp Hfr].
  apply andb_true_iff in Hcmp as [Hop Hfl].
  unfold evaluate in H. apply bind_OK in H as (processed & _ & H).
  cbn [interpret] in H.
  apply bind_OK in H as (lv & _ & H). apply bind_OK in H as (rv & _ & H).
  unfold interpretBinary in H.
  destruct lv; try discriminate. destruct rv; try discriminate.
  destruct op; try discriminate; inversion H; subst; eauto 10.
Qed.

End IsValue.

(** C2.  [is] succeeds only on one comparison at the top level: whatever
    the fragments, when [is] returns a value the template has parsed to a
    comparison whose two operands hold no comparison, and the value is a
    boolean.  On a template that spells a well-formed expression, [is] gets
    past parsing exactly when the expression has one comparison at the top
    level and none nested in parentheses or arguments; it then evaluates the
    tree of the expression.  Otherwise it fails with a mode error: the
    missing-comparison error when there is no comparison at all, the
    chained-comparison error when only top-level comparisons occur and there
    are two or more, and the not-at-top-level error, naming a nested
    operator, when a comparison is nested and at most one is at the top
    level.  The three errors are different. *)
Theorem is_requires_one_top_level_comparison
  {Number D : Type} `{Decimal : DecimalConstructor Number D}
  (fragments : TemplateId → list string) (c : Caches) (template : TemplateId)
  (e : Expr) (values : list (JSValue Number D)) :
  reachable fragments c →
  wellFormed e = true →
  tokenize (fragments template) = OK (tokensOf e ++ [EOF]) →
  let r := (is_ fragments c template values).1 in
  let top := topLevelComparisons e in
  let inner := nestedComparisons e in
  (∀ template' values' v,
     (is_ fragments c template' values').1 = OK v →
     ∃ op l r b,
       parseTemplate IsMode (fragments template') = OK (binary op l r) ∧
       COMPARISON_OPS op = true ∧
       comparisonFree l = true ∧ comparisonFree r = true ∧
       v = JBoolean b) ∧
  ((∃ ast, parseTemplate IsMode (fragments template) = OK ast) ↔
   length top = 1 ∧ inner = []) ∧
  (length top = 1 ∧ inner = [] → r = evaluate (toAST e) values) ∧
  (¬ (length top = 1 ∧ inner = []) →
   ∃ err, r = Throw err ∧ errorKind err = ModeError) ∧
  (top = [] ∧ inner = [] → r = Throw IsRequiresComparison) ∧
  (2 ≤ length top ∧ inner = [] → r = Throw ChainedComparison) ∧
  (inner ≠ [] ∧ length top ≤ 1 →
   ∃ op, op ∈ inner ∧ r = Throw (ComparisonNotTopLevel op)) ∧
  (IsRequiresComparison ≠ ChainedComparison ∧
   ∀ op, ComparisonNotTopLevel op ≠ IsRequiresComparison ∧
         ComparisonNotTopLevel op ≠ ChainedComparison).
Proof.
  intros Hr Hwf Htok r top inner.
  split; [intros template' values' v; by apply is_value|].
  assert (parseTemplate IsMode (fragments template) =
          flag ← modeCheck IsMode true false e;
          if negb flag then Throw IsRequiresComparison else OK (toAST e))
    as Hparse.
  { unfold parseTemplate. rewrite Htok. cbn [mbind result_bind].
    by rewrite parseTokens_grammar. }
  assert (r = flag ← modeCheck IsMode true false e;
              if negb flag then Throw IsRequiresComparison
              else evaluate (toAST e) values) as Hres.
  { unfold r, is_. by rewrite (entry_on_grammar fragments IsMode c template e). }
  pose proof (modeCheck_is_top e Hwf false) as Hmode.
  fold top inner in Hmode. rewrite Hparse, Hres. clear Hparse Hres.
  assert (∀ op, ComparisonNotTopLevel op ≠ IsRequiresComparison ∧
                ComparisonNotTopLevel op ≠ ChainedComparison) as Hdistinct
    by by intros op.
  destruct (modeCheck IsMode true false e) as [flag|err];
    cbn [mbind result_bind].
  - destruct Hmode as (Hinner & -> & Hlen). cbn [orb Nat.b2n] in *.
    destruct (Nat.ltb_spec 0 (length top)) as [Hpos|Hzero]; cbn [negb].
    + assert (length top = 1) as Hone by lia.
      split_and!; try done.
      * split; [done|eauto].
      * intros Hnot. exfalso. auto.
      * intros [Htop _]. rewrite Htop in Hpos. simpl in Hpos. lia.
      * intros [Htwo _]. lia.
      * intros [Hne _]. done.
    + assert (top = []) as Htop by (destruct top; [done|simpl in Hzero; lia]).
      split_and!; try done.
      * split; [by intros [ast Hast]|]. intros [Hone _]. lia.
      * intros [Hone _]. lia.
      * intros _. eauto.
      * intros [Htwo _]. lia.
      * intros [Hne _]. done.
  - cbn [Nat.b2n] in Hmode. rewrite Nat.add_0_r in Hmode.
    destruct Hmode as [[-> Hlen]|(op & Hin & ->)].
    + split_and!; try done.
      * split; [by intros [ast Hast]|]. intros [Hone _]. lia.
      * intros [Hone _]. lia.
      * intros _. eauto.
      * intros [Htop _]. rewrite Htop in Hlen. simpl in Hlen. lia.
      * intros [_ Hone]. lia.
    + assert (inner ≠ []) as Hne
        by (intros Heq; rewrite Heq in Hin; inversion Hin).
      split_and!; try done.
      * split; [by intros [ast Hast]|]. by intros [_ Hnil].
      * by intros [_ Hnil].
      * intros _. eauto.
      * by intros [_ Hnil].
      * by intros [_ Hnil].
      * intros _. eauto.
Qed.

Lemma is_requires_one_top_level_comparison_witness :
  (is_ (Decimal := QBackend.QDecimal) (QBackend.only [""; " < "; ""]) create
       1%positive [QBackend.int 1; QBackend.int 2]).1 = OK (JBoolean true) ∧
  (is_ (Decimal := QBackend.QDecimal) (QBackend.only [""; " + "; ""]) create
       1%positive [QBackend.int 1; QBackend.int 2]).1
    = Throw IsRequiresComparison ∧
  (is_ (Decimal := QBackend.QDecimal)
       (QBackend.only [""; " < "; " < "; ""]) create
       1%positive [QBackend.int 1; QBackend.int 2; QBackend.int 3]).1
    = Throw ChainedComparison ∧
  (is_ (Decimal := QBackend.QDecimal)
       (QBackend.only ["("; " < "; ") == "; ""]) create
       1%positive [QBackend.int 1; QBackend.int 2; QBackend.int 1]).1
    = Throw (ComparisonNotTopLevel OpLt).
Proof.
  split_and!.
  - destruct (is_requires_one_top_level_comparison
                (Decimal := QBackend.QDecimal)
                (QBackend.only [""; " < "; ""]) create 1%positive
                Samples.oneComparison [QBackend.int 1; QBackend.int 2])
      as (_ & _ & Hok & _).
    + constructor.
    + reflexivity.
    + reflexivity.
    + rewrite Hok; [reflexivity|]. split; reflexivity.
  - destruct (is_requires_one_top_level_comparison
                (Decimal := QBackend.QDecimal)
                (QBackend.only [""; " + "; ""]) create 1%positive
                Samples.noComparison [QBackend.int 1; QBackend.int 2])
      as (_ & _ & _ & _ & Hnone & _).
    + constructor.
    + reflexivity.
    + reflexivity.
    + apply Hnone. split; reflexivity.
  - destruct (is_requires_one_top_level_comparison
                (Decimal := QBackend.QDecimal)
                (QBackend.only [""; " < "; " < "; ""]) create 1%positive
                Samples.chained
                [QBackend.int 1; QBackend.int 2; QBackend.int 3])
      as (_ & _ & _ & _ & _ & Hchain & _).
    + constructor.
    + reflexivity.
    + reflexivity.
    + apply Hchain. split; [simpl; lia|reflexivity].
  - destruct (is_requires_one_top_level_comparison
                (Decimal := QBackend.QDecimal)
                (QBackend.only ["("; " < "; ") == "; ""]) create 1%positive
                Samples.nested
                [QBackend.int 1; QBackend.int 2; QBackend.int 1])
      as (_ & _ & _ & _ & _ & _ & Hnested & _).
    + constructor.
    + reflexivity.
    + reflexivity.
    + destruct Hnested as (op & Hin & Hres).
      * split; [discriminate|simpl; lia].
      * rewrite Hres. f_equal. f_equal.
        apply list_elem_of_singleton in Hin. exact Hin.
Defined.

(** * Arithmetic mode: no comparison anywhere *)

Section MathFails.
Context {Number D : Type} `{Decimal : DecimalConstructor Number D}.
Variable fragments : TemplateId → list string.

Lemma math_fails_on_comparison (c : Caches) (template : TemplateId)
  (toks : list Token) (values : list (JSValue Number D)) :
  reachable fragments c →
  tokenize (fragments template) = OK toks →
  comparisonsIn toks ≠ [] →
  ∃ err, (math fragments c template values).1 = Throw err.
Proof.
  intros Hr Htok Hcmp. unfold math. rewrite entry_fresh by done.
  unfold evaluateFresh, parseTemplate. rewrite Htok.
  cbn [mbind result_bind].
  destruct (parseTokens MathMode toks) as [ast|err] eqn:Hparse; [|by eexists].
  exfalso. apply Hcmp.
  apply tokenizeLoop_EOF in Htok as (body & -> & Hbody).
  by eapply parseTokens_math_tokens.
Qed.

End MathFails.

(** C7.  Whatever the fragments, when their tokens include a comparison
    operator, [math] fails.  On a template that spells a well-formed
    expression containing a comparison operator, wherever it stands (top
    level, parentheses, function arguments), [math] fails with the mode
    error that names the first comparison operator of the expression. *)
Theorem math_rejects_comparisons
  {Number D : Type} `{Decimal : DecimalConstructor Number D}
  (fragments : TemplateId → list string) (c : Caches) (template : TemplateId)
  (e : Expr) (values : list (JSValue Number D))
  (op : Operator) (ops : list Operator) :
  reachable fragments c →
  wellFormed e = true →
  tokenize (fragments template) = OK (tokensOf e ++ [EOF]) →
  comparisonsIn (tokensOf e) = op :: ops →
  (∀ template' toks values',
     tokenize (fragments template') = OK toks →
     comparisonsIn toks ≠ [] →
     ∃ err, (math fragments c template' values').1 = Throw err) ∧
  (math fragments c template values).1 = Throw (ComparisonInMath op) ∧
  errorKind (ComparisonInMath op) = ModeError ∧
  COMPARISON_OPS op = true.
Proof.
  intros Hr Hwf Htok Hcmp. split; [|split; [|split; [done|]]].
  - intros template' toks values'. by apply math_fails_on_comparison.
  - unfold math.
    rewrite (entry_on_grammar fragments MathMode c template e) by done.
    rewrite modeCheck_rejecting by auto. by rewrite Hcmp.
  - assert (op ∈ comparisonsIn (tokensOf e)) as Hin by (rewrite Hcmp; left).
    unfold comparisonsIn in Hin. apply list_elem_of_omap in Hin as (t & _ & Ht).
    destruct t as [| |op'| | | | |]; try discriminate.
    destruct (COMPARISON_OPS op') eqn:Hop; [|discriminate].
    by inversion Ht; subst.
Qed.

Lemma math_rejects_comparisons_witness :
  (math (Decimal := QBackend.QDecimal) (QBackend.only ["abs("; " >= "; ")"])
        create 1%positive [QBackend.int 1; QBackend.int 2]).1
    = Throw (ComparisonInMath OpGe).
Proof.
  eapply (math_rejects_comparisons (Decimal := QBackend.QDecimal)
            (QBackend.only ["abs("; " >= "; ")"]) create 1%positive
            Samples.comparisonInArgument
            [QBackend.int 1; QBackend.int 2] OpGe []).
  - constructor.
  - reflexivity.
  - reflexivity.
  - reflexivity.
Defined.

(** * What [math] returns *)

Section FirstCall.
Context {Number D : Type} `{Decimal : DecimalConstructor Number D}.

(** The first call on fresh caches, when the template parses. *)
Lemma math_first_call (template : list string) (ast : ASTNode)
  (values : list (JSValue Number D)) :
  parseTemplate MathMode template = OK ast →
  (math (λ _, template) create 1%positive values).1 = evaluate ast values.
Proof.
  intros Hparse. unfold math, entry. cbn [cacheOf create mathCache].
  by rewrite lookup_empty, Hparse.
Qed.

End FirstCall.

(** C3.  [math] hands back an interpolated array as it is: on the template
    [${x}] with an array for [x], for every backend, the result is that
    array, not a backend instance and not an error. *)
Theorem math_returns_interpolated_array
  {Number D : Type} `{Decimal : DecimalConstructor Number D}
  (elements : list (JSValue Number D)) :
  (math (λ _, [""; ""]) create 1%positive [JArray elements]).1 =
  OK (JArray elements).
Proof. by rewrite (math_first_call _ (value 0)). Qed.

(** * Function arguments *)

(** C4.  The interpreter does not check the arguments of [clamp]: with a
    backend instance in first position, the second and third arguments go
    to the backend's [clamp] whatever they are (here an array), and the
    result is the backend's.  With the reference backend the failure on
    [clamp(5, [], 3)] is the backend's own error, and the failure on
    [abs([])] is the engine's complaint that [abs] is not a function;
    neither is a type error of the core. *)
Theorem function_arguments_unchecked :
  (∀ (Number D : Type) (Decimal : DecimalConstructor Number D)
     (d hi : D) (lo : list (JSValue Number D)),
     (math (λ _, ["clamp("; ","; ","; ")"]) create 1%positive
           [JDecimal d; JArray lo; JDecimal hi]).1 =
     JDecimal <$> clamp d (JArray lo) (JDecimal hi)) ∧
  (∃ err,
     QBackend.run ["clamp("; ","; ","; ")"]
       [QBackend.int 5; JArray []; QBackend.int 3] = Throw err ∧
     errorKind err = Unclassified) ∧
  (∃ err,
     QBackend.run ["abs("; ")"] [JArray []] = Throw err ∧
     errorKind err = Unclassified).
Proof.
  split; [|split].
  - intros Number D Decimal d hi lo.
    by rewrite (math_first_call _
      (function "clamp" [value 0; value 1; value 2])).
  - by eexists.
  - by eexists.
Qed.

(** * Unary minus and power *)

(** C5.  Unary minus binds tighter than [**].  The template [-2**2] parses
    to the power of [-2] and [2], and with the reference backend evaluates
    to 4, where [-(2**2)] evaluates to -4.  In general, for primary
    expressions [x] and [y], the tokens [- x ** y] are read as
    [(-x) ** y]. *)
Theorem unary_minus_binds_tighter_than_power
  {Number D : Type} `{Decimal : DecimalConstructor Number D}
  (fragments : TemplateId → list string) (c : Caches) (template : TemplateId)
  (x y : Expr) (values : list (JSValue Number D)) :
  reachable fragments c →
  wellFormed x = true → level x = 5 → comparisonsIn (tokensOf x) = [] →
  wellFormed y = true → level y = 5 → comparisonsIn (tokensOf y) = [] →
  tokenize (fragments template) =
    OK (OPERATOR OpSub :: tokensOf x ++ OPERATOR OpPow :: tokensOf y ++ [EOF]) →
  (math fragments c template values).1 =
    evaluate (binary OpPow (unary OpSub (toAST x)) (toAST y)) values ∧
  parseTemplate MathMode ["-2**2"] =
    OK (binary OpPow (unary OpSub (number "2")) (number "2")) ∧
  QBackend.run ["-2**2"] [] = OK (JDecimal 4%Q) ∧
  QBackend.run ["(-2)**2"] [] = OK (JDecimal 4%Q) ∧
  QBackend.run ["-(2**2)"] [] = OK (JDecimal (-4)%Q).
Proof.
  intros Hr Hwx Hlx Hcx Hwy Hly Hcy Htok. split; [|by vm_compute].
  apply (math_on_arithmetic fragments c template
           (EBinary OpPow (EUnary OpSub x) y)); [done| | |].
  - cbn [wellFormed level]. rewrite Hwx, Hwy, Hlx, Hly. done.
  - cbn [tokensOf]. change (OPERATOR OpSub :: tokensOf x)
      with ([OPERATOR OpSub] ++ tokensOf x).
    rewrite !comparisonsIn_app, Hcx. simpl. by rewrite Hcy.
  - rewrite Htok. cbn [tokensOf]. simpl. by rewrite <- app_assoc.
Qed.

Lemma unary_minus_binds_tighter_than_power_witness :
  (math (Decimal := QBackend.QDecimal) (λ _, ["-"; "**"; ""]) create
        1%positive [QBackend.int 2; QBackend.int 2]).1 = OK (JDecimal 4%Q).
Proof.
  destruct (unary_minus_binds_tighter_than_power
              (Decimal := QBackend.QDecimal) (λ _, ["-"; "**"; ""]) create
              1%positive (EValue 0) (EValue 1)
              [QBackend.int 2; QBackend.int 2]) as [H _].
  - constructor.
  - reflexivity.
  - reflexivity.
  - reflexivity.
  - reflexivity.
  - reflexivity.
  - reflexivity.
  - reflexivity.
  - rewrite H. reflexivity.
Defined.

(** * The cache against a fresh evaluation *)

(** C6, as the claim states it, fails: a template that does not parse is
    parsed again by a repeated call.  On the template [(], the first call
    of [math] runs the parser once and the second call runs it again. *)
Lemma repeated_call_reparses_failed_template :
  let fragments := QBackend.only ["("] in
  let first := math (Decimal := QBackend.QDecimal) fragments create
                    1%positive [] in
  let second := math (Decimal := QBackend.QDecimal) fragments first.2
                     1%positive [] in
  first.1 = Throw (UnexpectedToken TyEOF) ∧ parseCount first.2 = 1 ∧
  second.1 = Throw (UnexpectedToken TyEOF) ∧ parseCount second.2 = 2.
Proof. by vm_compute. Qed.

(** C6, amended.  In every reachable state of the caches and in either
    mode, a call returns what a fresh tokenize-parse-evaluate of the
    template returns on the same values.  Once the template has parsed, a
    repeated call with the same identity, whatever its values, leaves the
    caches as they are (so runs no parser) and returns what a fresh
    evaluation returns on the new values, and the entry survives calls on
    other templates.  A template that fails to parse is not cached: a
    repeated call parses it again and fails as a fresh evaluation does. *)
Theorem cache_equivalent_to_fresh_evaluation
  {Number D : Type} `{Decimal : DecimalConstructor Number D}
  (fragments : TemplateId → list string) (m : Mode) (c : Caches)
  (template : TemplateId) (values values' : list (JSValue Number D)) :
  reachable fragments c →
  let first := entry fragments m c template values in
  let second := entry fragments m first.2 template values' in
  first.1 = evaluateFresh m (fragments template) values ∧
  second.1 = evaluateFresh m (fragments template) values' ∧
  (∀ ast, parseTemplate m (fragments template) = OK ast →
     second = (evaluate ast values', first.2) ∧
     parseCount second.2 = parseCount first.2 ∧
     ∀ m' template' values'',
       cacheOf m (entry fragments m' first.2 template' values'').2
         !! template = Some ast) ∧
  (∀ err, parseTemplate m (fragments template) = Throw err →
     second.1 = Throw err ∧ parseCount second.2 = S (parseCount first.2)).
Proof.
  intros Hr first second.
  assert (reachable fragments first.2) as Hr1 by by constructor.
  split_and!.
  - by apply entry_fresh.
  - by apply entry_fresh.
  - intros ast Hparse.
    assert (cacheOf m first.2 !! template = Some ast) as Hcached.
    { destruct (cacheOf m c !! template) as [ast'|] eqn:Hlook.
      - pose proof (reachable_consistent fragments c Hr _ _ _ Hlook).
        assert (ast' = ast) as -> by congruence.
        unfold first. by rewrite (entry_hit fragments m c template values ast).
      - destruct (entry_miss fragments m c template values Hlook) as [_ Hin].
        by rewrite Hparse in Hin. }
    unfold second.
    rewrite (entry_hit fragments m first.2 template values' ast Hcached).
    split_and!; [done|done|].
    intros m' template' values''. by apply entry_keeps.
  - intros err Hparse.
    assert (cacheOf m first.2 !! template = None) as Hmissing.
    { destruct (cacheOf m first.2 !! template) as [ast|] eqn:Hlook; [|done].
      pose proof (reachable_consistent fragments _ Hr1 _ _ _ Hlook).
      congruence. }
    split.
    + unfold second. rewrite entry_fresh by done.
      unfold evaluateFresh. by rewrite Hparse.
    + by apply entry_miss.
Qed.

Lemma cache_equivalent_to_fresh_evaluation_witness :
  let fragments := QBackend.only [""; " * "; ""] in
  let first := math (Decimal := QBackend.QDecimal) fragments create
                    1%positive [QBackend.int 2; QBackend.int 3] in
  let second := math (Decimal := QBackend.QDecimal) fragments first.2
                     1%positive [QBackend.int 4; QBackend.int 5] in
  first.1 = OK (JDecimal 6%Q) ∧ second.1 = OK (JDecimal 20%Q) ∧
  parseCount second.2 = parseCount first.2.
Proof.
  destruct (cache_equivalent_to_fresh_evaluation
              (Decimal := QBackend.QDecimal) (QBackend.only [""; " * "; ""])
              MathMode create 1%positive
              [QBackend.int 2; QBackend.int 3]
              [QBackend.int 4; QBackend.int 5])
    as (H1 & H2 & Hok & _).
  - constructor.
  - destruct (Hok (binary OpMul (value 0) (value 1))) as (_ & Hcount & _).
    + reflexivity.
    + cbv zeta. split; [etransitivity; [exact H1|reflexivity]|].
      split; [etransitivity; [exact H2|reflexivity]|exact Hcount].
Defined.

(** * [sum] *)

Lemma interpret_call_one {Number D : Type}
  `{Decimal : DecimalConstructor Number D}
  (name : string) (a : ASTNode) (values : list (JSValue Number D)) :
  interpret (function name [a]) values =
  v ← interpret a values; interpretCall name [v].
Proof.
  cbn [interpret]. destruct (interpret a values) as [v|err]; done.
Qed.

(** C8.  [sum] applied to an argument that evaluates to an array calls the
    backend's variadic sum on the number 0 followed by the elements; given
    that this primitive folds [add] over its arguments from the constructed
    seed, the sum of the empty array is the backend's zero and the sum of an
    array of instances is their sum from zero.  Applied to an argument that
    evaluates to anything but an array, [sum] fails with a type error. *)
Theorem sum_of_array
  {Number D : Type} `{Decimal : DecimalConstructor Number D}
  (a : ASTNode) (values : list (JSValue Number D)) (zero : D) :
  (∀ seed xs,
     sum (seed :: List.map JDecimal xs) =
     s ← newDecimal seed; OK (fold_left add xs s)) →
  newDecimal (JNumber zeroNumber) = OK zero →
  (∀ elements, interpret a values = OK (JArray elements) →
     interpret (function "sum" [a]) values =
     JDecimal <$> sum (JNumber zeroNumber :: elements)) ∧
  (interpret a values = OK (JArray []) →
     interpret (function "sum" [a]) values = OK (JDecimal zero)) ∧
  (∀ xs, interpret a values = OK (JArray (List.map JDecimal xs)) →
     interpret (function "sum" [a]) values =
     OK (JDecimal (fold_left add xs zero))) ∧
  (∀ v, interpret a values = OK v → (∀ elements, v ≠ JArray elements) →
     interpret (function "sum" [a]) values = Throw SumRequiresArray ∧
     errorKind SumRequiresArray = TypeError).
Proof.
  intros Hsum Hzero. split_and!.
  - intros elements Ha. by rewrite interpret_call_one, Ha.
  - intros Ha. rewrite interpret_call_one, Ha. cbn [mbind result_bind].
    unfold interpretCall. cbn. by rewrite (Hsum _ []), Hzero.
  - intros xs Ha. rewrite interpret_call_one, Ha. cbn [mbind result_bind].
    unfold interpretCall. cbn. by rewrite Hsum, Hzero.
  - intros v Ha Hv. split; [|done].
    rewrite interpret_call_one, Ha. cbn [mbind result_bind].
    unfold interpretCall. cbn.
    destruct v; try done. by destruct (Hv elements).
Qed.

Lemma QBackend_sum_folds (seed : JSValue Z Q) (xs : list Q) :
  QBackend.sumOf (seed :: List.map JDecimal xs) =
  s ← QBackend.construct seed; OK (fold_left (λ x y, Qred (x + y)) xs s).
Proof.
  cbn [QBackend.sumOf]. destruct (QBackend.construct seed) as [s|err]; [|done].
  cbn [mbind result_bind].
  assert (mapM QBackend.construct (List.map JDecimal xs) = OK xs) as ->.
  { induction xs as [|x xs IH]; [done|]. cbn. by rewrite IH. }
  done.
Qed.

Lemma sum_of_array_witness :
  QBackend.run ["sum("; ")"] [JArray []] = OK (JDecimal 0%Q) ∧
  QBackend.run ["sum("; ")"]
    [JArray [JDecimal 1%Q; JDecimal 2%Q; JDecimal 3%Q]] = OK (JDecimal 6%Q) ∧
  QBackend.run ["sum("; ")"] [QBackend.int 1] = Throw SumRequiresArray.
Proof.
  split; [|split].
  - destruct (sum_of_array (Decimal := QBackend.QDecimal) (value 0)
                [JArray []] 0%Q QBackend_sum_folds eq_refl)
      as (_ & Hempty & _).
    etransitivity; [exact (Hempty eq_refl)|reflexivity].
  - destruct (sum_of_array (Decimal := QBackend.QDecimal) (value 0)
                [JArray [JDecimal 1%Q; JDecimal 2%Q; JDecimal 3%Q]] 0%Q
                QBackend_sum_folds eq_refl)
      as (_ & _ & Hfold & _).
    etransitivity; [exact (Hfold [1%Q; 2%Q; 3%Q] eq_refl)|reflexivity].
  - destruct (sum_of_array (Decimal := QBackend.QDecimal) (value 0)
                [JDecimal 1%Q] 0%Q QBackend_sum_folds eq_refl)
      as (_ & _ & _ & Hnot).
    destruct (Hnot (JDecimal 1%Q) eq_refl) as [H _]; [done|].
    etransitivity; [exact H|reflexivity].
Defined.

(** * Number tokens *)

(** C9.  Where the tokenizer stands on a digit followed by a run of digits
    and decimal points that nothing after it continues, it emits the whole
    run, however many points it holds, as one [NUMBER] token with that
    text, and goes on with what follows: the run itself raises no lexical
    error.  So [1.2.3] is the single token [NUMBER "1.2.3"], and what [math]
    returns on it is what the backend's constructor makes of that text (the
    reference backend rejects it). *)
Theorem number_run_is_one_token (c : ascii) (run rest : string) :
  isDigit c = true →
  allChars isNumberChar run = true →
  endsNumber rest = true →
  lexFragment (String c run +:+ rest) =
    push (NUMBER (String c run)) (lexFragment rest) ∧
  tokenize ["1.2.3"] = OK [NUMBER "1.2.3"; EOF] ∧
  (∀ (Number D : Type) (Decimal : DecimalConstructor Number D),
     (math (Decimal := Decimal) (λ _, ["1.2.3"]) create 1%positive []).1 =
     JDecimal <$> newDecimal (JString "1.2.3")) ∧
  QBackend.run ["1.2.3"] [] = Throw (BackendError "Invalid argument: 1.2.3").
Proof.
  intros Hc Hrun Hrest. split_and!; [|done| |done].
  - change (String c run +:+ rest) with (String c (run +:+ rest)).
    rewrite lexFragment_digit by done.
    by rewrite scanNumber_app.
  - intros Number D Decimal.
    by rewrite (math_first_call _ (number "1.2.3")).
Qed.

Lemma number_run_is_one_token_witness :
  lexFragment "1.2.3 + 4" = push (NUMBER "1.2.3") (lexFragment " + 4").
Proof.
  eapply (number_run_is_one_token "1" ".2.3" " + 4"); reflexivity.
Defined.

(** * Value indices *)

(** C10.  When there is one more fragment than there are values, every
    [VALUE] token of the template carries an index below the number of
    values, and every [value] node of the parsed AST, in either mode, has an
    index below the length of the preprocessed values: the interpreter reads
    no position outside them. *)
Theorem value_indices_in_bounds
  {Number D : Type} `{Decimal : DecimalConstructor Number D}
  (m : Mode) (template : list string) (values : list (JSValue Number D)) :
  length template = length values + 1 →
  (∀ toks, tokenize template = OK toks →
     Forall (isValueBelow (length values)) toks) ∧
  (∀ ast processed,
     parseTemplate m template = OK ast →
     preprocessValues values = OK processed →
     indicesBelow (length processed) ast).
Proof.
  intros Hlen.
  assert (length template - 1 = length values) as Hn by lia.
  split.
  - intros toks Htok. rewrite <- Hn. by apply tokenize_values.
  - intros ast processed Hparse Hpre.
    rewrite (preprocessValues_length _ _ Hpre), <- Hn.
    by eapply parseTemplate_indices.
Qed.

Lemma value_indices_in_bounds_witness :
  indicesBelow 2 (binary OpAdd (value 0) (value 1)).
Proof.
  destruct (value_indices_in_bounds (Decimal := QBackend.QDecimal) MathMode
              [""; " + "; ""] [QBackend.int 1; QBackend.int 2] eq_refl)
    as [_ H].
  exact (H (binary OpAdd (value 0) (value 1))
           [JDecimal 1%Q; JDecimal 2%Q] eq_refl eq_refl).
Defined.

(** * More on the tokenizer *)

Section TokenizerShape.
#[local] Arguments String.append !_ _ / : simpl nomatch.

Lemma valueIndices_app (ts us : list Token) :
  valueIndices (ts ++ us) = valueIndices ts ++ valueIndices us.
Proof. apply omap_app. Qed.

Lemma valueIndices_lexical (toks : list Token) :
  Forall lexical toks → valueIndices toks = [].
Proof.
  induction 1 as [|t toks Ht _ IH]; [done|].
  destruct t; try done; exact IH.
Qed.

Lemma tokenizeLoop_slots (i len : nat) (fragments : list string)
  (toks : list Token) :
  i + length fragments = len →
  tokenizeLoop i len fragments = OK toks →
  valueIndices toks = seq i (length fragments - 1).
Proof.
  revert i toks. induction fragments as [|str more IH]; intros i toks Hlen Htok.
  - by inversion Htok.
  - cbn [tokenizeLoop] in Htok.
    destruct (lexFragment str) as [ts|e] eqn:Hlex; [|discriminate].
    destruct (tokenizeLoop (S i) len more) as [later|e] eqn:Hlater;
      [|discriminate].
    inversion Htok; subst. simpl in *.
    rewrite !valueIndices_app.
    rewrite (valueIndices_lexical ts) by by eapply lexFragment_lexical.
    rewrite (IH (S i) later) by (done || lia).
    destruct more as [|str' more].
    + simpl. replace (i + 1 <? i + 1) with false; [done|].
      symmetry. apply Nat.ltb_ge. lia.
    + simpl. replace (i + 1 <? i + S (S (length more))) with true.
      * simpl. by rewrite Nat.sub_0_r.
      * symmetry. apply Nat.ltb_lt. lia.
Qed.

(** X1.  The tokens of a template end with its only [EOF], and its [VALUE]
    tokens are the interpolation slots in order: 0, 1, ... up to the number
    of fragments minus two. *)
Theorem tokenize_slots_in_order (template : list string) (toks : list Token) :
  tokenize template = OK toks →
  valueIndices toks = seq 0 (length template - 1) ∧
  ∃ body, toks = body ++ [EOF] ∧ Forall (λ t, t ≠ EOF) body.
Proof.
  intros Htok. split.
  - by apply (tokenizeLoop_slots 0 (length template)).
  - by eapply tokenizeLoop_EOF.
Qed.

Lemma tokenize_slots_in_order_witness :
  valueIndices [LPAREN; VALUE 0; OPERATOR OpAdd; VALUE 1; RPAREN;
                OPERATOR OpMul; VALUE 2; EOF] = [0; 1; 2].
Proof.
  apply (tokenize_slots_in_order ["("; " + "; ") * "; ""]). reflexivity.
Defined.

(** ** Lexical errors *)

Lemma lexOne_error (c : ascii) (rest : string) (e : Error) :
  lexOne c rest = Throw e →
  e = UnexpectedCharacter c ∧ isSimpleChar c = false.
Proof.
  unfold lexOne, isSimpleChar. intros Hone.
  destruct (isWhitespace c); [discriminate|].
  destruct (c =? "(")%char; [discriminate|].
  destruct (c =? ")")%char; [discriminate|].
  destruct (c =? ",")%char; [discriminate|].
  destruct ((c =? "*")%char && nextIs "*" rest); [discriminate|].
  destruct ((c =? "=")%char && nextIs "=" rest); [discriminate|].
  destruct ((c =? "!")%char && nextIs "=" rest); [discriminate|].
  destruct ((c =? "<")%char && nextIs "=" rest); [discriminate|].
  destruct ((c =? ">")%char && nextIs "=" rest); [discriminate|].
  destruct (c =? "<")%char; [discriminate|].
  destruct (c =? ">")%char; [discriminate|].
  destruct (c =? "+")%char; [discriminate|].
  destruct (c =? "-")%char; [discriminate|].
  destruct (c =? "*")%char; [discriminate|].
  destruct (c =? "/")%char; [discriminate|].
  destruct (isDigit c); [by destruct (scanNumber _ _)|].
  destruct (isLower c); [by destruct (scanName _ _)|].
  by inversion Hone.
Qed.

Lemma scanNumber_suffix (num r num' r' : string) :
  scanNumber num r = (num', r') →
  ∀ c, In c (list_ascii_of_string r') → In c (list_ascii_of_string r).
Proof.
  revert num. induction r as [|d r IH]; intros num Hs c Hc;
    cbn [scanNumber] in Hs.
  - by inversion Hs; subst.
  - destruct (isNumberChar d).
    + right. by eapply IH.
    + by inversion Hs; subst.
Qed.

Lemma scanName_suffix (name r name' r' : string) :
  scanName name r = (name', r') →
  ∀ c, In c (list_ascii_of_string r') → In c (list_ascii_of_string r).
Proof.
  revert name. induction r as [|d r IH]; intros name Hs c Hc;
    cbn [scanName] in Hs.
  - by inversion Hs; subst.
  - destruct (isLower d).
    + right. by eapply IH.
    + by inversion Hs; subst.
Qed.

Lemma lexOne_suffix (c : ascii) (rest : string) (t : option Token)
  (r : string) :
  lexOne c rest = OK (t, r) →
  ∀ d, In d (list_ascii_of_string r) → In d (list_ascii_of_string rest).
Proof.
  unfold lexOne. intros Hone d Hd.
  repeat match type of Hone with
  | (if ?b then _ else _) = _ => destruct b
  end;
  try discriminate;
  try (inversion Hone; subst; first [done | by destruct rest; [|right]]).
  - destruct (scanNumber _ _) as [num r0] eqn:Hs. inversion Hone; subst.
    by eapply scanNumber_suffix.
  - destruct (scanName _ _) as [name r0] eqn:Hs. inversion Hone; subst.
    by eapply scanName_suffix.
Qed.

Lemma lexFragment_error (s : string) (e : Error) :
  lexFragment s = Throw e →
  ∃ c, e = UnexpectedCharacter c ∧ In c (list_ascii_of_string s) ∧
       isSimpleChar c = false.
Proof.
  remember (String.length s) as k eqn:Hk.
  revert s Hk. induction k as [k IH] using lt_wf_ind.
  intros [|c rest] Hk Hlex; [discriminate|].
  rewrite lexFragment_step in Hlex.
  destruct (lexOne c rest) as [[t r]|e'] eqn:Hone.
  - pose proof (lexOne_suffix _ _ _ _ Hone) as Hsuffix.
    apply lexOne_spec in Hone as [Hlen _]. simpl in Hk, Hlex.
    assert (lexFragment r = Throw e) as Hr.
    { destruct (lexFragment r); destruct t; simpl in Hlex; congruence. }
    destruct (IH (String.length r)) with (s := r) as (d & -> & Hin & Hd);
      [lia|done|done|].
    exists d. split_and!; [done| |done]. right. by apply Hsuffix.
  - simpl in Hlex. inversion Hlex; subst.
    apply lexOne_error in Hone as [-> Hc].
    exists c. split_and!; [done| |done]. by left.
Qed.

Lemma tokenizeLoop_error (i len : nat) (fragments : list string) (e : Error) :
  tokenizeLoop i len fragments = Throw e →
  ∃ c str, e = UnexpectedCharacter c ∧ str ∈ fragments ∧
           In c (list_ascii_of_string str) ∧ isSimpleChar c = false.
Proof.
  revert i. induction fragments as [|str more IH]; intros i Htok;
    [discriminate|].
  cbn [tokenizeLoop] in Htok.
  destruct (lexFragment str) as [ts|e'] eqn:Hlex.
  - cbn [mbind result_bind] in Htok.
    destruct (tokenizeLoop (S i) len more) as [later|e'] eqn:Hlater;
      [discriminate|].
    inversion Htok; subst.
    destruct (IH _ Hlater) as (c & str' & -> & Hin & Hc & Hsimple).
    exists c, str'. split_and!; try done. by right.
  - inversion Htok; subst.
    destruct (lexFragment_error _ _ Hlex) as (c & -> & Hc & Hsimple).
    exists c, str. split_and!; try done. by left.
Qed.

(** X2.  The tokenizer fails in one way only: with the unexpected-character
    error, naming a character that stands in one of the fragments and is
    not among the characters accepted everywhere.  So a template written
    with blanks, parentheses, commas, [+ - * / < >], digits and lower-case
    letters always has tokens. *)
Theorem tokenize_fails_on_a_character (template : list string) :
  (∀ e, tokenize template = Throw e →
     ∃ c str, e = UnexpectedCharacter c ∧ str ∈ template ∧
              In c (list_ascii_of_string str) ∧ isSimpleChar c = false) ∧
  (Forall (λ str, allChars isSimpleChar str = true) template →
   ∃ toks, tokenize template = OK toks).
Proof.
  split; [intros e; apply tokenizeLoop_error|].
  intros Hall. destruct (tokenize template) as [toks|e] eqn:Htok; [eauto|].
  exfalso. apply tokenizeLoop_error in Htok
    as (c & str & _ & Hstr & Hc & Hsimple).
  rewrite Forall_forall in Hall. specialize (Hall _ Hstr).
  clear Hstr. induction str as [|d str IH]; [done|].
  simpl in Hall, Hc. apply andb_true_iff in Hall as [Hd Hall].
  destruct Hc as [->|Hc]; [congruence|auto].
Qed.

Lemma tokenize_fails_on_a_character_witness :
  ∃ toks, tokenize ["clamp(15 + "; ", 0, 10) * (2 - 3) / 4 < "; ""]
          = OK toks.
Proof.
  apply (tokenize_fails_on_a_character
           ["clamp(15 + "; ", 0, 10) * (2 - 3) / 4 < "; ""]).
  repeat constructor.
Defined.

End TokenizerShape.

(** * Names, and writing tokens back *)

Section TokenizerRoundTrip.
#[local] Arguments String.append !_ _ / : simpl nomatch.

Lemma scanName_app (run rest acc : string) :
  allChars isLower run = true →
  endsName rest = true →
  scanName acc (run +:+ rest) = (acc +:+ run, rest).
Proof.
  revert acc. induction run as [|c run IH]; intros acc Hrun Hrest; simpl in *.
  - rewrite append_empty_r.
    destruct rest as [|d rest]; simpl; first done.
    unfold endsName in Hrest. simpl in Hrest.
    apply negb_true_iff in Hrest. by rewrite Hrest.
  - apply andb_true_iff in Hrun as [Hc Hrun]. rewrite Hc.
    rewrite IH by done. by rewrite append_assoc.
Qed.

(** A lower-case letter takes none of the earlier branches. *)
Lemma lexFragment_lower (c : ascii) (rest : string) :
  isLower c = true →
  lexFragment (String c rest) =
  let '(name, r) := scanName (String c "") rest in
  push (FUNCTION name) (lexFragment r).
Proof.
  intros Hc. rewrite lexFragment_step.
  assert (lexOne c rest =
          let '(name, r) := scanName (String c "") rest in
          OK (Some (FUNCTION name), r)) as ->.
  { destruct c as [[] [] [] [] [] [] [] []]; try discriminate Hc; reflexivity. }
  by destruct (scanName _ _).
Qed.

(** X3.  Where the tokenizer stands on a lower-case letter followed by a run
    of lower-case letters that nothing after it continues, it emits the
    whole run as one [FUNCTION] token with that text, whether or not it is
    the name of a function, and goes on with what follows. *)
Theorem name_run_is_one_token (c : ascii) (run rest : string) :
  isLower c = true →
  allChars isLower run = true →
  endsName rest = true →
  lexFragment (String c run +:+ rest) =
  push (FUNCTION (String c run)) (lexFragment rest).
Proof.
  intros Hc Hrun Hrest.
  change (String c run +:+ rest) with (String c (run +:+ rest)).
  rewrite lexFragment_lower by done.
  by rewrite scanName_app.
Qed.

Lemma name_run_is_one_token_witness :
  lexFragment "foo(1)" = push (FUNCTION "foo") (lexFragment "(1)").
Proof.
  apply (name_run_is_one_token "f" "oo" "(1)"); reflexivity.
Defined.

(** ** Writing tokens back *)

Lemma lex_blank (f : string) : lexFragment (String " " f) = lexFragment f.
Proof. by rewrite lexFragment_step. Qed.

Lemma lex_token (t : Token) (f : string) :
  printable t = true →
  lexFragment (renderToken t +:+ " " +:+ f) = push t (lexFragment f).
Proof.
  intros Ht. destruct t as [i|text|op|name| | | |]; try discriminate.
  - destruct text as [|c run]; [discriminate|].
    simpl in Ht. apply andb_true_iff in Ht as [Hc Hrun].
    cbn [renderToken].
    change (String c run +:+ " " +:+ f) with (String c (run +:+ String " " f)).
    rewrite lexFragment_digit by done.
    rewrite scanNumber_app by done. by rewrite lex_blank.
  - destruct op; cbn [renderToken renderOperator append];
      rewrite lexFragment_step; cbn -[lexFragment]; by rewrite lex_blank.
  - destruct name as [|c run]; [discriminate|].
    simpl in Ht. apply andb_true_iff in Ht as [Hc Hrun].
    cbn [renderToken].
    change (String c run +:+ " " +:+ f) with (String c (run +:+ String " " f)).
    rewrite lexFragment_lower by done.
    rewrite scanName_app by done. by rewrite lex_blank.
  - cbn [renderToken append]. rewrite lexFragment_step. cbn -[lexFragment].
    by rewrite lex_blank.
  - cbn [renderToken append]. rewrite lexFragment_step. cbn -[lexFragment].
    by rewrite lex_blank.
  - cbn [renderToken append]. rewrite lexFragment_step. cbn -[lexFragment].
    by rewrite lex_blank.
Qed.

Lemma renderTemplate_length (toks : list Token) :
  length (renderTemplate toks) = S (length (valueIndices toks)).
Proof.
  induction toks as [|t toks IH]; [done|].
  destruct t; cbn [renderTemplate]; try (by simpl; rewrite IH).
  all: destruct (renderTemplate toks) as [|fragment more]; [discriminate|].
  all: exact IH.
Qed.

Lemma tokenizeLoop_push (i len : nat) (t : Token) (s s' : string)
  (more : list string) :
  lexFragment s' = push t (lexFragment s) →
  tokenizeLoop i len (s' :: more) = push t (tokenizeLoop i len (s :: more)).
Proof.
  intros Hlex. cbn [tokenizeLoop]. rewrite Hlex.
  destruct (lexFragment s) as [ts|e]; [|done]. simpl.
  by destruct (tokenizeLoop (S i) len more).
Qed.

Lemma tokenizeLoop_renderTemplate (toks : list Token) (i len : nat) :
  forallb printableOrValue toks = true →
  len = i + length (renderTemplate toks) →
  tokenizeLoop i len (renderTemplate toks) = OK (renumber i toks ++ [EOF]).
Proof.
  revert i. induction toks as [|t toks IH]; intros i Hall Hlen.
  - simpl in *. subst.
    replace (i + 1 <? i + 1) with false; [done|].
    symmetry. apply Nat.ltb_ge. lia.
  - cbn [forallb] in Hall. apply andb_true_iff in Hall as [Ht Hall].
    assert ((∃ k, t = VALUE k) ∨ printable t = true) as [[k ->]|Hp].
    { destruct t; eauto. }
    + cbn [renderTemplate renumber tokenizeLoop lexFragment] in *.
      cbn [mbind result_bind].
      simpl in Hlen.
      rewrite (IH (S i)) by (done || lia). cbn [mbind result_bind].
      pose proof (renderTemplate_length toks).
      replace (i + 1 <? len) with true; [done|].
      symmetry. apply Nat.ltb_lt. lia.
    + assert (renderTemplate (t :: toks) =
              match renderTemplate toks with
              | fragment :: more =>
                (renderToken t +:+ " " +:+ fragment) :: more
              | [] => []
              end) as Hr by by destruct t.
      assert (renumber i (t :: toks) = t :: renumber i toks) as ->
        by by destruct t.
      rewrite Hr in *.
      destruct (renderTemplate toks) as [|fragment more] eqn:Hrt.
      { pose proof (renderTemplate_length toks) as Hl. by rewrite Hrt in Hl. }
      rewrite (tokenizeLoop_push i len t fragment) by by apply lex_token.
      by rewrite IH.
Qed.

Lemma renumber_in_order (k : nat) (toks : list Token) :
  valueIndices toks = seq k (length (valueIndices toks)) →
  renumber k toks = toks.
Proof.
  revert k. induction toks as [|t toks IH]; intros k Hk; [done|].
  destruct t as [i| | | | | | |]; cbn [renumber];
    try (f_equal; by apply IH).
  change (valueIndices (VALUE i :: toks)) with (i :: valueIndices toks) in Hk.
  simpl in Hk. inversion Hk as [[Hi Hrest]]. f_equal. by apply IH.
Qed.

(** X4.  Writing tokens back and tokenizing is the identity: a stream of
    spelled tokens and [VALUE] tokens, written as a template (a blank after
    each token, a new fragment at each [VALUE]), is tokenized to the same
    stream with the [VALUE] tokens numbered from 0, followed by [EOF]; when
    they are numbered from 0 already this is the stream itself.  So every
    such stream is the token stream of a template. *)
Theorem tokenize_renderTemplate (toks : list Token) :
  forallb printableOrValue toks = true →
  tokenize (renderTemplate toks) = OK (renumber 0 toks ++ [EOF]) ∧
  (valueIndices toks = seq 0 (length (valueIndices toks)) →
   tokenize (renderTemplate toks) = OK (toks ++ [EOF])).
Proof.
  intros Hall.
  assert (tokenize (renderTemplate toks) = OK (renumber 0 toks ++ [EOF]))
    as Htok by by apply tokenizeLoop_renderTemplate.
  split; [done|]. intros Horder. by rewrite Htok, renumber_in_order.
Qed.

Lemma tokenize_renderTemplate_witness :
  tokenize ["abs ( "; "- 2.5 ) ** "; ""] =
  OK [FUNCTION "abs"; LPAREN; VALUE 0; OPERATOR OpSub; NUMBER "2.5"; RPAREN;
      OPERATOR OpPow; VALUE 1; EOF].
Proof.
  apply (tokenize_renderTemplate
           [FUNCTION "abs"; LPAREN; VALUE 0; OPERATOR OpSub; NUMBER "2.5";
            RPAREN; OPERATOR OpPow; VALUE 1]); reflexivity.
Defined.

End TokenizerRoundTrip.

(** * More on the parser *)

(** ** The parser stays within the tokens *)

Lemma endsWithEOF_advance (p : ASTParser) (t : Token) :
  endsWithEOF (tokens p) → current p = Some t → t ≠ EOF →
  pos (advance p) < length (tokens p).
Proof.
  unfold endsWithEOF, current. intros Hlast Hcur Ht. simpl.
  pose proof (lookup_lt_Some _ _ _ Hcur) as Hlt.
  rewrite last_lookup in Hlast.
  destruct (decide (pos p = pred (length (tokens p)))) as [Heq|Hne]; [|lia].
  rewrite <- Heq, Hcur in Hlast. by inversion Hlast.
Qed.

Lemma current_in_bounds (p : ASTParser) :
  pos p < length (tokens p) → ∃ t, current p = Some t.
Proof. intros Hlt. by apply lookup_lt_is_Some_2. Qed.

Lemma inBounds_same {A} (p q : ASTParser) (r : result (A * ASTParser)) :
  tokens q = tokens p → inBounds q r → inBounds p r.
Proof.
  intros Hq Hr. destruct r as [[a q']|e]; [|done].
  destruct Hr as [Ht Hlt]. split; [congruence|by rewrite <- Hq].
Qed.

Lemma inBounds_bind {A B} (p p1 : ASTParser) (m : result (A * ASTParser))
  (f : A * ASTParser → result (B * ASTParser)) :
  tokens p1 = tokens p →
  inBounds p1 m →
  (∀ a p', m = OK (a, p') → tokens p' = tokens p →
           pos p' < length (tokens p) → inBounds p (f (a, p'))) →
  inBounds p (m ≫= f).
Proof.
  intros Ht Hm Hf. destruct m as [[a p']|e]; [|done].
  cbn [mbind result_bind]. destruct Hm as [Ht' Hlt].
  apply Hf; [done|congruence|by rewrite <- Ht].
Qed.

Lemma checkComparison_inBounds (op : Operator) (top : bool) (p : ASTParser) :
  match checkComparison op top p with
  | OK p' => tokens p' = tokens p ∧ pos p' = pos p
  | Throw e => parseError e
  end.
Proof.
  unfold checkComparison, parseError.
  destruct (COMPARISON_OPS op); [|done].
  destruct (mode p); [simpl; auto|].
  destruct (negb top); [simpl; auto|].
  destruct (hasTopLevelComparison p); simpl; auto.
Qed.

Lemma validateCall_parseError (name : string) (args : list ASTNode) (e : Error) :
  validateCall name args = Throw e → parseError e.
Proof.
  unfold validateCall, parseError. intros H.
  repeat match type of H with
  | (if ?b then _ else _) = _ => destruct b
  end; inversion H; subst; simpl; auto.
Qed.

(** The argument loop returns standing on a closing parenthesis. *)
Lemma parseArguments_RPAREN (fuel : nat) (acc : list ASTNode)
  (q : ASTParser) (args : list ASTNode) (p1 : ASTParser) :
  parseArguments fuel acc q = OK (args, p1) → current p1 = Some RPAREN.
Proof.
  revert acc q. induction fuel as [|fuel IH]; intros acc q H; [discriminate|].
  rewrite parseArguments_S in H.
  destruct (current q) as [t|] eqn:Hq; [|discriminate].
  assert (t = RPAREN ∨
    ('(a, p) ← parseExpression fuel 0 false q;
     match current p with
     | None => undefinedToken
     | Some COMMA => parseArguments fuel (acc ++ [a]) (advance p)
     | Some RPAREN => parseArguments fuel (acc ++ [a]) p
     | Some _ => Throw ExpectedCommaOrRParen
     end) = OK (args, p1)) as [->|H'].
  { destruct t; auto. }
  { by inversion H; subst. }
  apply bind_OK in H' as ([a q1] & _ & H'). cbv beta iota in H'.
  destruct (current q1) as [[]|]; try discriminate; by eapply IH.
Qed.

Lemma parse_inBounds (fuel : nat) :
  (∀ p, endsWithEOF (tokens p) → pos p < length (tokens p) →
     inBounds p (parsePrimary fuel p)) ∧
  (∀ args p, endsWithEOF (tokens p) → pos p < length (tokens p) →
     inBounds p (parseArguments fuel args p)) ∧
  (∀ minPrec top p, endsWithEOF (tokens p) → pos p < length (tokens p) →
     inBounds p (parseExpression fuel minPrec top p)) ∧
  (∀ minPrec top l p, endsWithEOF (tokens p) → pos p < length (tokens p) →
     inBounds p (parseExpressionLoop fuel minPrec top l p)).
Proof.
  induction fuel as [|fuel (IHprim & IHargs & IHexpr & IHloop)].
  { repeat split; intros; right; by right. }
  split_and!.
  - intros p Heof Hlt. rewrite parsePrimary_S.
    destruct (current_in_bounds p Hlt) as [t Hcur]. rewrite Hcur.
    pose proof (endsWithEOF_advance p t Heof Hcur) as Hadv.
    destruct t as [index|text|op|name| | | |];
      try (simpl; split; [done|by apply Hadv]);
      try (left; done).
    + assert (inBounds p ('(operand, p0) ← parsePrimary fuel (advance p);
                          OK (unary op operand, p0))) as Hun.
      { apply (inBounds_bind p (advance p)); [done| |by intros].
        apply IHprim; [done|by apply Hadv]. }
      destruct op; (exact Hun || by left).
    + destruct (current_in_bounds (advance p)) as [t' Hcur'];
        [by apply Hadv|].
      rewrite Hcur'.
      pose proof (endsWithEOF_advance (advance p) t' Heof Hcur') as Hadv'.
      destruct t'; try (by left).
      apply (inBounds_bind p (advance (advance p))); [done| |].
      { apply IHargs; [done|by apply Hadv']. }
      intros args p1 Hargs Ht1 Hlt1.
      destruct (validateCall name args) as [node|e] eqn:Hval.
      * cbn [mbind result_bind]. split; [done|].
        pose proof (parseArguments_RPAREN _ _ _ _ _ Hargs) as Hcur1.
        rewrite <- Ht1.
        apply (endsWithEOF_advance p1 RPAREN); [by rewrite Ht1|done|done].
      * cbn [mbind result_bind]. by eapply validateCall_parseError.
    + apply (inBounds_bind p (advance p)); [done| |].
      { apply IHexpr; [done|by apply Hadv]. }
      intros expr p1 _ Ht1 Hlt1.
      destruct (current_in_bounds p1) as [t1 Hcur1]; [by rewrite Ht1|].
      rewrite Hcur1.
      destruct t1; try (by left). split; [done|].
      rewrite <- Ht1.
      apply (endsWithEOF_advance p1 RPAREN); [by rewrite Ht1|done|done].
  - intros args p Heof Hlt. rewrite parseArguments_S.
    destruct (current_in_bounds p Hlt) as [t Hcur]. rewrite Hcur.
    assert (inBounds p
      ('(a, p0) ← parseExpression fuel 0 false p;
       match current p0 with
       | None => undefinedToken
       | Some COMMA => parseArguments fuel (args ++ [a]) (advance p0)
       | Some RPAREN => parseArguments fuel (args ++ [a]) p0
       | Some _ => Throw ExpectedCommaOrRParen
       end)) as Hbody.
    { apply (inBounds_bind p p); [done|by apply IHexpr|].
      intros a p1 _ Ht1 Hlt1.
      destruct (current_in_bounds p1) as [t1 Hcur1]; [by rewrite Ht1|].
      rewrite Hcur1.
      destruct t1; try (by left).
      - apply (inBounds_same p p1); [done|].
        apply IHargs; by rewrite Ht1.
      - apply (inBounds_same p (advance p1)); [done|].
        apply IHargs; [by rewrite <- Ht1 in Heof|].
        apply (endsWithEOF_advance p1 COMMA); [by rewrite Ht1|done|done]. }
    destruct t; try exact Hbody. by split.
  - intros minPrec top p Heof Hlt. rewrite parseExpression_S.
    apply (inBounds_bind p p); [done|by apply IHprim|].
    intros l p1 _ Ht1 Hlt1.
    apply (inBounds_same p p1); [done|].
    apply IHloop; by rewrite Ht1.
  - intros minPrec top l p Heof Hlt. rewrite parseExpressionLoop_S.
    destruct (current_in_bounds p Hlt) as [t Hcur]. rewrite Hcur.
    destruct t as [index|text|op|name| | | |]; try by split.
    destruct (PRECEDENCE op <? minPrec); [by split|].
    pose proof (checkComparison_inBounds op top p) as Hcheck.
    destruct (checkComparison op top p) as [p0|e]; [|done].
    destruct Hcheck as [Ht0 Hp0]. cbn [mbind result_bind].
    assert (pos (advance p0) < length (tokens p)) as Hadv.
    { simpl. rewrite Hp0.
      by apply (endsWithEOF_advance p (OPERATOR op)). }
    apply (inBounds_bind p (advance p0)); [done| |].
    { apply IHexpr; simpl; by rewrite Ht0. }
    intros r p3 _ Ht3 Hlt3.
    apply (inBounds_same p p3); [done|].
    apply IHloop; by rewrite Ht3.
Qed.

(** X5.  Turning a template into an AST fails only with an error of the
    tokenizer or of the parser: a lexical, a syntax or a mode error.  In
    particular the parser never reads past the final [EOF] token (no
    [undefined] token is ever inspected), and its recursion ends. *)
Theorem parseTemplate_error_kinds (m : Mode) (template : list string)
  (err : Error) :
  parseTemplate m template = Throw err →
  errorKind err = LexicalError ∨ errorKind err = SyntaxError ∨
  errorKind err = ModeError.
Proof.
  unfold parseTemplate. intros H.
  destruct (tokenize template) as [toks|e] eqn:Htok.
  2:{ inversion H; subst.
      apply tokenizeLoop_error in Htok as (c & str & -> & _). by left. }
  cbn [mbind result_bind] in H.
  pose proof (parseExpression_total m toks) as Hfuel.
  apply tokenizeLoop_EOF in Htok as (body & -> & _).
  set (toks := body ++ [EOF]) in *.
  assert (endsWithEOF toks) as Heof by apply last_snoc.
  assert (0 < length toks) as Hlen by (unfold toks; rewrite length_app; simpl; lia).
  destruct (parse_inBounds (parseFuel toks)) as (_ & _ & Hexpr & _).
  specialize (Hexpr 0 true (newASTParser toks m) Heof Hlen).
  unfold parseTokens in H, Hfuel.
  destruct (parseExpression _ _ _ _) as [[ast p]|e].
  - destruct Hexpr as [Ht Hlt]. cbn [mbind result_bind] in H.
    destruct (current_in_bounds p) as [t Hcur]; [by rewrite Ht|].
    rewrite Hcur in H.
    destruct t; try (inversion H; subst; right; by left).
    destruct m; [discriminate|].
    destruct (negb _); inversion H; subst. right. by right.
  - cbn [mbind result_bind] in H, Hfuel. inversion H; subst.
    destruct Hexpr as [?|[?| ->]]; auto. done.
Qed.

Lemma parseTemplate_error_kinds_witness :
  errorKind (UnexpectedToken TyEOF) = LexicalError ∨
  errorKind (UnexpectedToken TyEOF) = SyntaxError ∨
  errorKind (UnexpectedToken TyEOF) = ModeError.
Proof.
  apply (parseTemplate_error_kinds MathMode ["(1 + "]). reflexivity.
Defined.

(** ** The parser builds valid trees *)

Lemma validateCall_valid (name : string) (args : list ASTNode)
  (node : ASTNode) :
  validateCall name args = OK node →
  forallb validAST args = true → validAST node = true.
Proof.
  unfold validateCall. intros H Hargs.
  destruct (includes validFunctions name) eqn:Hin; [|discriminate].
  cbn [negb] in H. unfold arity. cbn [validAST].
  destruct (name =? "clamp")%string eqn:Hclamp; cbn [andb negb] in H.
  - destruct (length args =? 3) eqn:Hlen; [|discriminate].
    inversion H; subst. cbn [validAST]. unfold arity.
    by rewrite Hin, Hclamp, Hlen, Hargs.
  - destruct (length args =? 1) eqn:Hlen; [|discriminate].
    inversion H; subst. cbn [validAST]. unfold arity.
    by rewrite Hin, Hclamp, Hlen, Hargs.
Qed.

Lemma parse_valid (fuel : nat) :
  (∀ p a p', parsePrimary fuel p = OK (a, p') → validAST a = true) ∧
  (∀ args p l p', parseArguments fuel args p = OK (l, p') →
     forallb validAST args = true → forallb validAST l = true) ∧
  (∀ minPrec top p a p', parseExpression fuel minPrec top p = OK (a, p') →
     validAST a = true) ∧
  (∀ minPrec top l p a p',
     parseExpressionLoop fuel minPrec top l p = OK (a, p') →
     validAST l = true → validAST a = true).
Proof.
  induction fuel as [|fuel (IHprim & IHargs & IHexpr & IHloop)].
  { repeat split; intros; discriminate. }
  split_and!.
  - intros p a p' H. rewrite parsePrimary_S in H. inv_result H.
    + done.
    + done.
    + by apply IHprim in Hx.
    + by apply IHprim in Hx.
    + apply IHargs in Hx; [|done]. by eapply validateCall_valid.
    + by apply IHexpr in Hx.
  - intros args p l p' H Hargs. rewrite parseArguments_S in H.
    destruct (current p) as [t|] eqn:Hcur; [|discriminate].
    assert (t = RPAREN ∨
            ('(a, p) ← parseExpression fuel 0 false p;
             match current p with
             | None => undefinedToken
             | Some COMMA => parseArguments fuel (args ++ [a]) (advance p)
             | Some RPAREN => parseArguments fuel (args ++ [a]) p
             | Some _ => Throw ExpectedCommaOrRParen
             end) = OK (l, p')) as [->|H'].
    { destruct t; auto. }
    { by inversion H; subst. }
    clear H. inv_result H'.
    all: apply IHexpr in Hx.
    all: apply IHargs in H'; [done|].
    all: by rewrite forallb_app, Hargs; simpl; rewrite Hx.
  - intros minPrec top p a p' H. rewrite parseExpression_S in H.
    inv_result H. apply IHprim in Hx. by apply IHloop in H.
  - intros minPrec top l p a p' H Hl. rewrite parseExpressionLoop_S in H.
    destruct (current p) as [t|] eqn:Hcur; [|discriminate].
    destruct t as [index|text|op|name| | | |];
      try (by inversion H; subst).
    inv_result H; [done|].
    apply IHexpr in Hx0. apply IHloop in H; [done|].
    simpl. by rewrite Hl, Hx0.
Qed.

Lemma parseTemplate_valid (m : Mode) (template : list string) (ast : ASTNode) :
  parseTemplate m template = OK ast → validAST ast = true.
Proof.
  unfold parseTemplate, parseTokens. intros H.
  apply bind_OK in H as (toks & _ & H).
  apply bind_OK in H as ([a p] & Hparse & H). cbv beta iota in H.
  destruct (parse_valid (parseFuel toks)) as (_ & _ & Hexpr & _).
  apply Hexpr in Hparse.
  assert (a = ast) as <- by (inv_result H; done). done.
Qed.

(** * More on values and the interpreter *)

Section ASTInduction.
Variable P : ASTNode → Prop.
Hypothesis Hvalue : ∀ index, P (value index).
Hypothesis Hnumber : ∀ text, P (number text).
Hypothesis Hunary : ∀ op operand, P operand → P (unary op operand).
Hypothesis Hbinary : ∀ op l r, P l → P r → P (binary op l r).
Hypothesis Hfunction : ∀ name args, Forall P args → P (function name args).

Fixpoint ASTNode_nested_ind (node : ASTNode) : P node :=
  match node with
  | value index => Hvalue index
  | number text => Hnumber text
  | unary op operand => Hunary op operand (ASTNode_nested_ind operand)
  | binary op l r =>
    Hbinary op l r (ASTNode_nested_ind l) (ASTNode_nested_ind r)
  | function name args =>
    Hfunction name args
      ((fix all (nodes : list ASTNode) : Forall P nodes :=
          match nodes with
          | [] => Forall_nil_2 P
          | a :: nodes => Forall_cons_2 P a nodes (ASTNode_nested_ind a) (all nodes)
          end) args)
  end.
End ASTInduction.

Section Interpreter.
Context {Number D : Type} `{Decimal : DecimalConstructor Number D}.
Implicit Types (v : JSValue Number D) (values : list (JSValue Number D)).

(** ** The value preprocessor *)

Lemma preprocessValue_spec v w :
  preprocessValue v = OK w →
  isProcessed w = true ∧
  (isProcessed v = true → w = v) ∧
  (isProcessed v = false → ∃ d, newDecimal v = OK d ∧ w = JDecimal d).
Proof.
  destruct v; simpl; intros H;
    try (inversion H; subst; by repeat split);
    destruct (newDecimal _) as [d|e] eqn:Hnew; try discriminate;
    inversion H; subst; repeat split; try done; eauto.
Qed.

Lemma preprocessValues_cons v values processed :
  preprocessValues (v :: values) = OK processed ↔
  ∃ w ws, preprocessValue v = OK w ∧ preprocessValues values = OK ws ∧
          processed = w :: ws.
Proof.
  unfold preprocessValues. split.
  - intros H. simpl in H. apply bind_OK in H as (w & Hw & H).
    apply bind_OK in H as (ws & Hws & H). inversion H; subst. eauto.
  - intros (w & ws & Hw & Hws & ->). simpl. rewrite Hw. simpl.
    by rewrite Hws.
Qed.

Lemma preprocessValues_lookup values processed :
  preprocessValues values = OK processed →
  ∀ i w, processed !! i = Some w →
    ∃ v, values !! i = Some v ∧ preprocessValue v = OK w.
Proof.
  revert processed. induction values as [|v values IH]; intros processed H.
  - inversion H; subst. by intros i w Hi.
  - apply preprocessValues_cons in H as (w0 & ws & Hw & Hws & ->).
    intros [|i] w Hi; simpl in *.
    + inversion Hi; subst. eauto.
    + by eapply IH.
Qed.

Lemma preprocessValues_fixed processed :
  Forall (λ w, isProcessed w = true) processed →
  preprocessValues processed = OK processed.
Proof.
  induction 1 as [|w ws Hw _ IH]; [done|].
  apply preprocessValues_cons. exists w, ws. split_and!; [|done|done].
  by destruct w.
Qed.

Lemma preprocessValues_processed values processed :
  preprocessValues values = OK processed →
  Forall (λ w, isProcessed w = true) processed.
Proof.
  intros H. apply Forall_lookup. intros i w Hi.
  destruct (preprocessValues_lookup _ _ H i w Hi) as (v & _ & Hv).
  by apply preprocessValue_spec in Hv as [? _].
Qed.

(** X6.  The value preprocessor keeps the number and order of the values,
    passes backend instances and arrays through unchanged (an array's
    elements are not looked at), replaces every other value by the instance
    the backend constructs from it, and so returns instances and arrays
    only; applied to its own result it changes nothing. *)
Theorem preprocessValues_shape values processed :
  preprocessValues values = OK processed →
  length processed = length values ∧
  Forall (λ w, isProcessed w = true) processed ∧
  (∀ i v, values !! i = Some v → isProcessed v = true →
     processed !! i = Some v) ∧
  (∀ i v, values !! i = Some v → isProcessed v = false →
     ∃ d, newDecimal v = OK d ∧ processed !! i = Some (JDecimal d)) ∧
  preprocessValues processed = OK processed.
Proof.
  intros H.
  assert (length processed = length values) as Hlen
    by by apply preprocessValues_length.
  assert (Forall (λ w, isProcessed w = true) processed) as Hall
    by by apply (preprocessValues_processed values).
  assert (∀ i v, values !! i = Some v →
            ∃ w, processed !! i = Some w ∧ preprocessValue v = OK w) as Hat.
  { intros i v Hi.
    destruct (lookup_lt_is_Some_2 processed i) as [w Hw].
    { rewrite Hlen. by eapply lookup_lt_Some. }
    destruct (preprocessValues_lookup _ _ H i w Hw) as (v' & Hv' & Hpre).
    exists w. split; [done|]. congruence. }
  split_and!; [done|done| | |by apply preprocessValues_fixed].
  - intros i v Hi Hv. destruct (Hat i v Hi) as (w & Hw & Hpre).
    apply preprocessValue_spec in Hpre as (_ & Hsame & _).
    by rewrite Hw, Hsame.
  - intros i v Hi Hv. destruct (Hat i v Hi) as (w & Hw & Hpre).
    apply preprocessValue_spec in Hpre as (_ & _ & Hnew).
    destruct (Hnew Hv) as (d & Hd & ->). eauto.
Qed.

End Interpreter.

Lemma preprocessValues_shape_witness :
  preprocessValues (Decimal := QBackend.QDecimal)
    [JDecimal (1 # 2); JArray [QBackend.int 7]; JDecimal 3%Q] =
  OK [JDecimal (1 # 2); JArray [QBackend.int 7]; JDecimal 3%Q].
Proof.
  eapply (preprocessValues_shape (Decimal := QBackend.QDecimal)
            [JDecimal (1 # 2); JArray [QBackend.int 7]; QBackend.int 3]).
  reflexivity.
Defined.

(** ** What the interpreter returns and throws *)

Section InterpreterResults.
Context {Number D : Type} `{Decimal : DecimalConstructor Number D}.
Implicit Types (v : JSValue Number D) (values : list (JSValue Number D)).

Lemma fmap_OK {A B} (f : A → B) (m : result A) (b : B) :
  f <$> m = OK b → ∃ a, m = OK a ∧ b = f a.
Proof. destruct m as [a|e]; [|done]. intros [= <-]. eauto. Qed.

Lemma fmap_Throw {A B} (f : A → B) (m : result A) (e : Error) :
  f <$> m = Throw e → m = Throw e.
Proof. destruct m as [a|e']; [done|]. by intros [= ->]. Qed.

Lemma callMethod_OK method receiver (body : D → result (JSValue Number D)) v :
  callMethod method receiver body = OK v →
  ∃ d, receiver = JDecimal d ∧ body d = OK v.
Proof. destruct receiver; try done. eauto. Qed.

Lemma interpretCall_OK name (args : list (JSValue Number D)) v :
  interpretCall name args = OK v → ∃ d, v = JDecimal d.
Proof.
  unfold interpretCall. intros H.
  repeat match type of H with
  | (if ?b then _ else _) = _ => destruct b
  end; try discriminate;
  try (apply callMethod_OK in H as (d & _ & H)).
  1-4: inversion H; eauto.
  - apply fmap_OK in H as (d' & _ & ->). eauto.
  - destruct (arg 0 args); try discriminate.
    apply fmap_OK in H as (d' & _ & ->). eauto.
Qed.

Lemma interpretUnary_OK op operand v :
  interpretUnary op operand = OK v → ∃ d, v = JDecimal d.
Proof.
  destruct operand; try done. destruct op; try done; intros [= <-]; eauto.
Qed.

Lemma interpretBinary_OK op l r v :
  interpretBinary op l r = OK v →
  if COMPARISON_OPS op then ∃ b, v = JBoolean b else ∃ d, v = JDecimal d.
Proof.
  destruct l; try done. destruct r; try done.
  intros [= <-]. destruct op; cbn; eauto.
Qed.

(** What a node evaluates to, when it evaluates: a value node to the value
    at its index, a comparison to a boolean, anything else to an instance. *)
Lemma interpret_OK (node : ASTNode) values v :
  interpret node values = OK v →
  match node with
  | value index => v = nth index values JUndefined
  | binary op _ _ =>
    if COMPARISON_OPS op then ∃ b, v = JBoolean b else ∃ d, v = JDecimal d
  | _ => ∃ d, v = JDecimal d
  end.
Proof.
  destruct node as [index|text|op operand|op l r|name args];
    cbn [interpret]; intros H.
  - by inversion H.
  - apply fmap_OK in H as (d & _ & ->). eauto.
  - apply bind_OK in H as (w & _ & H). by eapply interpretUnary_OK.
  - apply bind_OK in H as (x & _ & H). apply bind_OK in H as (y & _ & H).
    by eapply interpretBinary_OK.
  - apply bind_OK in H as (vs & _ & H). by eapply interpretCall_OK.
Qed.

Lemma interpret_isResult (node : ASTNode) values v :
  Forall (λ w, isProcessed w = true) values →
  indicesBelow (length values) node →
  interpret node values = OK v → isResult v = true.
Proof.
  intros Hall Hbelow H. apply interpret_OK in H.
  destruct node as [index|text|op operand|op l r|name args].
  - cbn [indicesBelow] in Hbelow.
    destruct (lookup_lt_is_Some_2 values index Hbelow) as [w Hw].
    rewrite (nth_lookup_Some _ _ _ _ Hw) in H. subst v.
    rewrite Forall_lookup in Hall. specialize (Hall _ _ Hw).
    by destruct w.
  - by destruct H as [d ->].
  - by destruct H as [d ->].
  - destruct (COMPARISON_OPS op); by destruct H as [x ->].
  - by destruct H as [d ->].
Qed.

Lemma mapM_result_Forall2 {A B} (f : A → result B) (l : list A) (k : list B) :
  mapM f l = OK k → Forall2 (λ x y, f x = OK y) l k.
Proof.
  revert k. induction l as [|x l IH]; intros k H; simpl in H.
  - inversion H. constructor.
  - apply bind_OK in H as (y & Hy & H). apply bind_OK in H as (k' & Hk & H).
    inversion H; subst. constructor; [done|by apply IH].
Qed.

Lemma mapM_result_Throw {A B} (f : A → result B) (l : list A) (e : Error) :
  mapM f l = Throw e → Exists (λ x, f x = Throw e) l.
Proof.
  induction l as [|x l IH]; intros H; simpl in H; [done|].
  apply bind_Throw in H as [H|(y & Hy & H)]; [by left|].
  apply bind_Throw in H as [H|(k & Hk & H)]; [|done].
  right. by apply IH.
Qed.

(** The argument loop of [interpret] is a monadic map. *)
Lemma interpret_function name (args : list ASTNode) values :
  interpret (function name args) values =
  mapM (λ a, interpret a values) args ≫= interpretCall name.
Proof. reflexivity. Qed.

Lemma callMethod_Throw method receiver
  (body : D → result (JSValue Number D)) err :
  method ∈ ["abs"; "ceil"; "floor"; "round"; "clamp"] →
  isResult receiver = true →
  (∀ d, body d = Throw err → runtimeError err) →
  callMethod method receiver body = Throw err → runtimeError err.
Proof.
  intros Hmethod Hreceiver Hbody H.
  destruct receiver as [| | |d|elements|b|]; try done; cbn in H.
  - by eapply Hbody.
  - inversion H; subst. right; right.
    repeat (apply elem_of_cons in Hmethod as [->|Hmethod]; [reflexivity|]).
    by apply elem_of_nil in Hmethod.
  - inversion H; subst. right; right.
    repeat (apply elem_of_cons in Hmethod as [->|Hmethod]; [reflexivity|]).
    by apply elem_of_nil in Hmethod.
Qed.

Lemma interpretCall_Throw name (args : list (JSValue Number D)) err :
  throwsOwnErrors Decimal →
  includes validFunctions name = true →
  isResult (arg 0 args) = true →
  interpretCall name args = Throw err → runtimeError err.
Proof.
  intros (Hnew & Hclamp & Hsum) Hname Harg. unfold interpretCall.
  unfold includes, validFunctions in Hname. cbn [existsb] in Hname.
  destruct (name =? "abs")%string;
    [apply callMethod_Throw; [set_solver|done|done]|].
  destruct (name =? "ceil")%string;
    [apply callMethod_Throw; [set_solver|done|done]|].
  destruct (name =? "floor")%string;
    [apply callMethod_Throw; [set_solver|done|done]|].
  destruct (name =? "round")%string;
    [apply callMethod_Throw; [set_solver|done|done]|].
  destruct (name =? "clamp")%string.
  { apply callMethod_Throw; [set_solver|done|].
    intros d H. apply fmap_Throw in H. left. by eapply Hclamp. }
  destruct (name =? "sum")%string; [|done].
  destruct (arg 0 args); intros H;
    try (inversion H; subst; right; by left).
  apply fmap_Throw in H. left. by eapply Hsum.
Qed.

Lemma interpretUnary_Throw op operand err :
  match op with OpAdd | OpSub => true | _ => false end = true →
  interpretUnary op operand = Throw err → runtimeError err.
Proof.
  intros Hop H. destruct operand; try (inversion H; right; by left).
  by destruct op.
Qed.

Lemma interpretBinary_Throw op l r err :
  interpretBinary op l r = Throw err → runtimeError err.
Proof.
  intros H. destruct l; try (inversion H; right; by left).
  destruct r; try (inversion H; right; by left).
Qed.

Lemma interpret_Throw values err :
  throwsOwnErrors Decimal →
  Forall (λ w, isProcessed w = true) values →
  ∀ node, validAST node = true → indicesBelow (length values) node →
          interpret node values = Throw err → runtimeError err.
Proof.
  intros Hown Hall node.
  induction node as [index|text|op operand IH|op l r IHl IHr|name args IH]
    using ASTNode_nested_ind; intros Hvalid Hbelow H.
  - done.
  - cbn [interpret] in H. apply fmap_Throw in H. left.
    destruct Hown as (Hnew & _). by eapply Hnew.
  - cbn [interpret] in H. cbn [validAST] in Hvalid.
    apply andb_true_iff in Hvalid as [Hop Hvalid].
    apply bind_Throw in H as [H|(w & _ & H)]; [by apply IH|].
    by eapply interpretUnary_Throw.
  - cbn [interpret] in H. cbn [validAST] in Hvalid.
    apply andb_true_iff in Hvalid as [Hl Hr]. destruct Hbelow as [Bl Br].
    apply bind_Throw in H as [H|(x & _ & H)]; [by apply IHl|].
    apply bind_Throw in H as [H|(y & _ & H)]; [by apply IHr|].
    by eapply interpretBinary_Throw.
  - rewrite interpret_function in H. cbn [validAST] in Hvalid.
    apply andb_true_iff in Hvalid as [Hvalid Hargs].
    apply andb_true_iff in Hvalid as [Hname Harity].
    apply Nat.eqb_eq in Harity. apply indicesBelow_function in Hbelow.
    rewrite forallb_forall in Hargs.
    apply bind_Throw in H as [H|(vs & Hvs & H)].
    + apply mapM_result_Throw, Exists_exists in H as (a & Ha & H).
      rewrite Forall_forall in IH, Hbelow.
      apply (IH a Ha); [|by apply Hbelow|done].
      apply Hargs. by apply list_elem_of_In.
    + apply (interpretCall_Throw name vs); [done|done| |done].
      apply mapM_result_Forall2 in Hvs.
      destruct Hvs as [|a v0 args vs Ha Hvs].
      { unfold arity in Harity. by destruct (name =? "clamp")%string. }
      apply Forall_cons in Hbelow as [Hbelow _].
      by apply (interpret_isResult a values v0).
Qed.

End InterpreterResults.

(** ** Evaluating a parsed template *)

Section Evaluation.
Context {Number D : Type} `{Decimal : DecimalConstructor Number D}.
Implicit Types (v : JSValue Number D) (values : list (JSValue Number D)).

Lemma preprocessValues_Throw values err :
  preprocessValues values = Throw err →
  ∃ v, v ∈ values ∧ isProcessed v = false ∧ newDecimal v = Throw err.
Proof.
  intros H. apply mapM_result_Throw, Exists_exists in H as (v & Hv & H).
  exists v. split; [done|].
  destruct v; try done; apply fmap_Throw in H; by split.
Qed.

(** X7.  Evaluating the tree of a parsed template on as many values as the
    template has slots fails only with an error of the backend, with one of
    the three assertions of the interpreter, or with the engine's error for
    calling [abs], [ceil], [floor], [round] or [clamp] on an array or a
    boolean.  The two last throws of [interpret] (unknown function, unknown
    node type) are never reached, and no method is looked up on
    [undefined]. *)
Theorem evaluation_errors (m : Mode) (template : list string)
  (ast : ASTNode) values (err : Error) :
  throwsOwnErrors Decimal →
  parseTemplate m template = OK ast →
  length template = S (length values) →
  evaluate ast values = Throw err →
  runtimeError err ∧
  err ≠ UnknownNodeType ∧ (∀ name, err ≠ UnknownFunction name) ∧
  (∀ method,
     err ≠ JSTypeError ("Cannot read properties of undefined (reading '"
                          +:+ method +:+ "')")).
Proof.
  intros Hown Hparse Hlen H.
  assert (runtimeError err) as Herr.
  { unfold evaluate in H.
    apply bind_Throw in H as [H|(processed & Hpre & H)].
    - apply preprocessValues_Throw in H as (v & _ & _ & H).
      left. destruct Hown as (Hnew & _). by eapply Hnew.
    - pose proof (preprocessValues_length _ _ Hpre) as Hl.
      pose proof (preprocessValues_processed _ _ Hpre) as Hall.
      apply (interpret_Throw processed err Hown Hall ast);
        [by eapply parseTemplate_valid| |done].
      apply parseTemplate_indices in Hparse.
      by replace (length processed) with (length template - 1) by lia. }
  split; [done|].
  split_and!; [intros ->| intros name ->| intros method ->];
    destruct Herr as [Herr|[Herr|Herr]]; done.
Qed.

(** X8.  When [math] returns, on as many values as its template has slots,
    it returns an instance of the backend, unless the whole template is one
    slot (possibly in parentheses) filled with an array, which is returned
    as it is.  It never returns a boolean or [undefined]. *)
Theorem math_returns_instance_or_array (fragments : TemplateId → list string)
  (c : Caches) (template : TemplateId) values v :
  reachable fragments c →
  length (fragments template) = S (length values) →
  (math fragments c template values).1 = OK v →
  (∃ d, v = JDecimal d) ∨
  (∃ index elements,
     parseTemplate MathMode (fragments template) = OK (value index) ∧
     values !! index = Some (JArray elements) ∧ v = JArray elements).
Proof.
  intros Hreach Hlen H. unfold math in H. rewrite entry_fresh in H by done.
  unfold evaluateFresh in H. apply bind_OK in H as (ast & Hparse & H).
  unfold evaluate in H. apply bind_OK in H as (processed & Hpre & H).
  pose proof (parseTemplate_comparisons _ _ _ Hparse) as Hfree.
  pose proof (parseTemplate_indices _ _ _ Hparse) as Hbelow.
  apply interpret_OK in H.
  destruct ast as [index|text|op operand|op l r|name args]; try (by left).
  - cbn [indicesBelow] in Hbelow.
    pose proof (preprocessValues_length _ _ Hpre) as Hl.
    destruct (lookup_lt_is_Some_2 processed index) as [w Hw]; [lia|].
    rewrite (nth_lookup_Some _ _ _ _ Hw) in H. subst v.
    destruct (preprocessValues_lookup _ _ Hpre _ _ Hw) as (v0 & Hv0 & Hw0).
    apply preprocessValue_spec in Hw0 as (Hproc & Hsame & Hnew).
    destruct w as [| | |d|elements| |]; try done; [left; eauto|].
    right. exists index, elements. split_and!; [done| |done].
    destruct (isProcessed v0) eqn:Hv; [by rewrite Hv0, <- (Hsame eq_refl)|].
    by destruct (Hnew eq_refl) as (d & _ & ?).
  - cbn [comparisonFree] in Hfree.
    destruct (COMPARISON_OPS op); [done|by left].
Qed.

End Evaluation.

(** The reference backend throws errors of its own only. *)
Lemma QBackend_throwsOwnErrors : throwsOwnErrors QBackend.QDecimal.
Proof.
  assert (∀ v e, QBackend.construct v = Throw e → isBackendError e = true)
    as Hconstruct.
  { intros v e H. destruct v; cbn in H; try (by inversion H).
    destruct (QBackend.parseDecimal _); by inversion H. }
  split_and!.
  - exact Hconstruct.
  - intros d lo hi e H. cbn in H. unfold QBackend.clampTo in H.
    apply bind_Throw in H as [H|(x & _ & H)]; [by eapply Hconstruct|].
    apply bind_Throw in H as [H|(y & _ & H)]; [by eapply Hconstruct|done].
  - intros vs e H. cbn in H. unfold QBackend.sumOf in H.
    destruct vs as [|seed more]; [by inversion H|].
    apply bind_Throw in H as [H|(x & _ & H)]; [by eapply Hconstruct|].
    apply bind_Throw in H as [H|(y & _ & H)]; [|done].
    apply mapM_result_Throw, Exists_exists in H as (w & _ & H).
    by eapply Hconstruct.
Qed.

Lemma evaluation_errors_witness :
  runtimeError (JSTypeError "args[0].abs is not a function").
Proof.
  eapply (evaluation_errors (Decimal := QBackend.QDecimal) MathMode
            ["abs("; ")"] (function "abs" [value 0]) [JArray []]).
  - exact QBackend_throwsOwnErrors.
  - reflexivity.
  - reflexivity.
  - reflexivity.
Defined.

Lemma math_returns_instance_or_array_witness :
  (∃ d, JDecimal (Number := Z) 4%Q = JDecimal d) ∨
  (∃ index elements,
     parseTemplate MathMode ["sum("; ") + 1"] = OK (value index) ∧
     [JArray [QBackend.int 1; QBackend.int 2]] !! index
       = Some (JArray elements) ∧
     JDecimal 4%Q = JArray elements).
Proof.
  apply (math_returns_instance_or_array (Decimal := QBackend.QDecimal)
           (QBackend.only ["sum("; ") + 1"]) create 1%positive
           [JArray [QBackend.int 1; QBackend.int 2]] (JDecimal 4%Q)).
  - constructor.
  - reflexivity.
  - reflexivity.
Defined.

(** * Syntax errors, on the grammar *)

Lemma wellFormed_expressionSpec (e : Expr) :
  wellFormed e = true → expressionSpec e.
Proof.
  intros Hwf. apply loopSpec_expressionSpec.
  by destruct (parser_follows_grammar e Hwf).
Qed.

Lemma stops_token (minPrec : nat) (t : Token) (rest : list Token) :
  (∀ op, t ≠ OPERATOR op) → stops minPrec (t :: rest).
Proof.
  intros Ht. destruct t as [i|text|op|name| | | |]; try done.
  by destruct (Ht op).
Qed.

(** X9.  A complete expression followed by a token that is not an operator:
    the parse ends there.  If the token is [EOF] the template is accepted
    (whatever follows [EOF]); otherwise both entry points throw
    'Unexpected tokens after expression', [is] before it asks for its
    comparison.  An error of the mode inside the expression comes first. *)
Theorem tokens_after_expression (m : Mode) (e : Expr) (t : Token)
  (rest : list Token) :
  wellFormed e = true →
  (∀ op, t ≠ OPERATOR op) →
  parseTokens m (tokensOf e ++ t :: rest) =
  flag ← modeCheck m true false e;
  match t with
  | EOF =>
    match m with
    | MathMode => OK (toAST e)
    | IsMode => if negb flag then Throw IsRequiresComparison else OK (toAST e)
    end
  | _ => Throw UnexpectedTokensAfterExpression
  end.
Proof.
  intros Hwf Ht. unfold parseTokens.
  set (toks := tokensOf e ++ t :: rest).
  set (p := newASTParser toks m).
  assert (view p = tokensOf e ++ t :: rest) as Hv by done.
  rewrite (wellFormed_expressionSpec e Hwf _ p 0 true (t :: rest) Hv);
    [|lia|by apply stops_token|].
  2:{ unfold parseFuel, toks. rewrite length_app. pose proof (needC_bound e).
      simpl. lia. }
  change (mode p) with m. change (hasTopLevelComparison p) with false.
  destruct (modeCheck m true false e) as [flag|err]; [|done].
  cbn [mbind result_bind].
  assert (view (moved p (length (tokensOf e)) flag) = t :: rest) as Hv'
    by by apply (view_moved _ _ _ _ _ Hv).
  rewrite (view_current _ _ _ Hv').
  by destruct t.
Qed.

Lemma tokens_after_expression_witness :
  parseTokens IsMode [NUMBER "1"; NUMBER "2"; EOF] =
  Throw UnexpectedTokensAfterExpression.
Proof.
  apply (tokens_after_expression IsMode (ENumber "1") (NUMBER "2") [EOF]).
  - reflexivity.
  - intros op H. discriminate H.
Defined.

(** ** The argument loop, one argument at a time *)

Lemma parseArguments_step (a : Expr) (fuel : nat) (acc : list ASTNode)
  (p : ASTParser) (t : Token) (rest : list Token) :
  expressionSpec a →
  view p = tokensOf a ++ t :: rest →
  (∀ op, t ≠ OPERATOR op) →
  needC a + 2 ≤ fuel →
  parseArguments (S fuel) acc p =
  flag ← modeCheck (mode p) false (hasTopLevelComparison p) a;
  match t with
  | COMMA =>
    parseArguments fuel (acc ++ [toAST a])
      (moved p (S (length (tokensOf a))) flag)
  | RPAREN =>
    parseArguments fuel (acc ++ [toAST a])
      (moved p (length (tokensOf a)) flag)
  | _ => Throw ExpectedCommaOrRParen
  end.
Proof.
  intros Ha Hv Ht Hfuel. rewrite parseArguments_S.
  destruct (tokensOf_head a) as (t0 & ts & Hts & Ht0).
  assert (current p = Some t0) as Hcur.
  { apply (view_current _ _ (ts ++ t :: rest)). by rewrite Hv, Hts. }
  rewrite Hcur.
  transitivity
    ('(a0, p0) ← parseExpression fuel 0 false p;
     match current p0 with
     | None => undefinedToken
     | Some COMMA => parseArguments fuel (acc ++ [a0]) (advance p0)
     | Some RPAREN => parseArguments fuel (acc ++ [a0]) p0
     | Some _ => Throw ExpectedCommaOrRParen
     end).
  { by destruct t0. }
  rewrite (Ha fuel p 0 false (t :: rest) Hv); [|lia|by apply stops_token|lia].
  destruct (modeCheck (mode p) false (hasTopLevelComparison p) a)
    as [flag|err]; [|done].
  cbn [mbind result_bind].
  assert (view (moved p (length (tokensOf a)) flag) = t :: rest) as Hv1
    by by apply (view_moved _ _ _ _ _ Hv).
  rewrite (view_current _ _ _ Hv1), advance_moved.
  replace (length (tokensOf a) + 1) with (S (length (tokensOf a))) by lia.
  by destruct t.
Qed.

Lemma separated_cons (a b : Expr) (args : list Expr) :
  separated (a :: b :: args) = tokensOf a ++ COMMA :: separated (b :: args).
Proof. reflexivity. Qed.

Lemma modeCheckArgs_cons (m : Mode) (a : Expr) (es : list Expr) (flag : bool) :
  modeCheckArgs m (a :: es) flag =
  flag ← modeCheck m false flag a; modeCheckArgs m es flag.
Proof. reflexivity. Qed.

Lemma parseArguments_run (args : list Expr) :
  Forall expressionSpec args → args ≠ [] →
  ∀ fuel acc p t rest,
    view p = separated args ++ t :: rest →
    (∀ op, t ≠ OPERATOR op) →
    needArgs args ≤ fuel →
    parseArguments fuel acc p =
    flag ← modeCheckArgs (mode p) args (hasTopLevelComparison p);
    match t with
    | COMMA =>
      parseArguments (fuel - length args) (acc ++ List.map toAST args)
        (moved p (S (length (separated args))) flag)
    | RPAREN =>
      parseArguments (fuel - length args) (acc ++ List.map toAST args)
        (moved p (length (separated args)) flag)
    | _ => Throw ExpectedCommaOrRParen
    end.
Proof.
  induction args as [|a args IH]; [done|].
  intros Hall _ fuel acc p t rest Hv Ht Hfuel.
  apply Forall_cons in Hall as [Ha Hall]. cbn [needArgs] in Hfuel.
  destruct fuel as [|fuel]; [lia|].
  destruct args as [|b args].
  - cbn [separated] in Hv.
    rewrite (parseArguments_step a fuel acc p t rest Ha Hv Ht); [|lia].
    replace (S fuel - length [a]) with fuel by (simpl; lia).
    cbn [modeCheckArgs separated List.map].
    by destruct (modeCheck (mode p) false (hasTopLevelComparison p) a)
      as [flag|err].
  - rewrite separated_cons, <- app_assoc in Hv. cbn [app] in Hv.
    rewrite (parseArguments_step a fuel acc p COMMA _ Ha Hv); [|done|lia].
    rewrite modeCheckArgs_cons.
    destruct (modeCheck (mode p) false (hasTopLevelComparison p) a)
      as [flag|err]; [|done].
    cbn [mbind result_bind].
    set (p1 := moved p (S (length (tokensOf a))) flag).
    assert (view p1 = separated (b :: args) ++ t :: rest) as Hv1.
    { apply (view_moved p _ flag (tokensOf a ++ [COMMA])).
      - by rewrite <- app_assoc.
      - rewrite length_app. simpl. lia. }
    assert (b :: args ≠ []) as Hne by done.
    rewrite (IH Hall Hne fuel (acc ++ [toAST a]) p1 t rest Hv1 Ht); [|lia].
    change (mode p1) with (mode p).
    change (hasTopLevelComparison p1) with flag.
    destruct (modeCheckArgs (mode p) (b :: args) flag) as [flag'|err];
      [|done].
    cbn [mbind result_bind]. unfold p1. rewrite !moved_moved, <- app_assoc.
    rewrite separated_cons, length_app.
    change (length (a :: b :: args)) with (S (length (b :: args))).
    change (S fuel - S (length (b :: args)))
      with (fuel - length (b :: args)).
    change ([toAST a] ++ List.map toAST (b :: args))
      with (List.map toAST (a :: b :: args)).
    replace (S (length (tokensOf a)) + S (length (separated (b :: args))))
      with (S (length (tokensOf a) + length (COMMA :: separated (b :: args))))
      by (simpl; lia).
    replace (S (length (tokensOf a)) + length (separated (b :: args)))
      with (length (tokensOf a) + length (COMMA :: separated (b :: args)))
      by (simpl; lia).
    done.
Qed.

Lemma needArgs_bound (args : list Expr) :
  needArgs args ≤ 3 * length (separated args) + 1.
Proof.
  induction args as [|a args IH]; [simpl; lia|].
  pose proof (needC_bound a). cbn [needArgs].
  destruct args as [|b args]; [simpl in *; lia|].
  rewrite separated_cons, length_app. simpl length in *. lia.
Qed.

Lemma length_args_bound (args : list Expr) :
  length args ≤ length (separated args).
Proof.
  induction args as [|a args IH]; [simpl; lia|].
  destruct (tokensOf_head a) as (t & ts & Hts & _).
  destruct args as [|b args]; [simpl; rewrite Hts; simpl; lia|].
  rewrite separated_cons, length_app, Hts. simpl length in *. lia.
Qed.

Lemma parseTokens_primary (m : Mode) (toks : list Token) :
  parseTokens m toks =
  '(ast, parser) ←
    ('(l, p) ← parsePrimary (3 * length toks + 2) (newASTParser toks m);
     parseExpressionLoop (3 * length toks + 2) 0 true l p);
  match current parser with
  | None => undefinedToken
  | Some EOF =>
    match m with
    | MathMode => OK ast
    | IsMode =>
      if negb (hasTopLevelComparison parser) then Throw IsRequiresComparison
      else OK ast
    end
  | Some _ => Throw UnexpectedTokensAfterExpression
  end.
Proof.
  unfold parseTokens, parseFuel.
  replace (3 * length toks + 3) with (S (3 * length toks + 2)) by lia.
  by rewrite parseExpression_S.
Qed.

Lemma parseTokens_primary_Throw (m : Mode) (toks : list Token) (e : Error) :
  parsePrimary (3 * length toks + 2) (newASTParser toks m) = Throw e →
  parseTokens m toks = Throw e.
Proof. intros H. by rewrite parseTokens_primary, H. Qed.

(** X10.  The three delimiter errors.  A function name not followed by an
    opening parenthesis; arguments followed by a token that is neither an
    operator, a comma nor a closing parenthesis; a parenthesized expression
    followed by a token that is neither an operator nor a closing
    parenthesis.  In the last two an error of the mode inside what was read
    comes first, and the function name has not been looked at yet. *)
Theorem missing_delimiters (m : Mode) (name : string) (t : Token)
  (rest : list Token) :
  (t ≠ LPAREN →
   parseTokens m (FUNCTION name :: t :: rest) =
   Throw (ExpectedLParenAfterFunction name)) ∧
  (∀ args,
     Forall (λ a, wellFormed a = true) args → args ≠ [] →
     (∀ op, t ≠ OPERATOR op) → t ≠ COMMA → t ≠ RPAREN →
     parseTokens m (FUNCTION name :: LPAREN :: separated args ++ t :: rest) =
     _ ← modeCheckArgs m args false; Throw ExpectedCommaOrRParen) ∧
  (∀ e,
     wellFormed e = true →
     (∀ op, t ≠ OPERATOR op) → t ≠ RPAREN →
     parseTokens m (LPAREN :: tokensOf e ++ t :: rest) =
     _ ← modeCheck m false false e; Throw ExpectedClosingParen).
Proof.
  split_and!.
  - intros Ht. apply parseTokens_primary_Throw.
    replace (3 * length (FUNCTION name :: t :: rest) + 2)
      with (S (3 * length (FUNCTION name :: t :: rest) + 1)) by lia.
    rewrite parsePrimary_S. cbn [newASTParser current tokens pos lookup].
    change (current (advance (newASTParser (FUNCTION name :: t :: rest) m)))
      with (Some t).
    by destruct t.
  - intros args Hargs Hne Hop Hcomma Hrparen.
    set (toks := FUNCTION name :: LPAREN :: separated args ++ t :: rest).
    rewrite parseTokens_primary.
    replace (3 * length toks + 2) with (S (3 * length toks + 1)) by lia.
    rewrite parsePrimary_S.
    set (p := newASTParser toks m).
    change (current p) with (Some (FUNCTION name)).
    change (current (advance p)) with (Some LPAREN).
    cbv beta iota.
    assert (view (advance (advance p)) = separated args ++ t :: rest) as Hv
      by done.
    assert (Forall expressionSpec args) as Hspec
      by (eapply Forall_impl; [exact Hargs|exact wellFormed_expressionSpec]).
    rewrite (parseArguments_run args Hspec Hne _ [] _ t rest Hv Hop).
    2:{ pose proof (needArgs_bound args). unfold toks. simpl length.
        rewrite length_app. lia. }
    change (mode (advance (advance p))) with m.
    change (hasTopLevelComparison (advance (advance p))) with false.
    destruct (modeCheckArgs m args false) as [flag|err]; [|done].
    cbn [mbind result_bind].
    by destruct t.
  - intros e Hwf Hop Hrparen.
    set (toks := LPAREN :: tokensOf e ++ t :: rest).
    rewrite parseTokens_primary.
    replace (3 * length toks + 2) with (S (3 * length toks + 1)) by lia.
    rewrite parsePrimary_S.
    set (p := newASTParser toks m).
    change (current p) with (Some LPAREN). cbv beta iota.
    assert (view (advance p) = tokensOf e ++ t :: rest) as Hv by done.
    rewrite (wellFormed_expressionSpec e Hwf _ (advance p) 0 false
               (t :: rest) Hv); [|lia|by apply stops_token|].
    2:{ pose proof (needC_bound e). unfold toks. simpl length.
        rewrite length_app. lia. }
    change (mode (advance p)) with m.
    change (hasTopLevelComparison (advance p)) with false.
    destruct (modeCheck m false false e) as [flag|err]; [|done].
    cbn [mbind result_bind].
    assert (view (moved (advance p) (length (tokensOf e)) flag) = t :: rest)
      as Hv' by by apply (view_moved _ _ _ _ _ Hv).
    rewrite (view_current _ _ _ Hv').
    by destruct t.
Qed.

Lemma missing_delimiters_witness :
  parseTokens MathMode [FUNCTION "abs"; NUMBER "1"; EOF] =
    Throw (ExpectedLParenAfterFunction "abs") ∧
  parseTokens MathMode
    [FUNCTION "foo"; LPAREN; NUMBER "1"; NUMBER "2"; RPAREN; EOF] =
    Throw ExpectedCommaOrRParen ∧
  parseTokens MathMode [LPAREN; NUMBER "1"; OPERATOR OpAdd; NUMBER "2"; EOF] =
    Throw ExpectedClosingParen.
Proof.
  split_and!.
  - by apply (missing_delimiters MathMode "abs" (NUMBER "1") [EOF]).
  - destruct (missing_delimiters MathMode "foo" (NUMBER "2") [RPAREN; EOF])
      as (_ & H & _).
    by apply (H [ENumber "1"]); [repeat constructor| | | |].
  - destruct (missing_delimiters MathMode "abs" EOF []) as (_ & _ & H).
    by apply (H (EBinary OpAdd (ENumber "1") (ENumber "2"))).
Defined.

(** X11.  A call that is the whole template: its arguments are parsed and
    checked against the mode first, then the name is looked up among the six
    functions and the number of arguments is compared with 3 for [clamp] and
    with 1 otherwise.  One comma after the last argument is accepted and
    does not count as an argument. *)
Theorem call_validated_after_arguments (m : Mode) (name : string)
  (args : list Expr) (trailing : bool) :
  Forall (λ a, wellFormed a = true) args →
  (trailing = true → args ≠ []) →
  parseTokens m
    (FUNCTION name :: LPAREN ::
       separated args ++
       (if trailing then [COMMA; RPAREN; EOF] else [RPAREN; EOF])) =
  flag ← modeCheckArgs m args false;
  node ← validateCall name (List.map toAST args);
  match m with
  | MathMode => OK node
  | IsMode => if negb flag then Throw IsRequiresComparison else OK node
  end.
Proof.
  intros Hargs Htrailing.
  set (close := if trailing then [COMMA; RPAREN; EOF] else [RPAREN; EOF]).
  set (toks := FUNCTION name :: LPAREN :: separated args ++ close).
  assert (Forall expressionSpec args) as Hspec
    by (eapply Forall_impl; [exact Hargs|exact wellFormed_expressionSpec]).
  assert (2 ≤ length close) as Hclose by (unfold close; destruct trailing; simpl; lia).
  assert (length toks = 2 + length (separated args) + length close) as Hlen.
  { unfold toks. simpl length. rewrite length_app. lia. }
  pose proof (needArgs_bound args) as Hneed.
  pose proof (length_args_bound args) as Hcount.
  rewrite parseTokens_primary.
  set (fuel := 3 * length toks + 1).
  replace (3 * length toks + 2) with (S fuel) by (unfold fuel; lia).
  rewrite parsePrimary_S.
  set (p := newASTParser toks m).
  change (current p) with (Some (FUNCTION name)).
  change (current (advance p)) with (Some LPAREN).
  cbv beta iota.
  set (p2 := advance (advance p)).
  assert (view p2 = separated args ++ close) as Hv by done.
  set (k := length (separated args) + if trailing then 1 else 0).
  assert (parseArguments fuel [] p2 =
          flag ← modeCheckArgs m args false;
          OK (List.map toAST args, moved p2 k flag)) as ->.
  { unfold k, close in *. destruct trailing.
    - rewrite (parseArguments_run args Hspec (Htrailing eq_refl) fuel [] p2
                 COMMA [RPAREN; EOF] Hv); [|done|unfold fuel; lia].
      change (mode p2) with m. change (hasTopLevelComparison p2) with false.
      destruct (modeCheckArgs m args false) as [flag|err]; [|done].
      cbn [mbind result_bind app].
      destruct (fuel - length args) as [|fuel'] eqn:Hfuel;
        [unfold fuel in Hfuel; lia|].
      rewrite parseArguments_S.
      assert (view (moved p2 (S (length (separated args))) flag)
              = [RPAREN; EOF]) as Hv'.
      { apply (view_moved p2 _ flag (separated args ++ [COMMA])).
        - by rewrite <- app_assoc.
        - rewrite length_app. simpl. lia. }
      rewrite (view_current _ _ _ Hv').
      by replace (length (separated args) + 1)
        with (S (length (separated args))) by lia.
    - rewrite (parseArguments_spec args Hspec fuel [] p2 [EOF] Hv);
        [|unfold fuel; lia].
      by rewrite Nat.add_0_r. }
  destruct (modeCheckArgs m args false) as [flag|err]; [|done].
  cbn [mbind result_bind].
  destruct (validateCall name (List.map toAST args)) as [node|err]; [|done].
  cbn [mbind result_bind].
  assert (view (advance (moved p2 k flag)) = [EOF]) as Hv'.
  { unfold k, close in *. rewrite advance_moved.
    destruct trailing.
    - apply (view_moved p2 _ flag (separated args ++ [COMMA; RPAREN])).
      + by rewrite <- app_assoc.
      + rewrite length_app. simpl. lia.
    - apply (view_moved p2 _ flag (separated args ++ [RPAREN])).
      + by rewrite <- app_assoc.
      + rewrite length_app. simpl. lia. }
  rewrite loop_stops by by rewrite Hv'.
  cbn [mbind result_bind]. by rewrite (view_current _ _ _ Hv').
Qed.

Lemma call_validated_after_arguments_witness :
  parseTokens MathMode
    [FUNCTION "abs"; LPAREN; NUMBER "1"; COMMA; RPAREN; EOF] =
    OK (function "abs" [number "1"]) ∧
  parseTokens MathMode
    [FUNCTION "clamp"; LPAREN; NUMBER "1"; COMMA; NUMBER "2"; RPAREN; EOF] =
    Throw ClampRequires3Arguments ∧
  parseTokens MathMode [FUNCTION "sum"; LPAREN; RPAREN; EOF] =
    Throw (RequiresOneArgument "sum") ∧
  parseTokens MathMode [FUNCTION "sqrt"; LPAREN; NUMBER "4"; RPAREN; EOF] =
    Throw (UnknownFunction "sqrt").
Proof.
  split_and!.
  - apply (call_validated_after_arguments MathMode "abs" [ENumber "1"] true);
      [by repeat constructor|done].
  - apply (call_validated_after_arguments MathMode "clamp"
             [ENumber "1"; ENumber "2"] false);
      [by repeat constructor|done].
  - by apply (call_validated_after_arguments MathMode "sum" [] false).
  - apply (call_validated_after_arguments MathMode "sqrt" [ENumber "4"] false);
      [by repeat constructor|done].
Defined.

(** * More on the caches *)

Section CacheUpdates.
Context {Number D : Type} `{Decimal : DecimalConstructor Number D}.
Variable fragments : TemplateId → list string.
Implicit Types (values : list (JSValue Number D)) (c : Caches).

(** X12.  What a call does to the caches does not depend on the values it
    is given, nor on whether the evaluation fails: the tree is stored before
    the values are looked at.  A call touches one entry of one cache only:
    the entry of its template in the cache of its entry point. *)
Theorem cache_update_is_local (m : Mode) c (template : TemplateId) values :
  (∀ values',
     (entry fragments m c template values').2 =
     (entry fragments m c template values).2) ∧
  (∀ m' template',
     (m', template') ≠ (m, template) →
     cacheOf m' (entry fragments m c template values).2 !! template' =
     cacheOf m' c !! template') ∧
  (∀ ast,
     parseTemplate m (fragments template) = OK ast →
     cacheOf m c !! template = None →
     cacheOf m (entry fragments m c template values).2 !! template
       = Some ast).
Proof.
  split_and!.
  - intros values'. unfold entry.
    destruct (cacheOf m c !! template) as [ast|]; [done|].
    by destruct (parseTemplate m (fragments template)) as [ast|err].
  - intros m' template' Hne. unfold entry.
    destruct (cacheOf m c !! template) as [ast|]; [done|].
    destruct (parseTemplate m (fragments template)) as [ast|err]; cbn [snd].
    + rewrite cacheOf_cacheSet, cacheOf_countParse.
      destruct (decide (m' = m)) as [->|]; [|done].
      rewrite lookup_insert_ne; [done|]. congruence.
    + by rewrite cacheOf_countParse.
  - intros ast Hparse Hmiss.
    destruct (entry_miss fragments m c template values Hmiss) as [_ ->].
    by rewrite Hparse.
Qed.

(** X13.  On the caches a program can reach, every stored tree is the parse
    of the template it is stored under, in the mode of its cache, and the
    two caches together hold at most as many trees as the parser has run:
    one for each run that succeeded. *)
Theorem reachable_caches_invariant c :
  reachable fragments c →
  (∀ m template ast,
     cacheOf m c !! template = Some ast →
     parseTemplate m (fragments template) = OK ast) ∧
  size (mathCache c) + size (isCache c) ≤ parseCount c.
Proof.
  intros Hreach. split; [by apply reachable_consistent|].
  induction Hreach as [|m c template values _ IH]; [done|].
  unfold entry.
  destruct (cacheOf m c !! template) as [ast|] eqn:Hlook; [done|].
  destruct (parseTemplate m (fragments template)) as [ast|err]; cbn [snd].
  - destruct m; cbn in *; rewrite map_size_insert_None by done; lia.
  - cbn. lia.
Qed.

End CacheUpdates.

Lemma cache_update_is_local_witness :
  let fragments := QBackend.only [""; " + 1"] in
  let ast := binary OpAdd (value 0) (number "1") in
  cacheOf MathMode
    (entry (Decimal := QBackend.QDecimal) fragments MathMode create
       1%positive [JArray []]).2 !! 1%positive = Some ast.
Proof.
  destruct (cache_update_is_local (Decimal := QBackend.QDecimal)
              (QBackend.only [""; " + 1"]) MathMode create 1%positive
              [JArray []]) as (_ & _ & H).
  by apply H.
Defined.

Lemma reachable_caches_invariant_witness :
  let c := (math (Decimal := QBackend.QDecimal)
              (QBackend.only ["1 + "; ""]) create 1%positive
              [JArray []]).2 in
  size (mathCache c) + size (isCache c) ≤ parseCount c.
Proof.
  apply (reachable_caches_invariant (Decimal := QBackend.QDecimal)
           (QBackend.only ["1 + "; ""])).
  apply (reachable_entry _ MathMode create 1%positive [JArray []]).
  constructor.
Defined.

(** * The trees the parser builds *)

Lemma toAST_exprOf (node : ASTNode) : toAST (exprOf node) = node.
Proof.
  induction node as [index|text|op operand IH|op l r IHl IHr|name args IH]
    using ASTNode_nested_ind; cbn [exprOf toAST]; try congruence.
  f_equal. induction IH as [|a args Ha _ IHargs]; [done|].
  cbn [List.map]. by rewrite Ha, IHargs.
Qed.

Lemma wellFormed_exprOf (node : ASTNode) :
  validAST node = true → wellFormed (exprOf node) = true.
Proof.
  induction node as [index|text|op operand IH|op l r IHl IHr|name args IH]
    using ASTNode_nested_ind; cbn [exprOf validAST wellFormed level];
    intros Hvalid; try done.
  - apply andb_true_iff in Hvalid as [Hop Hvalid].
    by rewrite Hop, IH.
  - apply andb_true_iff in Hvalid as [Hl Hr].
    rewrite (IHl Hl), (IHr Hr), !andb_true_r.
    by destruct op.
  - apply andb_true_iff in Hvalid as [Hvalid Hargs].
    apply andb_true_iff in Hvalid as [Hname Harity].
    rewrite Hname, length_map, Harity. cbn [andb]. clear Harity.
    induction IH as [|a args Ha _ IHargs]; [done|].
    cbn [forallb List.map] in *.
    apply andb_true_iff in Hargs as [Hvalid Hargs].
    by rewrite (Ha Hvalid), (IHargs Hargs).
Qed.

Lemma modeCheck_exprOf (m : Mode) (node : ASTNode) :
  comparisonFree node = true →
  ∀ top flag, modeCheck m top flag (exprOf node) = OK flag.
Proof.
  induction node as [index|text|op operand IH|op l r IHl IHr|name args IH]
    using ASTNode_nested_ind; cbn [exprOf comparisonFree];
    intros Hfree top flag; try done.
  - cbn [modeCheck]. by apply IH.
  - apply andb_true_iff in Hfree as [Hfree Hr].
    apply andb_true_iff in Hfree as [Hop Hl].
    apply negb_true_iff in Hop.
    cbn [modeCheck]. rewrite (IHl Hl). cbn [mbind result_bind].
    unfold checkOperator. rewrite Hop. cbn [mbind result_bind].
    by apply IHr.
  - rewrite modeCheck_call. revert flag.
    induction IH as [|a args Ha _ IHargs]; intros flag; [done|].
    cbn [forallb List.map modeCheckArgs] in *.
    apply andb_true_iff in Hfree as [Hfree Hargs].
    rewrite (Ha Hfree). cbn [mbind result_bind]. by apply IHargs.
Qed.

Lemma parseTokens_valid (m : Mode) (toks : list Token) (ast : ASTNode) :
  parseTokens m toks = OK ast → validAST ast = true.
Proof.
  unfold parseTokens. intros H.
  apply bind_OK in H as ([a p] & Hparse & H). cbv beta iota in H.
  destruct (parse_valid (parseFuel toks)) as (_ & _ & Hexpr & _).
  apply Hexpr in Hparse.
  assert (a = ast) as <- by (inv_result H; done). done.
Qed.

(** X14.  The trees each entry point can take from its parser are exactly
    these: unary nodes carry [+] or [-], function nodes carry one of the six
    names with 3 arguments for [clamp] and 1 otherwise, and a comparison
    occurs nowhere ([math]) or at the root and nowhere else ([is]).  Every
    such tree is the parse of some token list. *)
Theorem parsed_trees (m : Mode) (ast : ASTNode) :
  (∃ toks, parseTokens m toks = OK ast) ↔
  validAST ast = true ∧ modeAdmits m ast = true.
Proof.
  split.
  - intros [toks H]. split; [by eapply parseTokens_valid|].
    apply parseTokens_comparisons in H. by destruct m.
  - intros [Hvalid Hmode]. exists (tokensOf (exprOf ast) ++ [EOF]).
    rewrite (parseTokens_grammar m _ (wellFormed_exprOf ast Hvalid)).
    rewrite toAST_exprOf. destruct m; cbn [modeAdmits] in Hmode.
    + by rewrite (modeCheck_exprOf MathMode ast Hmode).
    + destruct ast as [index|text|op operand|op l r|name args]; try done.
      cbn [isComparison] in Hmode.
      apply andb_true_iff in Hmode as [Hmode Hr].
      apply andb_true_iff in Hmode as [Hop Hl].
      cbn [exprOf modeCheck].
      rewrite (modeCheck_exprOf IsMode l Hl). cbn [mbind result_bind].
      unfold checkOperator. rewrite Hop. cbn [negb mbind result_bind].
      by rewrite (modeCheck_exprOf IsMode r Hr).
Qed.

(** * Every slot becomes one leaf *)

Lemma indicesOf_function (name : string) (args : list ASTNode) :
  indicesOf (function name args) = flat_map indicesOf args.
Proof.
  cbn [indicesOf]. induction args as [|a args IH]; [done|].
  cbn [flat_map]. by rewrite IH.
Qed.

Lemma reads_refl (p : ASTParser) : reads p p [].
Proof.
  split_and!; [done|done|]. unfold consumed. by rewrite Nat.sub_diag.
Qed.

Lemma reads_trans (p p1 p2 : ASTParser) (xs ys : list nat) :
  reads p p1 xs → reads p1 p2 ys → reads p p2 (xs ++ ys).
Proof.
  intros (Ht & Hp & Hc) (Ht' & Hp' & Hc').
  split_and!; [congruence|lia|].
  rewrite (consumed_trans p p1 p2) by done.
  by rewrite valueIndices_app, Hc, Hc'.
Qed.

Lemma reads_trans_r (p p1 p2 : ASTParser) (xs : list nat) :
  reads p p1 xs → reads p1 p2 [] → reads p p2 xs.
Proof. intros H1 H2. rewrite <- (app_nil_r xs). by eapply reads_trans. Qed.

Lemma reads_advance (p : ASTParser) (t : Token) :
  current p = Some t → reads p (advance p) (valueIndices [t]).
Proof.
  intros Hcur. split_and!; [done|simpl; lia|].
  unfold consumed. simpl. rewrite (current_view _ _ Hcur).
  by replace (S (pos p) - pos p) with 1 by lia.
Qed.

Lemma reads_flag (p p' : ASTParser) (op : Operator) (top : bool) :
  checkComparison op top p = OK p' → reads p p' [].
Proof.
  intros H. apply checkComparison_outcome in H as [[_ ->]|(_ & _ & _ & _ & ->)];
    [apply reads_refl|].
  split_and!; [done|done|]. unfold consumed. simpl. by rewrite Nat.sub_diag.
Qed.

Lemma parse_reads (fuel : nat) :
  (∀ p a p', parsePrimary fuel p = OK (a, p') → reads p p' (indicesOf a)) ∧
  (∀ args p l p', parseArguments fuel args p = OK (l, p') →
     ∃ indices, reads p p' indices ∧
       flat_map indicesOf l = flat_map indicesOf args ++ indices ∧
       current p' = Some RPAREN) ∧
  (∀ minPrec top p a p', parseExpression fuel minPrec top p = OK (a, p') →
     reads p p' (indicesOf a)) ∧
  (∀ minPrec top l p a p',
     parseExpressionLoop fuel minPrec top l p = OK (a, p') →
     ∃ indices, reads p p' indices ∧ indicesOf a = indicesOf l ++ indices).
Proof.
  induction fuel as [|fuel (IHprim & IHargs & IHexpr & IHloop)].
  { repeat split; intros; discriminate. }
  split_and!.
  - intros p a p' H. rewrite parsePrimary_S in H.
    destruct (current p) as [t|] eqn:Hcur; [|discriminate].
    destruct t as [index|text|op|name| | | |]; try discriminate.
    + inversion H; subst. by apply (reads_advance p (VALUE index)).
    + inversion H; subst. by apply (reads_advance p (NUMBER text)).
    + pose proof (reads_advance p _ Hcur) as Hs.
      destruct op; try discriminate.
      all: apply bind_OK in H as ([x p1] & Hx & H); inversion H; subst.
      all: apply IHprim in Hx.
      all: by apply (reads_trans p (advance p) p' [] _ Hs).
    + destruct (current (advance p)) as [t'|] eqn:Hcur'; [|discriminate].
      destruct t'; try discriminate.
      apply bind_OK in H as ([args p1] & Hx & H). cbv beta iota in H.
      apply bind_OK in H as (node & Hnode & H). inversion H; subst.
      apply validateCall_OK in Hnode as ->.
      apply IHargs in Hx as (indices & Hx & Hl & Hcur1).
      rewrite indicesOf_function, Hl. cbn [flat_map app].
      apply (reads_trans p (advance p) _ [] _ (reads_advance p _ Hcur)).
      apply (reads_trans _ (advance (advance p)) _ [] _
               (reads_advance (advance p) _ Hcur')).
      apply (reads_trans_r _ p1 _ indices Hx).
      by apply (reads_advance p1 RPAREN).
    + apply bind_OK in H as ([x p1] & Hx & H). cbv beta iota in H.
      apply IHexpr in Hx.
      destruct (current p1) as [[]|] eqn:Hcur1; try discriminate.
      inversion H; subst.
      apply (reads_trans p (advance p) _ [] _ (reads_advance p _ Hcur)).
      apply (reads_trans_r _ p1 _ _ Hx).
      by apply (reads_advance p1 RPAREN).
  - intros args p l p' H. rewrite parseArguments_S in H.
    destruct (current p) as [t|] eqn:Hcur; [|discriminate].
    assert (t = RPAREN ∨
            ('(a, p) ← parseExpression fuel 0 false p;
             match current p with
             | None => undefinedToken
             | Some COMMA => parseArguments fuel (args ++ [a]) (advance p)
             | Some RPAREN => parseArguments fuel (args ++ [a]) p
             | Some _ => Throw ExpectedCommaOrRParen
             end) = OK (l, p')) as [->|H'].
    { destruct t; auto. }
    { inversion H; subst. exists []. rewrite app_nil_r.
      split_and!; [apply reads_refl|done|done]. }
    clear H. apply bind_OK in H' as ([x p1] & Hx & H). cbv beta iota in H.
    apply IHexpr in Hx.
    destruct (current p1) as [[]|] eqn:Hcur1; try discriminate.
    + apply IHargs in H as (indices & H & Hl & Hcur').
      exists (indicesOf x ++ indices). split_and!; [| 
        by rewrite Hl, flat_map_app, <- app_assoc; cbn; rewrite app_nil_r |
        done].
      by apply (reads_trans p p1 p').
    + apply IHargs in H as (indices & H & Hl & Hcur').
      exists (indicesOf x ++ indices). split_and!; [|
        by rewrite Hl, flat_map_app, <- app_assoc; cbn; rewrite app_nil_r |
        done].
      apply (reads_trans p p1 p' _ _ Hx).
      by apply (reads_trans p1 (advance p1) p' [] _
                  (reads_advance p1 COMMA Hcur1)).
  - intros minPrec top p a p' H. rewrite parseExpression_S in H.
    apply bind_OK in H as ([x p1] & Hx & H). cbv beta iota in H.
    apply IHprim in Hx.
    apply IHloop in H as (indices & H & ->).
    by apply (reads_trans p p1 p').
  - intros minPrec top l p a p' H. rewrite parseExpressionLoop_S in H.
    destruct (current p) as [t|] eqn:Hcur; [|discriminate].
    destruct t as [index|text|op|name| | | |];
      try (inversion H; subst; exists []; rewrite app_nil_r; split;
           [apply reads_refl|done]).
    destruct (PRECEDENCE op <? minPrec).
    { inversion H; subst. exists []. rewrite app_nil_r. split;
        [apply reads_refl|done]. }
    apply bind_OK in H as (p0 & Hcheck & H).
    assert (current p0 = Some (OPERATOR op)) as Hcur0.
    { apply checkComparison_outcome in Hcheck
        as [[_ ->]|(_ & _ & _ & _ & ->)]; done. }
    apply reads_flag in Hcheck.
    apply bind_OK in H as ([r p3] & Hexpr & H). cbv beta iota in H.
    apply IHexpr in Hexpr.
    apply IHloop in H as (indices & H & ->).
    exists (indicesOf r ++ indices). cbn [indicesOf].
    split; [|by rewrite app_assoc].
    apply (reads_trans p p0 p' [] _ Hcheck).
    apply (reads_trans p0 (advance p0) p' [] _ (reads_advance p0 _ Hcur0)).
    by apply (reads_trans _ p3 p').
Qed.

Lemma valueIndices_body (body : list Token) :
  valueIndices (body ++ [EOF]) = valueIndices body.
Proof. by rewrite valueIndices_app, app_nil_r. Qed.

(** X15.  In the tree of a parsed template the value nodes, read from left
    to right, carry the indices 0, 1, ... of the slots, each once: the
    parser drops no slot, repeats none and keeps their order. *)
Theorem value_nodes_are_the_slots (m : Mode) (template : list string)
  (ast : ASTNode) :
  parseTemplate m template = OK ast →
  indicesOf ast = seq 0 (length template - 1).
Proof.
  unfold parseTemplate. intros H.
  apply bind_OK in H as (toks & Htok & H).
  pose proof (tokenizeLoop_slots 0 (length template) template toks
                eq_refl Htok) as Hslots.
  destruct (tokenizeLoop_EOF _ _ _ _ Htok) as (body & -> & Hbody).
  rewrite valueIndices_body in Hslots. rewrite <- Hslots.
  unfold parseTokens in H.
  apply bind_OK in H as ([a p] & Hparse & H). cbv beta iota in H.
  destruct (parse_reads (parseFuel (body ++ [EOF]))) as (_ & _ & Hexpr & _).
  apply Hexpr in Hparse as (Ht & _ & Hread).
  destruct (current p) as [[]|] eqn:Hcur; try discriminate.
  assert (a = ast) as -> by (destruct m; inv_result H; done).
  unfold current in Hcur. rewrite Ht in Hcur. simpl in Hcur.
  assert (pos p = length body) as Hpos.
  { destruct (decide (pos p < length body)) as [Hlt|Hge].
    - rewrite lookup_app_l in Hcur by done.
      rewrite Forall_lookup in Hbody. by destruct (Hbody _ _ Hcur).
    - apply lookup_lt_Some in Hcur. rewrite length_app in Hcur.
      simpl in Hcur. lia. }
  unfold consumed, view in Hread. simpl in Hread.
  rewrite ?Nat.sub_0_r, Hpos, drop_0 in Hread.
  by rewrite take_app_length in Hread.
Qed.

Lemma value_nodes_are_the_slots_witness :
  indicesOf (binary OpLt (function "clamp" [value 0; value 1; value 2])
               (unary OpSub (value 3))) = [0; 1; 2; 3].
Proof.
  apply (value_nodes_are_the_slots IsMode
           ["clamp("; ","; ","; ") < -"; ""]).
  reflexivity.
Defined.

(** * Evaluation without arrays *)

Section NoArrays.
Context {Number D : Type} `{Decimal : DecimalConstructor Number D}.
Implicit Types (v : JSValue Number D) (values : list (JSValue Number D)).

Lemma preprocessValues_instances values processed :
  Forall (λ v, isArray v = false) values →
  preprocessValues values = OK processed →
  Forall (λ w, isInstance w = true) processed.
Proof.
  intros Hno Hpre. apply Forall_lookup. intros i w Hw.
  destruct (preprocessValues_lookup _ _ Hpre _ _ Hw) as (v & Hv & Hpv).
  rewrite Forall_lookup in Hno. specialize (Hno _ _ Hv).
  apply preprocessValue_spec in Hpv as (_ & Hsame & Hnew).
  destruct (isProcessed v) eqn:Hp.
  - rewrite (Hsame eq_refl). by destruct v.
  - by destruct (Hnew eq_refl) as (d & _ & ->).
Qed.

(** On instances only, a tree without comparisons evaluates to an
    instance. *)
Lemma interpret_instance (node : ASTNode) values v :
  Forall (λ w, isInstance w = true) values →
  indicesBelow (length values) node →
  comparisonFree node = true →
  interpret node values = OK v → isInstance v = true.
Proof.
  intros Hall Hbelow Hfree H. apply interpret_OK in H.
  destruct node as [index|text|op operand|op l r|name args].
  - cbn [indicesBelow] in Hbelow.
    destruct (lookup_lt_is_Some_2 values index Hbelow) as [w Hw].
    rewrite (nth_lookup_Some _ _ _ _ Hw) in H. subst v.
    rewrite Forall_lookup in Hall. by apply (Hall _ _ Hw).
  - by destruct H as [d ->].
  - by destruct H as [d ->].
  - cbn [comparisonFree] in Hfree.
    destruct (COMPARISON_OPS op); [done|]. by destruct H as [d ->].
  - by destruct H as [d ->].
Qed.

Lemma interpretCall_plain name (args : list (JSValue Number D)) err :
  throwsOwnErrors Decimal →
  includes validFunctions name = true →
  isInstance (arg 0 args) = true →
  interpretCall name args = Throw err → plainError err.
Proof.
  intros (Hnew & Hclamp & Hsum) Hname Harg. unfold interpretCall.
  unfold includes, validFunctions in Hname. cbn [existsb] in Hname.
  destruct (arg 0 args) as [| | |d| | |]; try done. cbn [callMethod].
  destruct (name =? "abs")%string; [done|].
  destruct (name =? "ceil")%string; [done|].
  destruct (name =? "floor")%string; [done|].
  destruct (name =? "round")%string; [done|].
  destruct (name =? "clamp")%string.
  { intros H. apply fmap_Throw in H. left. by eapply Hclamp. }
  destruct (name =? "sum")%string; [|done].
  intros [= <-]. by right.
Qed.

Lemma interpret_plain values err :
  throwsOwnErrors Decimal →
  Forall (λ w, isInstance w = true) values →
  ∀ node, validAST node = true → indicesBelow (length values) node →
          comparisonFree node = true →
          interpret node values = Throw err → plainError err.
Proof.
  intros Hown Hall node.
  induction node as [index|text|op operand IH|op l r IHl IHr|name args IH]
    using ASTNode_nested_ind; intros Hvalid Hbelow Hfree H.
  - done.
  - cbn [interpret] in H. apply fmap_Throw in H. left.
    destruct Hown as (Hnew & _). by eapply Hnew.
  - cbn [interpret] in H. cbn [validAST] in Hvalid.
    apply andb_true_iff in Hvalid as [Hop Hvalid].
    apply bind_Throw in H as [H|(w & Hw & H)]; [by apply IH|].
    apply (interpret_instance operand values w Hall Hbelow Hfree) in Hw.
    destruct w as [| | |d| | |]; try done. by destruct op.
  - cbn [interpret] in H. cbn [validAST comparisonFree] in Hvalid, Hfree.
    apply andb_true_iff in Hvalid as [Hl Hr]. destruct Hbelow as [Bl Br].
    apply andb_true_iff in Hfree as [Hfree Fr].
    apply andb_true_iff in Hfree as [_ Fl].
    apply bind_Throw in H as [H|(x & Hx & H)]; [by apply IHl|].
    apply bind_Throw in H as [H|(y & Hy & H)]; [by apply IHr|].
    apply (interpret_instance l values x Hall Bl Fl) in Hx.
    apply (interpret_instance r values y Hall Br Fr) in Hy.
    destruct x as [| | |dx| | |]; try done.
    by destruct y as [| | |dy| | |].
  - rewrite interpret_function in H. cbn [validAST comparisonFree] in Hvalid, Hfree.
    apply andb_true_iff in Hvalid as [Hvalid Hargs].
    apply andb_true_iff in Hvalid as [Hname Harity].
    apply Nat.eqb_eq in Harity. apply indicesBelow_function in Hbelow.
    rewrite forallb_forall in Hargs. rewrite forallb_forall in Hfree.
    apply bind_Throw in H as [H|(vs & Hvs & H)].
    + apply mapM_result_Throw, Exists_exists in H as (a & Ha & H).
      rewrite Forall_forall in IH, Hbelow.
      apply (IH a Ha); [|by apply Hbelow| |done].
      * apply Hargs. by apply list_elem_of_In.
      * apply Hfree. by apply list_elem_of_In.
    + apply (interpretCall_plain name vs); [done|done| |done].
      apply mapM_result_Forall2 in Hvs.
      destruct Hvs as [|a v0 args vs Ha Hvs].
      { unfold arity in Harity. by destruct (name =? "clamp")%string. }
      apply Forall_cons in Hbelow as [Hbelow _].
      apply (interpret_instance a values v0); [done|done| |done].
      apply Hfree. by left.
Qed.

(** X16.  The assertions on operands and the engine's error for a missing
    method guard against arrays only.  When none of the values is an array,
    an evaluation of a parsed template fails with an error of the backend
    or, if the template calls [sum], with 'sum() requires an array
    argument', and with nothing else. *)
Theorem errors_without_arrays (m : Mode) (template : list string)
  (ast : ASTNode) values (err : Error) :
  throwsOwnErrors Decimal →
  parseTemplate m template = OK ast →
  length template = S (length values) →
  Forall (λ v, isArray v = false) values →
  evaluate ast values = Throw err →
  isBackendError err = true ∨ err = SumRequiresArray.
Proof.
  intros Hown Hparse Hlen Hno H. unfold evaluate in H.
  apply bind_Throw in H as [H|(processed & Hpre & H)].
  { apply preprocessValues_Throw in H as (v & _ & _ & H).
    left. destruct Hown as (Hnew & _). by eapply Hnew. }
  pose proof (preprocessValues_instances _ _ Hno Hpre) as Hall.
  pose proof (preprocessValues_length _ _ Hpre) as Hl.
  pose proof (parseTemplate_valid _ _ _ Hparse) as Hvalid.
  pose proof (parseTemplate_comparisons _ _ _ Hparse) as Hmode.
  pose proof (parseTemplate_indices _ _ _ Hparse) as Hbelow.
  replace (length template - 1) with (length processed) in Hbelow by lia.
  destruct m; [by apply (interpret_plain processed err Hown Hall ast)|].
  destruct ast as [index|text|op operand|op l r|name args]; try done.
  cbn [isComparison] in Hmode.
  apply andb_true_iff in Hmode as [Hmode Fr].
  apply andb_true_iff in Hmode as [_ Fl].
  cbn [validAST] in Hvalid. apply andb_true_iff in Hvalid as [Vl Vr].
  destruct Hbelow as [Bl Br]. cbn [interpret] in H.
  apply bind_Throw in H as [H|(x & Hx & H)];
    [by apply (interpret_plain processed err Hown Hall l)|].
  apply bind_Throw in H as [H|(y & Hy & H)];
    [by apply (interpret_plain processed err Hown Hall r)|].
  apply (interpret_instance l processed x Hall Bl Fl) in Hx.
  apply (interpret_instance r processed y Hall Br Fr) in Hy.
  destruct x as [| | |dx| | |]; try done.
  by destruct y as [| | |dy| | |].
Qed.

End NoArrays.

Lemma errors_without_arrays_witness :
  isBackendError (BackendError "Invalid argument: 1.2.3") = true ∨
  BackendError "Invalid argument: 1.2.3" = SumRequiresArray.
Proof.
  apply (errors_without_arrays (Decimal := QBackend.QDecimal) IsMode
           [""; " < 1.2.3"] (binary OpLt (value 0) (number "1.2.3"))
           [QBackend.int 1]).
  - exact QBackend_throwsOwnErrors.
  - reflexivity.
  - reflexivity.
  - by repeat constructor.
  - reflexivity.
Defined.
